(** * Landing page glue code: the submission gate and the translation resolver

    A shallow embedding of [src/js/form-handler.js] (class [FormHandler]) and
    [src/i18n.js] (class [I18n]).  The browser is modelled only as far as the
    two classes touch it: [localStorage], [Date.now], one-shot timers, the
    console, the [lang] query parameter, [navigator.language] and the network
    fetch of a translation table.  Every method that reads or writes the
    browser is a computation in a state-and-exception monad over that model.

    Modelling conventions
    - JS numbers are the integers [Z] (timestamps are milliseconds since the
      epoch, counts are small naturals); fractional hours are not modelled.
    - JS strings are [string]; only ASCII letters change under [toLowerCase].
    - [async]/[await] is run to completion: a method is one atomic step.
    - What the language runtime decides is a parameter of the methods:
      [JSON.parse] and [JSON.stringify] for the gate, the properties a value
      gets from its prototype chain and the conversion of a non-string to a
      string for the resolver.  The theorems hold for every such host; the
      worked examples use a reference instance.
    - [Date.now] is a sequence of readings, one consumed per call, so that
      time may pass between two calls of the same method; each network
      request has its own outcome.
    - The methods that only repaint the page leave a mark in a trace. *)

From Stdlib Require Import ZArith List String Ascii Bool Lia PeanoNat DecimalString.
From Equations Require Import Equations.
From Equations.Prop Require Import Logic.
Import ListNotations.

Set Implicit Arguments.

(** ** Strings *)

Module Str.

Local Open Scope string_scope.

(** [s.startsWith(p)], returning what follows the prefix. *)
Fixpoint strip_prefix (p s : string) : option string :=
  match p, s with
  | EmptyString, _ => Some s
  | String a p', String b s' => if Ascii.eqb a b then strip_prefix p' s' else None
  | String _ _, EmptyString => None
  end.

Definition startsWith (s p : string) : bool :=
  match strip_prefix p s with Some _ => true | None => false end.

(** [s.includes(p)]: [p] occurs at some offset of [s]. *)
Fixpoint includes (s p : string) : bool :=
  startsWith s p ||
  match s with
  | EmptyString => false
  | String _ s' => includes s' p
  end.

(** [s.split(sep)] for a one-character separator: the pieces between
    separators, empty pieces included, never the empty list. *)
Fixpoint split (sep : ascii) (s : string) : list string :=
  match s with
  | EmptyString => [EmptyString]
  | String c r =>
      if Ascii.eqb c sep then EmptyString :: split sep r
      else match split sep r with
           | piece :: pieces => String c piece :: pieces
           | [] => [String c EmptyString]
           end
  end.

Definition is_upper (c : ascii) : bool :=
  ((65 <=? nat_of_ascii c) && (nat_of_ascii c <=? 90))%nat.

Definition lower_char (c : ascii) : ascii :=
  if is_upper c then ascii_of_nat (nat_of_ascii c + 32) else c.

(** [s.toLowerCase()] on ASCII letters. *)
Fixpoint toLowerCase (s : string) : string :=
  match s with
  | EmptyString => EmptyString
  | String c r => String (lower_char c) (toLowerCase r)
  end.

End Str.

(** ** The JavaScript host *)

Module Js.

(** Exceptions the modelled code can meet. *)
Inductive error : Type :=
| SecurityError        (* storage access denied *)
| QuotaExceededError   (* storage full on write *)
| SyntaxError          (* JSON.parse on malformed text *)
| TypeError            (* calling a method a value does not have *)
| NetworkError.        (* fetch rejected *)

(** How a computation ends.  [Exhausted] is not a JS outcome: it marks a
    recursion cut short by its unrolling bound, and no handler catches it. *)
Inductive completion (A : Type) : Type :=
| Normal (a : A)
| Throw (e : error)
| Exhausted.

Arguments Normal {A} a.
Arguments Throw {A} e.
Arguments Exhausted {A}.

(** State-and-exception monad over a world [W]. *)
Definition M (W A : Type) : Type := W -> completion A * W.

Definition ret {W A} (a : A) : M W A := fun w => (Normal a, w).

Definition bind {W A B} (m : M W A) (k : A -> M W B) : M W B :=
  fun w =>
    match m w with
    | (Normal a, w') => k a w'
    | (Throw e, w') => (Throw e, w')
    | (Exhausted, w') => (Exhausted, w')
    end.

Definition throw {W A} (e : error) : M W A := fun w => (Throw e, w).

Definition exhausted {W A} : M W A := fun w => (Exhausted, w).

(** [try { body } catch (e) { handler e }] *)
Definition try_catch {W A} (body : M W A) (handler : error -> M W A) : M W A :=
  fun w =>
    match body w with
    | (Throw e, w') => handler e w'
    | r => r
    end.

Definition get {W} : M W W := fun w => (Normal w, w).
Definition modify {W} (f : W -> W) : M W unit := fun w => (Normal tt, f w).

(** [m] keeps [P]: from a world in [P] it ends in a world in [P], however it
    ends. *)
Definition preserves {W A} (P : W -> Prop) (m : M W A) : Prop :=
  forall w, P w -> P (snd (m w)).

Declare Scope js_scope.
Delimit Scope js_scope with js.
Notation "x <- m ;; k" := (bind m (fun x => k))
  (at level 61, m at next level, right associativity) : js_scope.
Notation "m ;; k" := (bind m (fun _ => k))
  (at level 61, right associativity) : js_scope.

(** *** localStorage *)

(** The store is a key-value list (first binding wins).  [denied] models a
    browser that refuses storage access: every call throws.  [quota_full]
    models a full store: [setItem] throws. *)
Record Storage : Type := {
  denied : bool;
  quota_full : bool;
  items : list (string * string)
}.

Fixpoint assoc {V} (k : string) (l : list (string * V)) : option V :=
  match l with
  | [] => None
  | (k', v) :: r => if String.eqb k' k then Some v else assoc k r
  end.

Fixpoint remove_key {V} (k : string) (l : list (string * V)) : list (string * V) :=
  match l with
  | [] => []
  | (k', v) :: r => if String.eqb k' k then remove_key k r else (k', v) :: remove_key k r
  end.

Definition getItem (k : string) (s : Storage) : completion (option string) :=
  if denied s then Throw SecurityError else Normal (assoc k (items s)).

Definition setItem (k v : string) (s : Storage) : completion Storage :=
  if denied s then Throw SecurityError
  else if quota_full s then Throw QuotaExceededError
  else Normal {| denied := denied s; quota_full := quota_full s;
                 items := (k, v) :: remove_key k (items s) |}.

Definition removeItem (k : string) (s : Storage) : completion Storage :=
  if denied s then Throw SecurityError
  else Normal {| denied := denied s; quota_full := quota_full s;
                 items := remove_key k (items s) |}.

(** *** Values *)

#[warnings="-register-all"]
(** JSON values, plus [VUndefined] and the host's own objects ([VNative]:
    functions and objects reached through a prototype chain). *)
Inductive value : Type :=
| VUndefined
| VNull
| VBool (b : bool)
| VNum (n : Z)
| VStr (s : string)
| VArr (elems : list value)
| VObj (fields : list (string * value))
| VNative (name : string).

(** [Boolean(v)] *)
Definition truthy (v : value) : bool :=
  match v with
  | VUndefined | VNull => false
  | VBool b => b
  | VNum n => negb (n =? 0)%Z
  | VStr s => negb (String.eqb s EmptyString)
  | VArr _ | VObj _ | VNative _ => true
  end.

(** [a || b] *)
Definition or_else (a b : value) : value := if truthy a then a else b.

End Js.

(** ** [src/js/form-handler.js]: the rate-limit methods of [FormHandler] *)

Module FormHandler.

Import Js.
Local Open Scope Z_scope.
Local Open Scope js_scope.

(** [window.APP_CONFIG.RATE_LIMIT] *)
Record RateLimit : Type := {
  MAX_ATTEMPTS_PER_HOUR : Z;
  ATTEMPT_WINDOW_HOURS : Z;
  STORAGE_KEY : string;
  BLOCK_MESSAGE : string
}.

(** [window.APP_CONFIG] *)
Record Config : Type := {
  GOOGLE_SCRIPT_URL : option string;
  DELIVERY_DATE : option string;
  RATE_LIMIT : option RateLimit
}.

(** What [JSON.parse] can hand back for the attempt log: [null], an array of
    timestamps (the only thing [saveSubmissionAttempts] writes), or a value
    that is not an array and so has neither [filter] nor [push].  Arrays
    holding anything but integer timestamps are outside the model. *)
Inductive logval : Type :=
| LNull
| LOther
| LStamps (stamps : list Z).

Inductive callback : Type :=
| ResetRateLimit      (* () => this.resetRateLimit() *)
| HideInlineError.    (* the auto-hide of createInlineError *)

Record timer : Type := {
  timer_id : positive;
  delay : Z;
  action : callback
}.

Inductive ui_event : Type :=
| RateLimitDisplay (remaining max : Z)   (* updateRateLimitDisplay(remaining, max) *)
| SubmitEnabled.                         (* submitButton.disabled = false *)

(** The browser as the handler sees it, and the handler's one mutable field. *)
Record World : Type := {
  storage : Storage;
  clock : nat -> Z;          (* successive readings of Date.now() *)
  reads : nat;               (* readings taken so far *)
  timers : list timer;       (* pending setTimeout callbacks *)
  next_timer : positive;     (* the id the next setTimeout returns *)
  console : list string;
  ui : list ui_event;
  resetTimeout : option positive   (* this.resetTimeout *)
}.

Definition set_storage (s : Storage) (w : World) : World :=
  {| storage := s; clock := clock w; reads := reads w; timers := timers w;
     next_timer := next_timer w; console := console w; ui := ui w;
     resetTimeout := resetTimeout w |}.

Definition tick (w : World) : World :=
  {| storage := storage w; clock := clock w; reads := S (reads w); timers := timers w;
     next_timer := next_timer w; console := console w; ui := ui w;
     resetTimeout := resetTimeout w |}.

Definition set_clock (c : nat -> Z) (w : World) : World :=
  {| storage := storage w; clock := c; reads := reads w; timers := timers w;
     next_timer := next_timer w; console := console w; ui := ui w;
     resetTimeout := resetTimeout w |}.

Definition set_timers (ts : list timer) (w : World) : World :=
  {| storage := storage w; clock := clock w; reads := reads w; timers := ts;
     next_timer := next_timer w; console := console w; ui := ui w;
     resetTimeout := resetTimeout w |}.

Definition set_next_timer (n : positive) (w : World) : World :=
  {| storage := storage w; clock := clock w; reads := reads w; timers := timers w;
     next_timer := n; console := console w; ui := ui w;
     resetTimeout := resetTimeout w |}.

Definition log_console (msg : string) (w : World) : World :=
  {| storage := storage w; clock := clock w; reads := reads w; timers := timers w;
     next_timer := next_timer w; console := console w ++ [msg]; ui := ui w;
     resetTimeout := resetTimeout w |}.

Definition log_ui (e : ui_event) (w : World) : World :=
  {| storage := storage w; clock := clock w; reads := reads w; timers := timers w;
     next_timer := next_timer w; console := console w; ui := ui w ++ [e];
     resetTimeout := resetTimeout w |}.

Definition set_resetTimeout (t : option positive) (w : World) : World :=
  {| storage := storage w; clock := clock w; reads := reads w; timers := timers w;
     next_timer := next_timer w; console := console w; ui := ui w;
     resetTimeout := t |}.

(** *** Host calls *)

Definition Date_now : M World Z :=
  fun w => (Normal (clock w (reads w)), tick w).

Definition console_error (msg : string) : M World unit := modify (log_console msg).
Definition console_log (msg : string) : M World unit := modify (log_console msg).

Definition localStorage_getItem (k : string) : M World (option string) :=
  fun w => (getItem k (storage w), w).

Definition localStorage_setItem (k v : string) : M World unit :=
  fun w =>
    match setItem k v (storage w) with
    | Normal s => (Normal tt, set_storage s w)
    | Throw e => (Throw e, w)
    | Exhausted => (Exhausted, w)
    end.

Definition localStorage_removeItem (k : string) : M World unit :=
  fun w =>
    match removeItem k (storage w) with
    | Normal s => (Normal tt, set_storage s w)
    | Throw e => (Throw e, w)
    | Exhausted => (Exhausted, w)
    end.

(** [setTimeout(cb, d)]: a fresh positive handle, the callback queued. *)
Definition setTimeout (cb : callback) (d : Z) : M World positive :=
  fun w =>
    let id := next_timer w in
    (Normal id,
     set_next_timer (Pos.succ id)
       (set_timers (timers w ++ [{| timer_id := id; delay := d; action := cb |}]) w)).

(** [clearTimeout(id)]: the timer with that handle, if pending, is dropped. *)
Definition clearTimeout (id : positive) : M World unit :=
  modify (fun w => set_timers (filter (fun t => negb (Pos.eqb (timer_id t) id)) (timers w)) w).

(** [attempts.filter(p)]: a [TypeError] unless [attempts] is an array. *)
Definition array_filter (p : Z -> bool) (attempts : logval) : M World (list Z) :=
  match attempts with
  | LStamps l => ret (filter p l)
  | LNull | LOther => throw TypeError
  end.

(** [Math.min(x, ...xs)] *)
Definition Math_min (x : Z) (xs : list Z) : Z := fold_left Z.min xs x.

Section Methods.

(** [JSON.parse] on the stored text ([None]: it throws [SyntaxError]) and
    [JSON.stringify] on an array of timestamps. *)
Variable JSON_parse : string -> option logval.
Variable JSON_stringify : list Z -> string.

(** [this.config = window.APP_CONFIG], fixed at construction. *)
Variable config : option Config.

(** [this.config?.RATE_LIMIT] *)
Definition rate_limit : option RateLimit :=
  match config with
  | Some c => RATE_LIMIT c
  | None => None
  end.

(** Lines 366-378. *)
Definition getSubmissionAttempts : M World logval :=
  match rate_limit with
  | None => ret (LStamps [])
  | Some rl =>
      try_catch
        (stored <- localStorage_getItem (STORAGE_KEY rl) ;;
         match stored with
         | None => ret (LStamps [])
         | Some EmptyString => ret (LStamps [])
         | Some text =>
             match JSON_parse text with
             | Some v => ret v
             | None => throw SyntaxError
             end
         end)
        (fun _ =>
           console_error "Error reading submission attempts:" ;;
           ret (LStamps []))
  end.

(** Lines 383-393. *)
Definition saveSubmissionAttempts (attempts : list Z) : M World unit :=
  match rate_limit with
  | None => ret tt
  | Some rl =>
      try_catch
        (localStorage_setItem (STORAGE_KEY rl) (JSON_stringify attempts))
        (fun _ => console_error "Error saving submission attempts:")
  end.

(** Lines 321-336. *)
Definition canSubmit : M World bool :=
  match rate_limit with
  | None => ret true
  | Some rl =>
      attempts <- getSubmissionAttempts ;;
      let maxAttempts := MAX_ATTEMPTS_PER_HOUR rl in
      let windowHours := ATTEMPT_WINDOW_HOURS rl in
      now <- Date_now ;;
      let windowStart := now - windowHours * 60 * 60 * 1000 in
      recentAttempts <- array_filter (fun timestamp => timestamp >? windowStart) attempts ;;
      ret (Z.of_nat (List.length recentAttempts) <? maxAttempts)
  end.

(** Lines 452-488: only the arguments are kept. *)
Definition updateRateLimitDisplay (remaining max : Z) : M World unit :=
  modify (log_ui (RateLimitDisplay remaining max)).

(** Lines 554-581, with the call back into
    [checkAndUpdateRateLimitDisplay] left open. *)
Definition resetRateLimit_body (check : M World unit) : M World unit :=
  match rate_limit with
  | None => ret tt
  | Some rl =>
      localStorage_removeItem (STORAGE_KEY rl) ;;
      check ;;
      modify (log_ui SubmitEnabled) ;;
      console_log "Rate limit reset"
  end.

(** Lines 530-549. *)
Definition scheduleRateLimitReset_body (check : M World unit) (resetTime : Z)
  : M World unit :=
  now <- Date_now ;;
  let delay := Z.max 0 (resetTime - now) in
  if delay <=? 0 then
    resetRateLimit_body check
  else
    w <- get ;;
    match resetTimeout w with
    | Some id => clearTimeout id
    | None => ret tt
    end ;;
    id <- setTimeout ResetRateLimit delay ;;
    modify (set_resetTimeout (Some id)).

(** Lines 423-447. *)
Definition checkAndUpdateRateLimitDisplay_body (check : M World unit) : M World unit :=
  match rate_limit with
  | None => ret tt
  | Some rl =>
      attempts <- getSubmissionAttempts ;;
      let maxAttempts := MAX_ATTEMPTS_PER_HOUR rl in
      let windowHours := ATTEMPT_WINDOW_HOURS rl in
      now <- Date_now ;;
      let windowStart := now - windowHours * 60 * 60 * 1000 in
      recentAttempts <- array_filter (fun timestamp => timestamp >? windowStart) attempts ;;
      let remainingAttempts := Z.max 0 (maxAttempts - Z.of_nat (List.length recentAttempts)) in
      updateRateLimitDisplay remainingAttempts maxAttempts ;;
      match recentAttempts with
      | x :: xs =>
          if remainingAttempts =? 0 then
            let oldestAttempt := Math_min x xs in
            let resetTime := oldestAttempt + windowHours * 60 * 60 * 1000 in
            scheduleRateLimitReset_body check resetTime
          else ret tt
      | [] => ret tt
      end
  end.

(** The three methods call one another in a cycle
    (check -> schedule -> reset -> check); [depth] bounds the unrolling. *)
Fixpoint checkAndUpdateRateLimitDisplay (depth : nat) : M World unit :=
  match depth with
  | O => exhausted
  | S d => checkAndUpdateRateLimitDisplay_body (checkAndUpdateRateLimitDisplay d)
  end.

Definition scheduleRateLimitReset (depth : nat) (resetTime : Z) : M World unit :=
  scheduleRateLimitReset_body (checkAndUpdateRateLimitDisplay depth) resetTime.

Definition resetRateLimit (depth : nat) : M World unit :=
  resetRateLimit_body (checkAndUpdateRateLimitDisplay depth).

(** [attempts.push(now)]: on [null] the property access throws before the
    argument is evaluated; on another non-array the call throws after it. *)
Definition push_now (attempts : logval) : M World (list Z) :=
  match attempts with
  | LNull => throw TypeError
  | LOther => Date_now ;; throw TypeError
  | LStamps l => now <- Date_now ;; ret (l ++ [now])
  end.

(** Lines 341-361. *)
Definition recordSubmission (depth : nat) : M World unit :=
  match rate_limit with
  | None => ret tt
  | Some rl =>
      attempts <- getSubmissionAttempts ;;
      attempts <- push_now attempts ;;
      let windowHours := ATTEMPT_WINDOW_HOURS rl in
      now <- Date_now ;;
      let windowStart := now - windowHours * 60 * 60 * 1000 in
      let recentAttempts := filter (fun timestamp => timestamp >? windowStart) attempts in
      saveSubmissionAttempts recentAttempts ;;
      checkAndUpdateRateLimitDisplay depth
  end.

(** A pending timer fires: the host drops it from the queue and runs its
    callback. *)
Definition fire (depth : nat) (id : positive) : M World unit :=
  w <- get ;;
  match find (fun t => Pos.eqb (timer_id t) id) (timers w) with
  | None => ret tt
  | Some t =>
      clearTimeout id ;;
      match action t with
      | ResetRateLimit => resetRateLimit depth
      | HideInlineError => ret tt
      end
  end.

(** Lines 674-678 of [createInlineError]: the auto-hide timer. *)
Definition createInlineError : M World unit :=
  setTimeout HideInlineError 5000 ;; ret tt.

(** What can happen to a constructed handler. *)
Inductive event : Type :=
| CallCanSubmit
| CallRecordSubmission
| CallCheckAndUpdate
| CallCreateInlineError
| TimerFires (id : positive).

Definition run (depth : nat) (e : event) : M World unit :=
  match e with
  | CallCanSubmit => canSubmit ;; ret tt
  | CallRecordSubmission => recordSubmission depth
  | CallCheckAndUpdate => checkAndUpdateRateLimitDisplay depth
  | CallCreateInlineError => createInlineError
  | TimerFires id => fire depth id
  end.

End Methods.

(** The timers whose callback is the rate-limit reset. *)
Definition reset_timers (w : World) : list timer :=
  filter (fun t => match action t with ResetRateLimit => true | HideInlineError => false end)
         (timers w).

(** A freshly constructed handler: [this.resetTimeout] is unset and it has
    queued no reset. *)
Definition fresh (w : World) : Prop :=
  resetTimeout w = None /\ reset_timers w = [].

(** Worlds a handler can be in: those reached from a fresh one by events,
    whether the event's method returned or threw. *)
Inductive reachable (JSON_parse : string -> option logval)
  (JSON_stringify : list Z -> string) (config : option Config) (depth : nat)
  : World -> Prop :=
| reach_fresh w : fresh w -> reachable JSON_parse JSON_stringify config depth w
| reach_step w e :
    reachable JSON_parse JSON_stringify config depth w ->
    reachable JSON_parse JSON_stringify config depth
      (snd (run JSON_parse JSON_stringify config depth e w)).

(** The attempts the gate counts at time [now]. *)
Definition recent (rl : RateLimit) (now : Z) (l : list Z) : list Z :=
  filter (fun timestamp => timestamp >? now - ATTEMPT_WINDOW_HOURS rl * 60 * 60 * 1000) l.

(** *** Worlds the methods lead to *)

(** [clearTimeout(this.resetTimeout)] guarded by [if (this.resetTimeout)]. *)
Definition cancel (id : option positive) (ts : list timer) : list timer :=
  match id with
  | Some i => filter (fun t => negb (Pos.eqb (timer_id t) i)) ts
  | None => ts
  end.

(** After [scheduleRateLimitReset] has queued a reset [d] milliseconds
    ahead. *)
Definition after_schedule (d : Z) (w : World) : World :=
  set_resetTimeout (Some (next_timer w))
    (set_next_timer (Pos.succ (next_timer w))
       (set_timers
          (cancel (resetTimeout w) (timers w)
           ++ [{| timer_id := next_timer w; delay := d; action := ResetRateLimit |}])
          w)).

(** After [resetRateLimit] has run to its end: the log is gone, the display
    shows a full allowance. *)
Definition after_reset (rl : RateLimit) (w : World) : World :=
  log_console "Rate limit reset"
    (log_ui SubmitEnabled
       (log_ui (RateLimitDisplay (Z.max 0 (MAX_ATTEMPTS_PER_HOUR rl - 0))
                                 (MAX_ATTEMPTS_PER_HOUR rl))
          (tick
             (set_storage
                {| denied := denied (storage w); quota_full := quota_full (storage w);
                   items := remove_key (STORAGE_KEY rl) (items (storage w)) |}
                w)))).

(** At most one reset is pending, and [this.resetTimeout] is its handle. *)
Definition one_reset_pending (w : World) : Prop :=
  reset_timers w = [] \/
  exists t, reset_timers w = [t] /\ resetTimeout w = Some (timer_id t).

(** [windowHours * 60 * 60 * 1000] *)
Definition window_ms (rl : RateLimit) : Z := ATTEMPT_WINDOW_HOURS rl * 60 * 60 * 1000.

(** The display check clears the log on the spot: the attempts of [l] that
    are recent at the reading [now] use up the allowance, and the oldest of
    them is a full window old at the next reading [later]. *)
Definition reset_due (rl : RateLimit) (now later : Z) (l : list Z) : bool :=
  match recent rl now l with
  | [] => false
  | x :: xs =>
      (Z.max 0 (MAX_ATTEMPTS_PER_HOUR rl - Z.of_nat (List.length (x :: xs))) =? 0)
      && (Math_min x xs + window_ms rl <=? later)
  end.

(** *** The gate as the specification words it *)

(** "within [[now - windowDuration, now]]" *)
Definition in_window (rl : RateLimit) (now timestamp : Z) : bool :=
  (now - ATTEMPT_WINDOW_HOURS rl * 60 * 60 * 1000 <=? timestamp) && (timestamp <=? now).

(** "filters to entries within the window, returns
    [recentCount < maxAttemptsPerWindow]" *)
Definition isAllowed_spec (rl : RateLimit) (now : Z) (log : list Z) : bool :=
  Z.of_nat (List.length (filter (in_window rl now) log)) <? MAX_ATTEMPTS_PER_HOUR rl.

(** *** A reference JSON codec for arrays of integers

    The methods take the host's [JSON.parse] and [JSON.stringify] as
    parameters; this instance, which reads and writes [[t1,t2,...]] and reads
    [null], serves the worked examples. *)

Definition string_of_Z (z : Z) : string := NilZero.string_of_int (Z.to_int z).

Definition Z_of_string (s : string) : option Z :=
  option_map Z.of_int (NilZero.int_of_string s).

Definition stringify_stamps (l : list Z) : string :=
  ("[" ++ String.concat "," (map string_of_Z l) ++ "]")%string.

(** [s] without its closing bracket. *)
Fixpoint chop_bracket (s : string) : option string :=
  match s with
  | EmptyString => None
  | String c EmptyString => if Ascii.eqb c "]" then Some EmptyString else None
  | String c r => option_map (String c) (chop_bracket r)
  end.

Fixpoint all_some {A} (l : list (option A)) : option (list A) :=
  match l with
  | [] => Some []
  | Some a :: r => option_map (cons a) (all_some r)
  | None :: _ => None
  end.

Definition parse_stamps (text : string) : option logval :=
  if String.eqb text "null" then Some LNull
  else
    match Str.strip_prefix "[" text with
    | Some r =>
        match chop_bracket r with
        | Some EmptyString => Some (LStamps [])
        | Some body =>
            option_map LStamps (all_some (map Z_of_string (Str.split "," body)))
        | None => None
        end
    | None => None
    end.

(** *** Worked examples: three attempts an hour *)

Definition policy : RateLimit :=
  {| MAX_ATTEMPTS_PER_HOUR := 3; ATTEMPT_WINDOW_HOURS := 1;
     STORAGE_KEY := "tawazn_submissions";
     BLOCK_MESSAGE := "Too many submission attempts. Please try again later." |}.

Definition app_config (rl : RateLimit) : option Config :=
  Some {| GOOGLE_SCRIPT_URL := None; DELIVERY_DATE := None; RATE_LIMIT := Some rl |}.

(** A browser whose clock reads [now], one millisecond more at each later
    reading, and whose store holds [stored] under the policy's key. *)
Definition browser (now : Z) (stored : string) : World :=
  {| storage := {| denied := false; quota_full := false;
                   items := [("tawazn_submissions"%string, stored)] |};
     clock := fun n => now + Z.of_nat n; reads := 0;
     timers := []; next_timer := 1%positive; console := []; ui := [];
     resetTimeout := None |}.

(** The same browser with storage access refused. *)
Definition locked_browser (now : Z) (stored : string) : World :=
  set_storage {| denied := true; quota_full := false;
                 items := [("tawazn_submissions"%string, stored)] |}
              (browser now stored).

End FormHandler.

(** ** [src/i18n.js]: language detection, table loading and lookup of [I18n] *)

Module I18n.

Import Js.
Local Open Scope string_scope.
Local Open Scope js_scope.

(** What the class does to the page and the network, in order. *)
Inductive effect : Type :=
| Fetch (url : string)
| SetItem (key val : string)
| Dom (method : string)            (* a DOM-updating method of the class ran *)
| ReplaceState (lang : string)     (* history.replaceState with ?lang=... *)
| Dispatch (event lang : string).  (* window.dispatchEvent *)

Record World : Type := {
  storage : Storage;
  location_lang : option string;           (* URLSearchParams.get('lang') *)
  navigator_language : option string;
  navigator_userLanguage : option string;
  network : nat -> string -> option value; (* what the n-th request gets, if anything *)
  requests : nat;                          (* requests made so far *)
  effects : list effect;
  console : list string;
  currentLang : string;                    (* this.currentLang *)
  translations : value                     (* this.translations *)
}.

Definition set_storage (s : Storage) (w : World) : World :=
  {| storage := s; location_lang := location_lang w;
     navigator_language := navigator_language w;
     navigator_userLanguage := navigator_userLanguage w; network := network w; requests := requests w;
     effects := effects w; console := console w; currentLang := currentLang w;
     translations := translations w |}.

Definition set_location_lang (l : option string) (w : World) : World :=
  {| storage := storage w; location_lang := l;
     navigator_language := navigator_language w;
     navigator_userLanguage := navigator_userLanguage w; network := network w; requests := requests w;
     effects := effects w; console := console w; currentLang := currentLang w;
     translations := translations w |}.

Definition log_effect (e : effect) (w : World) : World :=
  {| storage := storage w; location_lang := location_lang w;
     navigator_language := navigator_language w;
     navigator_userLanguage := navigator_userLanguage w; network := network w; requests := requests w;
     effects := effects w ++ [e]; console := console w; currentLang := currentLang w;
     translations := translations w |}.

Definition log_console (msg : string) (w : World) : World :=
  {| storage := storage w; location_lang := location_lang w;
     navigator_language := navigator_language w;
     navigator_userLanguage := navigator_userLanguage w; network := network w; requests := requests w;
     effects := effects w; console := console w ++ [msg]; currentLang := currentLang w;
     translations := translations w |}.

Definition set_currentLang (l : string) (w : World) : World :=
  {| storage := storage w; location_lang := location_lang w;
     navigator_language := navigator_language w;
     navigator_userLanguage := navigator_userLanguage w; network := network w; requests := requests w;
     effects := effects w; console := console w; currentLang := l;
     translations := translations w |}.

Definition set_translations (v : value) (w : World) : World :=
  {| storage := storage w; location_lang := location_lang w;
     navigator_language := navigator_language w;
     navigator_userLanguage := navigator_userLanguage w; network := network w; requests := requests w;
     effects := effects w; console := console w; currentLang := currentLang w;
     translations := v |}.

(** *** Host calls *)

Definition localStorage_getItem (k : string) : M World (option string) :=
  fun w => (getItem k (storage w), w).

Definition localStorage_setItem (k v : string) : M World unit :=
  fun w =>
    match setItem k v (storage w) with
    | Normal s => (Normal tt, log_effect (SetItem k v) (set_storage s w))
    | Throw e => (Throw e, w)
    | Exhausted => (Exhausted, w)
    end.

(** [(await fetch(url)).json()]: the request is made; it yields the served
    document or rejects. *)
Definition request (url : string) (w : World) : World :=
  {| storage := storage w; location_lang := location_lang w;
     navigator_language := navigator_language w;
     navigator_userLanguage := navigator_userLanguage w; network := network w;
     requests := S (requests w);
     effects := effects w ++ [Fetch url]; console := console w; currentLang := currentLang w;
     translations := translations w |}.

Definition fetch_json (url : string) : M World value :=
  fun w =>
    match network w (requests w) url with
    | Some v => (Normal v, request url w)
    | None => (Throw NetworkError, request url w)
    end.

Definition console_error (msg : string) : M World unit := modify (log_console msg).

Definition dom (method : string) : M World unit := modify (log_effect (Dom method)).

(** *** detectLanguage (lines 8-43) *)

(** [['en', 'id', 'ar'].includes(l)] *)
Definition supported (l : string) : bool :=
  String.eqb l "en" || String.eqb l "id" || String.eqb l "ar".

(** [a || b] on strings that may be undefined. *)
Definition str_or (a : option string) (b : string) : string :=
  match a with
  | Some (String c r) => String c r
  | Some EmptyString | None => b
  end.

(** [browserLang.split('-')[0]] *)
Definition primary_subtag (browserLang : string) : string :=
  match Str.split "-" browserLang with
  | p :: _ => p
  | [] => EmptyString
  end.

(** [x && ['en', 'id', 'ar'].includes(x)] *)
Definition supported_choice (x : option string) : option string :=
  match x with
  | Some l => if supported l then Some l else None
  | None => None
  end.

Definition detectLanguage : M World string :=
  w <- get ;;
  let urlLang := location_lang w in
  match supported_choice urlLang with
  | Some l => ret l
  | None =>
      saved <- localStorage_getItem "tawazn-language" ;;
      match supported_choice saved with
      | Some l => ret l
      | None =>
          let browserLang :=
            str_or (navigator_language w) (str_or (navigator_userLanguage w) "") in
          let langLower := Str.toLowerCase browserLang in
          if Str.startsWith langLower "id" || Str.includes langLower "indonesia"
             || Str.includes langLower "bahasa" then ret "id"
          else if Str.startsWith langLower "ar" || Str.includes langLower "arabic"
                  || Str.includes langLower "العربية" then ret "ar"
          else
            let primaryLang := Str.toLowerCase (primary_subtag browserLang) in
            if String.eqb primaryLang "id" then ret "id"
            else if String.eqb primaryLang "ar" then ret "ar"
            else ret "id"
      end
  end.

(** *** loadTranslations (lines 52-63) *)

Definition table_url (lang : string) : string := "translations/" ++ lang ++ ".json".

(** The [try] block: fetch the table of [lang] and install it. *)
Definition fetch_table (lang : string) : M World unit :=
  v <- fetch_json (table_url lang) ;;
  modify (set_translations v).

(** The recursion runs at most once more: from a language other than English
    to English. *)
Definition fallback_rank (lang : string) : nat :=
  if String.eqb lang "en" then 0 else 1.

(** The test [lang !== 'en'] of the [catch] block is taken first, so that the
    recursive call is seen to descend; both branches run the same [try]. *)
Equations? loadTranslations (lang : string) : M World unit
  by wf (fallback_rank lang) lt :=
  loadTranslations lang with inspect (String.eqb lang "en") := {
    | exist _ true _ =>
        try_catch (fetch_table lang)
          (fun _ => console_error "Failed to load translations:" ;; ret tt)
    | exist _ false Hne =>
        try_catch (fetch_table lang)
          (fun _ => console_error "Failed to load translations:" ;;
                    loadTranslations "en") }.
Proof. unfold fallback_rank. rewrite Hne. simpl. lia. Qed.

(** *** setLanguage (lines 81-104) and start-up (lines 2-6, 45-50) *)

Definition setLanguage (lang : string) : M World unit :=
  w <- get ;;
  if String.eqb lang (currentLang w) then ret tt
  else
    modify (set_currentLang lang) ;;
    localStorage_setItem "tawazn-language" lang ;;
    loadTranslations lang ;;
    dom "updateLanguage" ;;
    dom "setupRTL" ;;
    dom "updateLanguageSelectorDisplay" ;;
    dom "updateAllButtons" ;;
    modify (fun w => log_effect (ReplaceState lang) (set_location_lang (Some lang) w)) ;;
    modify (log_effect (Dispatch "languageChanged" lang)).

Definition init : M World unit :=
  w <- get ;;
  loadTranslations (currentLang w) ;;
  dom "updateLanguage" ;;
  dom "setupLanguageSelector" ;;
  dom "setupRTL".

Definition constructor : M World unit :=
  lang <- detectLanguage ;;
  modify (set_currentLang lang) ;;
  modify (set_translations (VObj [])) ;;
  init.

(** *** t (lines 65-79) *)

(** The class [\w] of the placeholder pattern: ASCII letters, digits, [_]. *)
Definition is_word (c : ascii) : bool :=
  let n := nat_of_ascii c in
  ((48 <=? n) && (n <=? 57) || (65 <=? n) && (n <=? 90)
   || (97 <=? n) && (n <=? 122) || (n =? 95))%nat.

(** The greedy [\w*]: the longest run of word characters, and the rest. *)
Fixpoint span_word (s : string) : string * string :=
  match s with
  | String c r =>
      if is_word c then let (w, r') := span_word r in (String c w, r')
      else (EmptyString, s)
  | EmptyString => (EmptyString, EmptyString)
  end.

(** The pattern [\{\{(\w+)\}\}] tried at the start of [s]: the captured name
    and what follows the match.  After the greedy run the next character is
    not a word character, so a shorter run cannot match either. *)
Definition match_at (s : string) : option (string * string) :=
  match Str.strip_prefix "{{" s with
  | Some r =>
      match span_word r with
      | (EmptyString, _) => None
      | (name, r') =>
          match Str.strip_prefix "}}" r' with
          | Some rest => Some (name, rest)
          | None => None
          end
      end
  | None => None
  end.

(** [s.replace(/\{\{(\w+)\}\}/g, f)]: left to right, each match is replaced
    by [f match name] and the scan resumes after it; where the pattern does
    not match, one character is copied. *)
Equations? replace_all (f : string -> string -> string) (s : string) : string
  by wf (String.length s) lt :=
  replace_all f s with inspect (match_at s) := {
    | exist _ (Some (name, rest)) Hm =>
        f ("{{" ++ name ++ "}}") name ++ replace_all f rest
    | exist _ None _ with s := {
        | EmptyString => EmptyString
        | String c r => String c (replace_all f r) } }.
Proof.
  - assert (Hstrip : forall p u v, Str.strip_prefix p u = Some v ->
                      String.length u = String.length p + String.length v).
    { induction p as [|a p IH]; intros u v; cbn [Str.strip_prefix].
      - intros [= ->]. reflexivity.
      - destruct u as [|b u]; [discriminate|].
        destruct (Ascii.eqb a b); [|discriminate].
        intros E. apply IH in E. cbn [String.length]. lia. }
    assert (Hspan : forall u, String.length (snd (span_word u)) <= String.length u).
    { induction u as [|c u IH]; cbn [span_word String.length snd]; [lia|].
      destruct (is_word c); [|cbn [String.length snd]; lia].
      destruct (span_word u); cbn [String.length snd] in *; lia. }
    unfold match_at in Hm.
    destruct (Str.strip_prefix "{{" s) as [r|] eqn:E1; [|discriminate Hm].
    apply Hstrip in E1. specialize (Hspan r).
    destruct (span_word r) as [w r']. destruct w; [discriminate Hm|].
    destruct (Str.strip_prefix "}}" r') as [rest'|] eqn:E3; [|discriminate Hm].
    apply Hstrip in E3. injection Hm as _ <-.
    cbn [String.length snd] in *. lia.
Qed.

(** [k] as an array index: a decimal numeral without leading zeros. *)
Definition digit (c : ascii) : option nat :=
  let n := nat_of_ascii c in
  if ((48 <=? n) && (n <=? 57))%nat then Some (n - 48) else None.

Fixpoint digits_value (acc : nat) (s : string) : option nat :=
  match s with
  | EmptyString => Some acc
  | String c r =>
      match digit c with
      | Some d => digits_value (10 * acc + d) r
      | None => None
      end
  end.

Definition array_index (k : string) : option nat :=
  match k with
  | EmptyString => None
  | String c r =>
      if Ascii.eqb c "0" then (if String.eqb r "" then Some 0 else None)
      else digits_value 0 k
  end.

(** The properties a JSON value holds itself: an object's keys, an array's
    elements and [length]. *)
Definition own_member (v : value) (k : string) : option value :=
  match v with
  | VObj fields => assoc k fields
  | VArr elems =>
      match array_index k with
      | Some i => nth_error elems i
      | None =>
          if String.eqb k "length" then Some (VNum (Z.of_nat (List.length elems)))
          else None
      end
  | _ => None
  end.

Section Lookup.

(** What the host adds to a value's own properties: [builtin v k] is [v[k]]
    when [k] is not an own property of [v] (the members of its prototype
    chain, the length and characters of a string), [VUndefined] when there is
    none.  [ToString] is the host's conversion of a non-string value. *)
Variable builtin : value -> string -> value.
Variable ToString : value -> string.

(** [v?.[k]] *)
Definition get_member (v : value) (k : string) : value :=
  match own_member v k with
  | Some x => x
  | None =>
      match v with
      | VUndefined | VNull => VUndefined
      | _ => builtin v k
      end
  end.

Definition js_to_string (v : value) : string :=
  match v with
  | VStr s => s
  | _ => ToString v
  end.

(** The replacer [(match, param) => params[param] || match], its result
    converted to a string as [replace] does. *)
Definition replacer (params : list (string * value)) (matched param : string) : string :=
  js_to_string (or_else (get_member (VObj params) param) (VStr matched)).

(** [key.split('.')] followed by the loop [value = value?.[k]]. *)
Definition walk (table : value) (key : string) : value :=
  fold_left get_member (Str.split "." key) table.

(** [params] is an object (the default [{}] included), given by its own
    properties. *)
Definition t (w : World) (key : string) (params : list (string * value)) : value :=
  let value := walk (translations w) key in
  match value with
  | VStr s => VStr (replace_all (replacer params) s)
  | _ => or_else value (VStr key)
  end.

(** A segment misses: at some step the value has no such own property and the
    host adds none. *)
Fixpoint misses (v : value) (segments : list string) : Prop :=
  match segments with
  | [] => False
  | k :: rest =>
      match own_member v k with
      | Some x => misses x rest
      | None => get_member v k = VUndefined
      end
  end.

End Lookup.

(** *** The resolver as the specification words it *)

(** Walking a table down a key path: each segment must be a key of the
    mapping reached so far. *)
Fixpoint lookup_path (table : value) (segments : list string) : option value :=
  match segments with
  | [] => Some table
  | k :: rest =>
      match table with
      | VObj fields =>
          match assoc k fields with
          | Some x => lookup_path x rest
          | None => None
          end
      | _ => None
      end
  end.

(** "a tree-shaped mapping from string keys to either nested mappings or
    leaf strings (leaf strings may themselves be arrays)": the values a
    translation table is built from. *)
Fixpoint is_table (v : value) : bool :=
  match v with
  | VStr _ => true
  | VArr elems => forallb is_table elems
  | VObj fields => forallb (fun field => is_table (snd field)) fields
  | VUndefined | VNull | VBool _ | VNum _ | VNative _ => false
  end.

(** "replace every [{{name}}] with [params[name]] if present, else leave the
    placeholder text intact" *)
Definition substitute_spec (ToString : value -> string)
  (params : list (string * value)) (s : string) : string :=
  replace_all
    (fun matched name =>
       match assoc name params with
       | Some v => js_to_string ToString v
       | None => matched
       end) s.

(** "if any segment is absent, returns keyPath itself; if the resolved value
    is a string, substitute; otherwise return it as-is" *)
Definition resolve_spec (ToString : value -> string) (table : value)
  (key : string) (params : list (string * value)) : value :=
  match lookup_path table (Str.split "." key) with
  | None => VStr key
  | Some (VStr s) => VStr (substitute_spec ToString params s)
  | Some v => v
  end.

(** "if the fetch for [lang] fails, fall back to loading the table for the
    default language": the fallback is taken for every [lang]. *)
Definition loadTranslations_spec (lang : string) : M World unit :=
  try_catch (fetch_table lang)
    (fun _ => console_error "Failed to load translations:" ;;
              try_catch (fetch_table "en")
                (fun _ => console_error "Failed to load translations:")).

(** The steps of the precedence after the URL and the stored choice: what
    the browser's language string matches, if anything. *)
Definition browser_match (browserLang : string) : option string :=
  let langLower := Str.toLowerCase browserLang in
  if Str.startsWith langLower "id" || Str.includes langLower "indonesia"
     || Str.includes langLower "bahasa" then Some "id"
  else if Str.startsWith langLower "ar" || Str.includes langLower "arabic"
          || Str.includes langLower "العربية" then Some "ar"
  else
    let primaryLang := Str.toLowerCase (primary_subtag browserLang) in
    if String.eqb primaryLang "id" then Some "id"
    else if String.eqb primaryLang "ar" then Some "ar"
    else None.

(** [navigator.language || navigator.userLanguage || ''] *)
Definition browser_language (w : World) : string :=
  str_or (navigator_language w) (str_or (navigator_userLanguage w) "").

(** *** The precedence as the specification words it *)

(** [x] names the supported language [l]. *)
Definition names (x : option string) (l : string) : Prop :=
  x = Some l /\ (l = "en" \/ l = "id" \/ l = "ar").

Definition names_none (x : option string) : Prop := forall l, ~ names x l.

(** A property of [navigator] that is absent or empty. *)
Definition unset (x : option string) : Prop := x = None \/ x = Some "".

(** "the browser's reported language/locale string": [navigator.language];
    [navigator.userLanguage] when that is unset; the empty string when both
    are. *)
Inductive reported (w : World) : string -> Prop :=
| reported_language s :
    navigator_language w = Some s -> s <> "" -> reported w s
| reported_userLanguage s :
    unset (navigator_language w) -> navigator_userLanguage w = Some s -> s <> "" ->
    reported w s
| reported_nothing :
    unset (navigator_language w) -> unset (navigator_userLanguage w) -> reported w "".

(** Lower-casing, character by character: an ASCII capital moves 32 places
    up, every other character stays. *)
Inductive lowered : string -> string -> Prop :=
| lowered_nil : lowered "" ""
| lowered_capital c s l :
    (65 <= nat_of_ascii c <= 90)%nat -> lowered s l ->
    lowered (String c s) (String (ascii_of_nat (nat_of_ascii c + 32)) l)
| lowered_other c s l :
    ~ (65 <= nat_of_ascii c <= 90)%nat -> lowered s l ->
    lowered (String c s) (String c l).

Definition has_prefix (p s : string) : Prop := exists rest, s = p ++ rest.

Definition contains (p s : string) : Prop :=
  exists before rest, s = before ++ p ++ rest.

Definition looks_indonesian (l : string) : Prop :=
  has_prefix "id" l \/ contains "indonesia" l \/ contains "bahasa" l.

Definition looks_arabic (l : string) : Prop :=
  has_prefix "ar" l \/ contains "arabic" l \/ contains "العربية" l.

(** Rule 3, "heuristic matching of the browser's reported language": what
    the reported string, lower-cased, looks like; Indonesian is tried
    first, English is never proposed. *)
Inductive browser_suggests (w : World) : string -> Prop :=
| suggests_id b l :
    reported w b -> lowered b l -> looks_indonesian l -> browser_suggests w "id"
| suggests_ar b l :
    reported w b -> lowered b l -> ~ looks_indonesian l -> looks_arabic l ->
    browser_suggests w "ar".

(** The stored choice, when the store lets it be read. *)
Definition stored (w : World) (saved : option string) : Prop :=
  getItem "tawazn-language" (storage w) = Normal saved.

(** The four rules; each applies only when those before it do not. *)
Inductive detected (w : World) : string -> Prop :=
| by_url l :
    names (location_lang w) l -> detected w l
| by_store saved l :
    names_none (location_lang w) -> stored w saved -> names saved l -> detected w l
| by_browser saved l :
    names_none (location_lang w) -> stored w saved -> names_none saved ->
    browser_suggests w l -> detected w l
| by_default saved :
    names_none (location_lang w) -> stored w saved -> names_none saved ->
    (forall l, ~ browser_suggests w l) -> detected w "id".

(** A text as literal stretches and placeholders. *)
Inductive piece : Type :=
| Lit (text : string)
| Hole (name : string).

Definition print_piece (p : piece) : string :=
  match p with
  | Lit text => text
  | Hole name => "{{" ++ name ++ "}}"
  end.

Definition print_template (tpl : list piece) : string :=
  fold_right (fun p acc => print_piece p ++ acc) "" tpl.

Fixpoint all_chars (p : ascii -> bool) (s : string) : bool :=
  match s with
  | EmptyString => true
  | String c r => p c && all_chars p r
  end.

Definition is_brace (c : ascii) : bool := Ascii.eqb c "{" || Ascii.eqb c "}".

Definition brace_free (s : string) : bool := all_chars (fun c => negb (is_brace c)) s.

(** No opening brace. *)
Definition no_open (s : string) : bool := all_chars (fun c => negb (Ascii.eqb c "{")) s.

Definition word_name (s : string) : bool :=
  negb (String.eqb s "") && all_chars is_word s.

(** The placeholder pattern matches at no offset of [s]. *)
Fixpoint match_free (s : string) : bool :=
  match match_at s with
  | Some _ => false
  | None =>
      match s with
      | EmptyString => true
      | String _ r => match_free r
      end
  end.

(** A template as the scan sees a text: placeholders named by non-empty
    words, between them literal stretches in which the pattern does not
    match, no two stretches in a row. *)
Fixpoint canonical (tpl : list piece) : bool :=
  match tpl with
  | [] => true
  | Hole name :: rest => word_name name && canonical rest
  | Lit text :: rest =>
      match_free text &&
      match rest with
      | Lit _ :: _ => false
      | _ => canonical rest
      end
  end.

(** What a placeholder becomes: [params[name]] as a string when [params]
    holds a truthy value under [name], the placeholder itself otherwise. *)
Definition fill (ToString : value -> string) (params : list (string * value))
  (name : string) : string :=
  match assoc name params with
  | Some v => if truthy v then js_to_string ToString v else "{{" ++ name ++ "}}"
  | None => "{{" ++ name ++ "}}"
  end.

(** The text with each placeholder [name] filled by [fill name]. *)
Definition render (fill : string -> string) (tpl : list piece) : string :=
  fold_right
    (fun p acc => match p with Lit text => text | Hole name => fill name end ++ acc)
    "" tpl.

(** *** Worked examples *)

(** A host that adds no property of its own, and a string conversion that is
    only ever asked about strings here. *)
Definition no_builtin : value -> string -> value := fun _ _ => VUndefined.
Definition plain_ToString : value -> string := fun _ => "".

Definition greetings : value :=
  VObj [("a", VObj [("b", VObj [("c", VStr "hi {{name}}")])]);
        ("note", VNull);
        ("raw", VStr "hi {{a-b}} and {{name}}");
        ("features", VObj [("cards", VArr [VStr "Focus"; VStr "Balance"])])].

Definition english : value := VObj [("meta", VObj [("title", VStr "Tawazn")])].

Definition features : value :=
  VObj [("features",
         VObj [("title", VStr "Features");
               ("cards", VArr [VStr "Focus"; VStr "Balance"])])].

(** A page opened with [?lang=url], a stored choice [saved], a browser that
    reports [browser], a network that serves [served], and [table] loaded. *)
Definition page (url saved : option string) (browser : string)
  (served : nat -> string -> option value) (table : value) : World :=
  {| storage := {| denied := false; quota_full := false;
                   items := match saved with
                            | Some l => [("tawazn-language", l)]
                            | None => []
                            end |};
     location_lang := url;
     navigator_language := Some browser;
     navigator_userLanguage := None;
     network := served; requests := 0; effects := []; console := [];
     currentLang := "id"; translations := table |}.

Definition offline : nat -> string -> option value := fun _ _ => None.

(** An older browser, which reports its language as [navigator.userLanguage]
    only; nothing in the URL, nothing stored. *)
Definition legacy_page (userLanguage : string) : World :=
  {| storage := {| denied := false; quota_full := false; items := [] |};
     location_lang := None;
     navigator_language := None;
     navigator_userLanguage := Some userLanguage;
     network := offline; requests := 0; effects := []; console := [];
     currentLang := "id"; translations := VObj [] |}.

(** A browser that refuses storage access and reports [browser]; nothing in
    the URL. *)
Definition private_page (browser : string) : World :=
  {| storage := {| denied := true; quota_full := false; items := [] |};
     location_lang := None;
     navigator_language := Some browser;
     navigator_userLanguage := None;
     network := offline; requests := 0; effects := []; console := [];
     currentLang := "id"; translations := VObj [] |}.

(** Only English is served. *)
Definition english_only : nat -> string -> option value :=
  fun _ url => if String.eqb url "translations/en.json" then Some english else None.

(** The first request is lost, later ones for English are served. *)
Definition flaky : nat -> string -> option value :=
  fun n url =>
    match n with
    | O => None
    | S _ => if String.eqb url "translations/en.json" then Some english else None
    end.

End I18n.

(** ** Regular expressions, as far as [validateEmail] needs them *)

Module Regex.

Local Open Scope string_scope.

(** Patterns built from character classes, sequence, choice and repetition. *)
Inductive regex : Type :=
| Never
| Eps
| Class (p : ascii -> bool)
| Seq (r1 r2 : regex)
| Alt (r1 r2 : regex)
| Star (r : regex).

(** [r+] *)
Definition Plus (r : regex) : regex := Seq r (Star r).

(** Does [r] accept the empty text? *)
Fixpoint nullable (r : regex) : bool :=
  match r with
  | Never => false
  | Eps => true
  | Class _ => false
  | Seq r1 r2 => nullable r1 && nullable r2
  | Alt r1 r2 => nullable r1 || nullable r2
  | Star _ => true
  end.

(** What is left of [r] once [c] has been read. *)
Fixpoint after (c : ascii) (r : regex) : regex :=
  match r with
  | Never => Never
  | Eps => Never
  | Class p => if p c then Eps else Never
  | Seq r1 r2 =>
      if nullable r1 then Alt (Seq (after c r1) r2) (after c r2)
      else Seq (after c r1) r2
  | Alt r1 r2 => Alt (after c r1) (after c r2)
  | Star r1 => Seq (after c r1) (Star r1)
  end.

(** [/^r$/.test(s)]: the whole of [s] is read by [r]. *)
Fixpoint test (r : regex) (s : string) : bool :=
  match s with
  | EmptyString => nullable r
  | String c rest => test (after c r) rest
  end.

(** The texts a pattern denotes. *)
Inductive denotes : regex -> string -> Prop :=
| denotes_eps : denotes Eps ""
| denotes_class p c : p c = true -> denotes (Class p) (String c "")
| denotes_seq r1 r2 s1 s2 :
    denotes r1 s1 -> denotes r2 s2 -> denotes (Seq r1 r2) (s1 ++ s2)
| denotes_alt_l r1 r2 s : denotes r1 s -> denotes (Alt r1 r2) s
| denotes_alt_r r1 r2 s : denotes r2 s -> denotes (Alt r1 r2) s
| denotes_star_nil r : denotes (Star r) ""
| denotes_star_app r s1 s2 :
    denotes r s1 -> denotes (Star r) s2 -> denotes (Star r) (s1 ++ s2).

End Regex.

(** ** [src/js/form-handler.js]: validation, submission and error display *)

Module FormHandlerRest.

Import Js FormHandler.
Local Open Scope string_scope.

(** *** validateEmail (lines 202-205) *)

(** The class [\s] on ASCII text: tab, line feed, vertical tab, form feed,
    carriage return, space. *)
Definition is_space (c : ascii) : bool :=
  let n := nat_of_ascii c in
  ((9 <=? n) && (n <=? 13) || (n =? 32))%nat.

(** [[^\s@]] *)
Definition not_space_or_at (c : ascii) : bool :=
  negb (is_space c) && negb (Ascii.eqb c "@").

(** [/^[^\s@]+@[^\s@]+\.[^\s@]+$/] *)
Definition emailRegex : Regex.regex :=
  Regex.Seq (Regex.Plus (Regex.Class not_space_or_at))
    (Regex.Seq (Regex.Class (Ascii.eqb "@"))
       (Regex.Seq (Regex.Plus (Regex.Class not_space_or_at))
          (Regex.Seq (Regex.Class (Ascii.eqb "."))
             (Regex.Plus (Regex.Class not_space_or_at))))).

Definition validateEmail (email : string) : bool := Regex.test emailRegex email.

(** Text on which the byte-wise reading of a string is the reading of
    JavaScript: every character is ASCII.  There a character is one UTF-16
    unit, so [String.length] is [.length], and the blanks of [\s] and of
    [trim] are the six of [is_space]. *)
Definition ascii_text (s : string) : bool :=
  I18n.all_chars (fun c => (nat_of_ascii c <? 128)%nat) s.

(** A non-empty run of characters that are neither blank nor [@]. *)
Definition token (s : string) : Prop :=
  s <> "" /\ I18n.all_chars not_space_or_at s = true.

(** *** The page around the handler *)

(** [s.trim()] on ASCII text: the blanks stripped are those of [is_space].
    (On other text [trim] also strips the Unicode spaces; the model does
    not.) *)
Fixpoint trim_start (s : string) : string :=
  match s with
  | String c r => if is_space c then trim_start r else s
  | EmptyString => EmptyString
  end.

Fixpoint trim_end (s : string) : string :=
  match s with
  | EmptyString => EmptyString
  | String c r =>
      if is_space c && String.eqb (trim_end r) "" then EmptyString
      else String c (trim_end r)
  end.

Definition trim (s : string) : string := trim_end (trim_start s).

Inductive which_form : Type :=
| Capsule      (* #capsuleForm *)
| Waitlist.    (* #waitlistForm *)

(** The payload of a submission (the [type] field is the constructor). *)
Inductive submission : Type :=
| TimeCapsule (name email resolution timestamp deliveryDate : string)
| WaitlistEntry (email timestamp : string).

(** What the handler does to the page, in order.  Repaints are kept as
    marks with their arguments. *)
Inductive mark : Type :=
| Loading (form : which_form) (text : string)  (* setLoading: text set, button disabled *)
| FormDisabled (disabled : bool)               (* disableForm(this.form, disabled) *)
| ErrorModal (text : value)                    (* #errorMessage set, modal shown *)
| InlineError (text : value)                   (* createInlineError *)
| RateLimitedButton (form : which_form)        (* button text and disabled = true *)
| SuccessModal (name : string)                 (* showSuccess *)
| WaitlistSuccess                              (* showWaitlistSuccess *)
| FormReset.                                   (* this.form.reset() *)

(** The page as the handler sees it.  A form that is present has its submit
    button and its fields.  What the handlers do with the field values --
    [trim], [.length], [validateEmail] -- is modelled on ASCII text; the
    theorems about them say so (see [capsule_fields_ascii]). *)
Record Page : Type := {
  gate : World;                          (* storage, clock, timers, console *)
  i18n_t : option (string -> value);     (* window.i18n.t, when window.i18n is set *)
  has_capsule_form : bool;               (* this.form *)
  has_waitlist_form : bool;              (* this.waitlistForm *)
  has_success_modal : bool;              (* this.successModal *)
  has_error_modal : bool;                (* #errorModal and #errorMessage *)
  name_value : string;                   (* #name.value *)
  email_value : string;                  (* #email.value *)
  resolution_value : string;             (* #resolution.value *)
  waitlist_email_value : string;         (* the waitlist form's email input *)
  capsule_button_html : string;          (* submitButton.innerHTML at the event *)
  waitlist_button_html : string;
  post_outcome : nat -> option string;   (* the n-th POST: resolves, or rejects
                                            with an error of that message *)
  posts : list (string * submission);    (* the POSTs made: URL and payload *)
  marks : list mark
}.

Definition set_gate (g : World) (p : Page) : Page :=
  {| gate := g; i18n_t := i18n_t p; has_capsule_form := has_capsule_form p;
     has_waitlist_form := has_waitlist_form p; has_success_modal := has_success_modal p;
     has_error_modal := has_error_modal p; name_value := name_value p;
     email_value := email_value p; resolution_value := resolution_value p;
     waitlist_email_value := waitlist_email_value p;
     capsule_button_html := capsule_button_html p;
     waitlist_button_html := waitlist_button_html p;
     post_outcome := post_outcome p; posts := posts p; marks := marks p |}.

Definition add_mark (m : mark) (p : Page) : Page :=
  {| gate := gate p; i18n_t := i18n_t p; has_capsule_form := has_capsule_form p;
     has_waitlist_form := has_waitlist_form p; has_success_modal := has_success_modal p;
     has_error_modal := has_error_modal p; name_value := name_value p;
     email_value := email_value p; resolution_value := resolution_value p;
     waitlist_email_value := waitlist_email_value p;
     capsule_button_html := capsule_button_html p;
     waitlist_button_html := waitlist_button_html p;
     post_outcome := post_outcome p; posts := posts p; marks := marks p ++ [m] |}.

Definition add_post (url : string) (data : submission) (p : Page) : Page :=
  {| gate := gate p; i18n_t := i18n_t p; has_capsule_form := has_capsule_form p;
     has_waitlist_form := has_waitlist_form p; has_success_modal := has_success_modal p;
     has_error_modal := has_error_modal p; name_value := name_value p;
     email_value := email_value p; resolution_value := resolution_value p;
     waitlist_email_value := waitlist_email_value p;
     capsule_button_html := capsule_button_html p;
     waitlist_button_html := waitlist_button_html p;
     post_outcome := post_outcome p; posts := posts p ++ [(url, data)];
     marks := marks p |}.

(** *** Exceptions with a message *)

(** What a [catch] block of the handler can receive: an exception of the
    host, or [new Error(message)]. *)
Inductive exn : Type :=
| Native (e : error)
| UserError (message : string).

(** [Stuck] is what [Exhausted] is to the gate: an unrolling bound reached. *)
Inductive outcome (A : Type) : Type :=
| Done (a : A)
| Raise (x : exn)
| Stuck.

Arguments Done {A} a.
Arguments Raise {A} x.
Arguments Stuck {A}.

Definition PM (A : Type) : Type := Page -> outcome A * Page.

Definition pret {A} (a : A) : PM A := fun p => (Done a, p).

Definition pbind {A B} (m : PM A) (k : A -> PM B) : PM B :=
  fun p =>
    match m p with
    | (Done a, p') => k a p'
    | (Raise x, p') => (Raise x, p')
    | (Stuck, p') => (Stuck, p')
    end.

Definition praise {A} (x : exn) : PM A := fun p => (Raise x, p).

Definition pget : PM Page := fun p => (Done p, p).

Definition pmodify (f : Page -> Page) : PM unit := fun p => (Done tt, f p).

(** [try { body } catch (e) { handler e } finally { final }] *)
Definition try_catch_finally {A} (body : PM A) (handler : exn -> PM A)
  (final : PM unit) : PM A :=
  fun p =>
    let '(r, p1) :=
      match body p with
      | (Raise x, p') => handler x p'
      | other => other
      end in
    match r with
    | Stuck => (Stuck, p1)
    | _ =>
        match final p1 with
        | (Done _, p2) => (r, p2)
        | (Raise x, p2) => (Raise x, p2)
        | (Stuck, p2) => (Stuck, p2)
        end
    end.

(** [try { body } catch (e) { handler e }] *)
Definition ptry_catch {A} (body : PM A) (handler : exn -> PM A) : PM A :=
  fun p =>
    match body p with
    | (Raise x, p') => handler x p'
    | other => other
    end.

(** A method of the gate run on the page. *)
Definition lift {A} (m : M World A) : PM A :=
  fun p =>
    match m (gate p) with
    | (Normal a, g) => (Done a, set_gate g p)
    | (Throw e, g) => (Raise (Native e), set_gate g p)
    | (Exhausted, g) => (Stuck, set_gate g p)
    end.

Declare Scope page_scope.
Delimit Scope page_scope with page.
Notation "x <- m ;; k" := (pbind m (fun x => k))
  (at level 61, m at next level, right associativity) : page_scope.
Notation "m ;; k" := (pbind m (fun _ => k))
  (at level 61, right associativity) : page_scope.

Local Open Scope page_scope.

Definition page_console (msg : string) : PM unit := lift (console_error msg).

(** [{ success, error, errorType }] as [submitToGoogleScript] returns it. *)
Record response : Type := {
  success : bool;
  error_text : option value;     (* response.error *)
  errorType : option string      (* response.errorType *)
}.

Section Handlers.

Variable JSON_parse : string -> option logval.
Variable JSON_stringify : list Z -> string.
Variable config : option Config.

(** The host: built-in properties of an object literal, the message of a
    host exception, [Date.prototype.toISOString]. *)
Variable builtin : value -> string -> value.
Variable native_message : error -> string.
Variable toISOString : Z -> string.

(** [error.message] *)
Definition message_of (x : exn) : string :=
  match x with
  | Native e => native_message e
  | UserError message => message
  end.

(** *** getErrorMessage (lines 248-265) *)

Definition fallbackMessages : list (string * value) :=
  [("networkError", VStr "Network error. Please check your connection and try again.");
   ("validationError", VStr "Please fill in all required fields correctly.");
   ("rateLimitError", VStr "Too many submission attempts. Please try again later.");
   ("serverError", VStr "Server error. Please try again in a few moments.");
   ("unknownError", VStr "Something went wrong. Please try again.")].

Definition getErrorMessage (errorType : string) : PM value :=
  p <- pget ;;
  match i18n_t p with
  | Some t =>
      pret (or_else (t ("errorModal." ++ errorType)%string) (t "errorModal.unknownError"%string))
  | None =>
      pret (or_else (I18n.get_member builtin (VObj fallbackMessages) errorType)
                    (VStr "Something went wrong. Please try again."))
  end.

(** *** showError (lines 607-645) and createInlineError (lines 647-679) *)

Definition showError (message : value) (errorType : string) : PM unit :=
  p <- pget ;;
  let errorMessage :=
    match i18n_t p with
    | Some t => or_else (t ("errorModal." ++ errorType)%string) message
    | None => message
    end in
  if has_error_modal p then
    pmodify (add_mark (ErrorModal errorMessage))
  else
    page_console "Form Error:" ;;
    pmodify (add_mark (InlineError errorMessage)) ;;
    lift createInlineError.

(** *** showRateLimitError (lines 398-418) *)

(** [this.config?.RATE_LIMIT?.BLOCK_MESSAGE || 'Too many ...'] *)
Definition block_message : string :=
  match rate_limit config with
  | Some rl =>
      if String.eqb (BLOCK_MESSAGE rl) "" then
        "Too many submission attempts. Please try again later."%string
      else BLOCK_MESSAGE rl
  | None => "Too many submission attempts. Please try again later."%string
  end.

Definition showRateLimitError : PM unit :=
  let message := block_message in
  showError (VStr message) "rateLimitError" ;;
  p <- pget ;;
  (if has_capsule_form p then pmodify (add_mark (RateLimitedButton Capsule)) else pret tt) ;;
  (if has_waitlist_form p then pmodify (add_mark (RateLimitedButton Waitlist)) else pret tt).

(** *** validateFormData (lines 183-200)

    [.length] is [String.length], which is right on ASCII text. *)

Definition validateFormData (name email resolution : string) : PM bool :=
  if String.eqb name "" || (String.length name <? 2)%nat then
    showError (VStr "Please enter your name (at least 2 characters).") "validationError" ;;
    pret false
  else if negb (validateEmail email) then
    showError (VStr "Please enter a valid email address.") "validationError" ;;
    pret false
  else if String.eqb resolution "" || (String.length resolution <? 10)%nat then
    showError (VStr "Please write a more detailed resolution (at least 10 characters).")
              "validationError" ;;
    pret false
  else pret true.

(** *** submitToGoogleScript (lines 207-246)

    The class body declares the method twice; the later declaration, this
    one, is the method of the class. *)

(** [this.config?.GOOGLE_SCRIPT_URL], when truthy. *)
Definition script_url : option string :=
  match config with
  | Some c =>
      match GOOGLE_SCRIPT_URL c with
      | Some (String a r) => Some (String a r)
      | Some EmptyString | None => None
      end
  | None => None
  end.

(** The [if]/[else if] chain on [error.message] of the [catch] block. *)
Definition classify_rejection (message : string) : string :=
  if negb (String.eqb message "") && Str.includes message "fetch" then "networkError"
  else if negb (String.eqb message "") && Str.includes message "Failed to fetch"
  then "networkError"
  else if negb (String.eqb message "") && Str.includes message "NetworkError"
  then "networkError"
  else "serverError".

Definition submitToGoogleScript (data : submission) : PM response :=
  match script_url with
  | None =>
      page_console "Google Script URL not configured. Using fallback mode." ;;
      pret {| success := true; error_text := None; errorType := None |}
  | Some url =>
      p <- pget ;;
      pmodify (add_post url data) ;;
      match post_outcome p (List.length (posts p)) with
      | None => pret {| success := true; error_text := None; errorType := None |}
      | Some message =>
          page_console "Google Script submission error:" ;;
          let errorType := classify_rejection message in
          text <- getErrorMessage errorType ;;
          pret {| success := false; error_text := Some text; errorType := Some errorType |}
      end
  end.

(** *** showSuccess (lines 279-301), showWaitlistSuccess (lines 303-314) *)

Definition showSuccess (name : string) : PM unit :=
  p <- pget ;;
  if has_success_modal p then pmodify (add_mark (SuccessModal name)) else pret tt.

Definition showWaitlistSuccess : PM unit :=
  pmodify (add_mark WaitlistSuccess) ;;
  page_console "Waitlist submission successful".

(** The [if]/[else if] on [error.message] in the [catch] blocks of the two
    submit handlers. *)
Definition classify_caught (message : string) : string :=
  if negb (String.eqb message "") && Str.includes message "fetch" then "networkError"
  else if negb (String.eqb message "") && Str.includes message "NetworkError"
  then "networkError"
  else "unknownError".

(** [x || fallback] on a string. *)
Definition str_or_else (x fallback : string) : string :=
  if String.eqb x "" then fallback else x.

(** [response.error || fallback] *)
Definition error_or_else (x : option value) (fallback : string) : value :=
  match x with
  | Some v => or_else v (VStr fallback)
  | None => VStr fallback
  end.

(** [this.config?.DELIVERY_DATE || '2027-01-01'] *)
Definition delivery_date : string :=
  match config with
  | Some c =>
      match DELIVERY_DATE c with
      | Some d => str_or_else d "2027-01-01"
      | None => "2027-01-01"%string
      end
  | None => "2027-01-01"%string
  end.

(** *** handleTimeCapsuleSubmit (lines 29-93) *)

Definition handleTimeCapsuleSubmit (depth : nat) : PM unit :=
  allowed <- lift (canSubmit JSON_parse config) ;;
  if negb allowed then showRateLimitError
  else
    p <- pget ;;
    if negb (has_capsule_form p) then praise (Native TypeError)
    else
      let originalText := capsule_button_html p in
      try_catch_finally
        (pmodify (add_mark (Loading Capsule "📤 Sending...")) ;;
         pmodify (add_mark (FormDisabled true)) ;;
         q <- pget ;;
         let name := trim (name_value q) in
         let email := trim (email_value q) in
         let resolution := trim (resolution_value q) in
         now <- lift Date_now ;;
         let formData :=
           TimeCapsule name email resolution (toISOString now) delivery_date in
         valid <- validateFormData name email resolution ;;
         (if negb valid
          then praise (UserError "Please fill in all required fields correctly.")
          else pret tt) ;;
         response <- submitToGoogleScript formData ;;
         if success response then
           lift (recordSubmission JSON_parse JSON_stringify config depth) ;;
           showSuccess name ;;
           pmodify (add_mark FormReset)
         else
           let errorType :=
             match errorType response with
             | Some e => str_or_else e "serverError"
             | None => "serverError"%string
             end in
           showError (error_or_else (error_text response)
                                    "Failed to submit form. Please try again.")
                     errorType)
        (fun error =>
           page_console "Form submission error:" ;;
           let errorType := classify_caught (message_of error) in
           showError (VStr (str_or_else (message_of error) "An unexpected error occurred."))
                     errorType)
        (pmodify (add_mark (Loading Capsule originalText)) ;;
         pmodify (add_mark (FormDisabled false))).

(** *** handleWaitlistSubmit (lines 95-152) *)

Definition handleWaitlistSubmit (depth : nat) : PM unit :=
  allowed <- lift (canSubmit JSON_parse config) ;;
  if negb allowed then showRateLimitError
  else
    p <- pget ;;
    if negb (has_waitlist_form p) then praise (Native TypeError)
    else
      let originalText := waitlist_button_html p in
      ptry_catch
        (pmodify (add_mark (Loading Waitlist "📤 Adding...")) ;;
         q <- pget ;;
         let email := trim (waitlist_email_value q) in
         now <- lift Date_now ;;
         let formData := WaitlistEntry email (toISOString now) in
         (if negb (validateEmail email)
          then praise (UserError "Please enter a valid email address.")
          else pret tt) ;;
         response <- submitToGoogleScript formData ;;
         if success response then
           lift (recordSubmission JSON_parse JSON_stringify config depth) ;;
           showWaitlistSuccess
         else
           let errorType :=
             match errorType response with
             | Some e => str_or_else e "serverError"
             | None => "serverError"%string
             end in
           showError (error_or_else (error_text response)
                                    "Failed to join waitlist. Please try again.")
                     errorType)
        (fun error =>
           page_console "Waitlist submission error:" ;;
           let errorType := classify_caught (message_of error) in
           showError (VStr (str_or_else (message_of error) "An unexpected error occurred."))
                     errorType ;;
           pmodify (add_mark (Loading Waitlist originalText))).

(** *** getNextResetTime (lines 586-605) *)

Definition getNextResetTime : M World (option Z) :=
  match rate_limit config with
  | None => ret None
  | Some rl =>
      bind (getSubmissionAttempts JSON_parse config) (fun attempts =>
      let windowHours := ATTEMPT_WINDOW_HOURS rl in
      bind Date_now (fun now =>
      let windowStart := (now - windowHours * 60 * 60 * 1000)%Z in
      bind (array_filter (fun timestamp => (timestamp >? windowStart)%Z) attempts)
        (fun recentAttempts =>
      match recentAttempts with
      | [] => ret None
      | x :: xs => ret (Some (Math_min x xs + windowHours * 60 * 60 * 1000)%Z)
      end)))
  end.

End Handlers.

(** The fields of the time-capsule form hold ASCII text. *)
Definition capsule_fields_ascii (p : Page) : bool :=
  ascii_text (name_value p) && ascii_text (email_value p)
  && ascii_text (resolution_value p).

(** *** Pages the methods lead to *)

(** The text [showError] puts on the page: the translation of
    [errorModal.<type>] when [window.i18n] is there and gives a truthy one,
    the caller's message otherwise. *)
Definition displayed (p : Page) (message : value) (errorType : string) : value :=
  match i18n_t p with
  | Some t => or_else (t ("errorModal." ++ errorType)) message
  | None => message
  end.

(** The mark an error leaves: in the modal when the page has one, inline
    otherwise. *)
Definition error_mark (p : Page) (text : value) : mark :=
  if has_error_modal p then ErrorModal text else InlineError text.

(** The page after [showError] has put [text] on it: without a modal the
    console gets a line and the inline error its auto-hide timer. *)
Definition error_shown (text : value) (p : Page) : Page :=
  {| gate := if has_error_modal p then gate p
             else snd (createInlineError (log_console "Form Error:" (gate p)));
     i18n_t := i18n_t p; has_capsule_form := has_capsule_form p;
     has_waitlist_form := has_waitlist_form p; has_success_modal := has_success_modal p;
     has_error_modal := has_error_modal p; name_value := name_value p;
     email_value := email_value p; resolution_value := resolution_value p;
     waitlist_email_value := waitlist_email_value p;
     capsule_button_html := capsule_button_html p;
     waitlist_button_html := waitlist_button_html p;
     post_outcome := post_outcome p; posts := posts p;
     marks := marks p ++ [error_mark p text] |}.

(** The buttons [showRateLimitError] relabels. *)
Definition rate_limited_buttons (p : Page) : list mark :=
  (if has_capsule_form p then [RateLimitedButton Capsule] else [])
  ++ (if has_waitlist_form p then [RateLimitedButton Waitlist] else []).

(** The three checks of [validateFormData] on ASCII text, and the message
    of the first that fails. *)
Definition valid_fields (name email resolution : string) : bool :=
  (2 <=? String.length name)%nat && validateEmail email
  && (10 <=? String.length resolution)%nat.

Definition validation_message (name email : string) : string :=
  if (String.length name <? 2)%nat then
    "Please enter your name (at least 2 characters)."
  else if negb (validateEmail email) then "Please enter a valid email address."
  else "Please write a more detailed resolution (at least 10 characters).".

(** What [getErrorMessage] returns on a page. *)
Definition error_message (builtin : value -> string -> value) (p : Page)
  (errorType : string) : value :=
  match i18n_t p with
  | Some t => or_else (t ("errorModal." ++ errorType)) (t "errorModal.unknownError")
  | None =>
      or_else (I18n.get_member builtin (VObj fallbackMessages) errorType)
              (VStr "Something went wrong. Please try again.")
  end.

(** What [submitToGoogleScript] returns when the POST rejects with
    [message]. *)
Definition rejected (builtin : value -> string -> value) (p : Page)
  (message : string) : response :=
  {| success := false;
     error_text := Some (error_message builtin p (classify_rejection message));
     errorType := Some (classify_rejection message) |}.

(** *** Worked examples: a page with both forms *)

(** A host whose exceptions carry their name as message, and a stand-in for
    [toISOString] that prints the milliseconds. *)
Definition native_name (e : error) : string :=
  match e with
  | SecurityError => "SecurityError"
  | QuotaExceededError => "QuotaExceededError"
  | SyntaxError => "SyntaxError"
  | TypeError => "TypeError"
  | NetworkError => "NetworkError"
  end.

Definition stamp_text (z : Z) : string := string_of_Z z.

Definition script_config (rl : RateLimit) : option Config :=
  Some {| GOOGLE_SCRIPT_URL := Some "https://script.example/exec";
          DELIVERY_DATE := None; RATE_LIMIT := Some rl |}.

(** A page without [window.i18n], with both forms and both modals, on a
    browser [g]; every POST has the outcome [outcome]. *)
Definition landing_page (g : World) (name email resolution : string)
  (outcome : option string) : Page :=
  {| gate := g; i18n_t := None;
     has_capsule_form := true; has_waitlist_form := true;
     has_success_modal := true; has_error_modal := true;
     name_value := name; email_value := email; resolution_value := resolution;
     waitlist_email_value := email;
     capsule_button_html := "Seal my resolution";
     waitlist_button_html := "Join the waitlist";
     post_outcome := fun _ => outcome; posts := []; marks := [] |}.

(** The page once [window.i18n] is set, [t] being its method [t]. *)
Definition with_i18n (t : string -> value) (p : Page) : Page :=
  {| gate := gate p; i18n_t := Some t; has_capsule_form := has_capsule_form p;
     has_waitlist_form := has_waitlist_form p; has_success_modal := has_success_modal p;
     has_error_modal := has_error_modal p; name_value := name_value p;
     email_value := email_value p; resolution_value := resolution_value p;
     waitlist_email_value := waitlist_email_value p;
     capsule_button_html := capsule_button_html p;
     waitlist_button_html := waitlist_button_html p;
     post_outcome := post_outcome p; posts := posts p; marks := marks p |}.

End FormHandlerRest.

(** ** [src/i18n.js]: the name of a language *)

Module I18nRest.

Import Js I18n.
Local Open Scope string_scope.

(** [s.toUpperCase()]: ASCII letters only, as for [toLowerCase]. *)
Definition is_lower (c : ascii) : bool :=
  let n := nat_of_ascii c in ((97 <=? n) && (n <=? 122))%nat.

Definition upper_char (c : ascii) : ascii :=
  if is_lower c then ascii_of_nat (nat_of_ascii c - 32) else c.

Fixpoint toUpperCase (s : string) : string :=
  match s with
  | EmptyString => EmptyString
  | String c r => String (upper_char c) (toUpperCase r)
  end.

Section Names.

Variable builtin : value -> string -> value.
Variable ToString : value -> string.

(** getLanguageName (lines 524-526) *)
Definition getLanguageName (w : World) (lang : string) : value :=
  or_else (t builtin ToString w ("languages." ++ lang ++ ".short") [])
          (VStr (toUpperCase lang)).

End Names.

End I18nRest.

(** * Properties *)

Unset Implicit Arguments.

(** ** Strings *)

Module StrFacts.

Import Str.
Local Open Scope string_scope.

Lemma append_nil_r (s : string) : s ++ "" = s.
Proof. induction s as [|c s IH]; simpl; [reflexivity | now rewrite IH]. Qed.

Lemma append_assoc (a b c : string) : (a ++ b) ++ c = a ++ (b ++ c).
Proof. induction a as [|x a IH]; simpl; [reflexivity | now rewrite IH]. Qed.

Lemma length_append (a b : string) :
  String.length (a ++ b) = String.length a + String.length b.
Proof. induction a as [|x a IH]; simpl; [reflexivity | now rewrite IH]. Qed.

Lemma strip_prefix_Some (p s r : string) :
  strip_prefix p s = Some r <-> s = p ++ r.
Proof.
  revert s; induction p as [|a p IH]; intros s; simpl.
  - split; congruence.
  - destruct s as [|b s]; [split; discriminate|].
    destruct (Ascii.eqb_spec a b) as [->|Hne].
    + rewrite IH. split; congruence.
    + split; [discriminate | congruence].
Qed.

Lemma strip_prefix_app (p r : string) : strip_prefix p (p ++ r) = Some r.
Proof. now apply strip_prefix_Some. Qed.

Lemma startsWith_app (p r : string) : startsWith (p ++ r) p = true.
Proof. unfold startsWith. now rewrite strip_prefix_app. Qed.

Lemma toLowerCase_app (a b : string) :
  toLowerCase (a ++ b) = toLowerCase a ++ toLowerCase b.
Proof. induction a as [|c a IH]; cbn; [reflexivity | now rewrite IH]. Qed.

(** The first piece of a split is a prefix of the text. *)
Lemma split_head (sep : ascii) (s : string) :
  exists rest, s = hd "" (split sep s) ++ rest.
Proof.
  induction s as [|c r [rest IH]]; cbn [split]; [exists ""; reflexivity|].
  destruct (Ascii.eqb c sep); [exists (String c r); reflexivity|].
  destruct (split sep r) as [|piece pieces]; cbn [hd] in *.
  - exists r. reflexivity.
  - exists rest. cbn. now rewrite <- IH.
Qed.

Lemma append_empty (a b : string) : a ++ b = "" -> a = "" /\ b = "".
Proof. destruct a; [cbn; auto | discriminate]. Qed.

Lemma startsWith_iff (s p : string) :
  startsWith s p = true <-> exists rest, s = p ++ rest.
Proof.
  unfold startsWith. split.
  - destruct (strip_prefix p s) as [r|] eqn:E; [|discriminate].
    intros _. exists r. apply strip_prefix_Some, E.
  - intros [rest ->]. rewrite strip_prefix_app. reflexivity.
Qed.

Lemma includes_iff (s p : string) :
  includes s p = true <-> exists pre post, s = pre ++ p ++ post.
Proof.
  induction s as [|c s IH]; cbn [includes]; rewrite orb_true_iff.
  - split.
    + intros [H | H]; [|discriminate H].
      apply startsWith_iff in H as [r H]. exists "", r. exact H.
    + intros (pre & post & H). left. symmetry in H.
      apply append_empty in H as [-> H]. apply append_empty in H as [-> ->]. reflexivity.
  - split.
    + intros [H | H].
      * apply startsWith_iff in H as [r H]. exists "", r. exact H.
      * apply IH in H as (pre & post & ->). exists (String c pre), post. reflexivity.
    + intros ([|c' pre] & post & H).
      * left. cbn [append] in H. rewrite H. apply startsWith_app.
      * right. apply IH. injection H as _ ->. eauto.
Qed.

Lemma includes_suffix (s a b : string) :
  includes s (a ++ b) = true -> includes s b = true.
Proof.
  rewrite !includes_iff. intros (pre & post & ->).
  exists (pre ++ a), post. rewrite !append_assoc. reflexivity.
Qed.

End StrFacts.

(** ** The store *)

Module JsFacts.

Import Js.

Lemma assoc_remove_key_eq {V} (k : string) (l : list (string * V)) :
  assoc k (remove_key k l) = None.
Proof.
  induction l as [|[k' v] l IH]; simpl; [reflexivity|].
  destruct (String.eqb k' k) eqn:E; [exact IH|]. simpl. now rewrite E.
Qed.

Lemma assoc_remove_key_ne {V} (k k0 : string) (l : list (string * V)) :
  k0 <> k -> assoc k (remove_key k0 l) = assoc k l.
Proof.
  intros Hne. induction l as [|[k' v] l IH]; simpl; [reflexivity|].
  destruct (String.eqb k' k0) eqn:E0.
  - apply String.eqb_eq in E0. subst k'.
    destruct (String.eqb k0 k) eqn:E; [apply String.eqb_eq in E; congruence | exact IH].
  - simpl. now rewrite IH.
Qed.

Section Preservation.

Context {W : Type} (P : W -> Prop).

Lemma preserves_ret {A} (a : A) : preserves P (ret a).
Proof. intros w Hw. exact Hw. Qed.

Lemma preserves_throw {A} (e : error) : preserves P (throw (A := A) e).
Proof. intros w Hw. exact Hw. Qed.

Lemma preserves_exhausted {A} : preserves P (exhausted (A := A)).
Proof. intros w Hw. exact Hw. Qed.

Lemma preserves_get : preserves P get.
Proof. intros w Hw. exact Hw. Qed.

Lemma preserves_modify (f : W -> W) :
  (forall w, P w -> P (f w)) -> preserves P (modify f).
Proof. intros Hf w Hw. apply Hf, Hw. Qed.

Lemma preserves_bind {A B} (m : M W A) (k : A -> M W B) :
  preserves P m -> (forall a, preserves P (k a)) -> preserves P (bind m k).
Proof.
  intros Hm Hk w Hw. unfold bind. specialize (Hm w Hw).
  destruct (m w) as [[a | e |] w']; cbn in *; [apply Hk|..]; exact Hm.
Qed.

Lemma preserves_try_catch {A} (body : M W A) (handler : error -> M W A) :
  preserves P body -> (forall e, preserves P (handler e)) ->
  preserves P (try_catch body handler).
Proof.
  intros Hb Hh w Hw. unfold try_catch. specialize (Hb w Hw).
  destruct (body w) as [[a | e |] w']; cbn in *; [|apply Hh|]; exact Hb.
Qed.

End Preservation.

End JsFacts.

(** ** The submission gate *)

Module FormHandlerFacts.

Import Js FormHandler JsFacts.
Local Open Scope Z_scope.

Ltac run_monad :=
  unfold bind, ret, throw, get, modify, try_catch, exhausted,
         console_error, console_log, Date_now, localStorage_getItem,
         localStorage_setItem, localStorage_removeItem, updateRateLimitDisplay,
         array_filter in *.

Section Gate.

Variable JSON_parse : string -> option logval.
Variable JSON_stringify : list Z -> string.
Variable config : option Config.

Local Abbreviation getSubmissionAttempts := (getSubmissionAttempts JSON_parse config).
Local Abbreviation saveSubmissionAttempts := (saveSubmissionAttempts JSON_stringify config).
Local Abbreviation canSubmit := (canSubmit JSON_parse config).
Local Abbreviation check := (checkAndUpdateRateLimitDisplay JSON_parse config).
Local Abbreviation recordSubmission := (recordSubmission JSON_parse JSON_stringify config).

(** What the read of the log comes to, case by case. *)
Lemma getSubmissionAttempts_read (rl : RateLimit) (w : World) :
  rate_limit config = Some rl ->
  getSubmissionAttempts w =
    if denied (storage w) then
      (Normal (LStamps []), log_console "Error reading submission attempts:" w)
    else
      match assoc (STORAGE_KEY rl) (items (storage w)) with
      | None => (Normal (LStamps []), w)
      | Some EmptyString => (Normal (LStamps []), w)
      | Some text =>
          match JSON_parse text with
          | Some v => (Normal v, w)
          | None =>
              (Normal (LStamps []), log_console "Error reading submission attempts:" w)
          end
      end.
Proof.
  intros Hrl. unfold FormHandler.getSubmissionAttempts. rewrite Hrl.
  run_monad. unfold getItem.
  destruct (denied (storage w)); [reflexivity|].
  destruct (assoc (STORAGE_KEY rl) (items (storage w))) as [[|c text]|]; try reflexivity.
  destruct (JSON_parse (String c text)); reflexivity.
Qed.

(** The read never throws, and it leaves the world alone but for a console
    line. *)
Lemma getSubmissionAttempts_returns (w : World) :
  exists v w', getSubmissionAttempts w = (Normal v, w') /\
               (w' = w \/ w' = log_console "Error reading submission attempts:" w).
Proof.
  destruct (rate_limit config) as [rl|] eqn:Hrl.
  - rewrite (getSubmissionAttempts_read rl w Hrl).
    destruct (denied (storage w)); [eauto|].
    destruct (assoc (STORAGE_KEY rl) (items (storage w))) as [[|c text]|]; eauto.
    destruct (JSON_parse (String c text)); eauto.
  - unfold FormHandler.getSubmissionAttempts. rewrite Hrl. unfold ret. eauto.
Qed.

(** [canSubmit] in one equation, given what the read returned. *)
Lemma canSubmit_eq (rl : RateLimit) (w w1 : World) (l : list Z) :
  rate_limit config = Some rl ->
  getSubmissionAttempts w = (Normal (LStamps l), w1) ->
  canSubmit w =
    (Normal (Z.of_nat (List.length (recent rl (clock w (reads w)) l))
             <? MAX_ATTEMPTS_PER_HOUR rl),
     tick w1).
Proof.
  intros Hrl Hget.
  destruct (getSubmissionAttempts_returns w) as (v & w' & Hget' & Hw').
  rewrite Hget in Hget'. injection Hget' as <- <-.
  unfold FormHandler.canSubmit. rewrite Hrl. unfold bind at 1. rewrite Hget.
  run_monad. unfold recent.
  destruct Hw' as [-> | ->]; reflexivity.
Qed.

(** The read changes nothing the gate looks at. *)
Lemma getSubmissionAttempts_frame (w w1 : World) (v : logval) :
  getSubmissionAttempts w = (Normal v, w1) ->
  storage w1 = storage w /\ clock w1 = clock w /\ reads w1 = reads w /\
  timers w1 = timers w /\ next_timer w1 = next_timer w /\ ui w1 = ui w /\
  resetTimeout w1 = resetTimeout w.
Proof.
  intros Hget.
  destruct (getSubmissionAttempts_returns w) as (v' & w' & Hget' & Hw').
  rewrite Hget in Hget'. injection Hget' as <- <-.
  destruct Hw' as [-> | ->]; repeat split; reflexivity.
Qed.

(** Once the log is gone from an accessible store, the display check shows a
    full allowance and schedules nothing, whatever its unrolling bound. *)
Lemma check_cleared (rl : RateLimit) (d : nat) (w : World) :
  rate_limit config = Some rl ->
  denied (storage w) = false ->
  assoc (STORAGE_KEY rl) (items (storage w)) = None ->
  check (S d) w =
    (Normal tt,
     log_ui (RateLimitDisplay (Z.max 0 (MAX_ATTEMPTS_PER_HOUR rl - 0))
                              (MAX_ATTEMPTS_PER_HOUR rl)) (tick w)).
Proof.
  intros Hrl Hden Hnone. cbn [checkAndUpdateRateLimitDisplay].
  unfold checkAndUpdateRateLimitDisplay_body. rewrite Hrl.
  unfold bind at 1. rewrite (getSubmissionAttempts_read rl w Hrl), Hden, Hnone.
  reflexivity.
Qed.

(** [resetRateLimit] either is refused by the store or runs to its end. *)
Lemma resetRateLimit_eq (rl : RateLimit) (d : nat) (w : World) :
  rate_limit config = Some rl ->
  resetRateLimit JSON_parse config (S d) w =
    if denied (storage w) then (Throw SecurityError, w)
    else (Normal tt, after_reset rl w).
Proof.
  intros Hrl. unfold resetRateLimit, resetRateLimit_body. rewrite Hrl.
  unfold bind at 1. unfold localStorage_removeItem, removeItem.
  destruct (denied (storage w)) eqn:Hden; [reflexivity|].
  unfold bind at 1. rewrite (check_cleared rl d).
  - unfold after_reset. rewrite Hden. reflexivity.
  - exact Hrl.
  - reflexivity.
  - cbn. apply assoc_remove_key_eq.
Qed.

(** [scheduleRateLimitReset]: an instant already reached resets at once,
    a later one replaces the pending timer. *)
Lemma scheduleRateLimitReset_body_eq (chk : M World unit) (resetTime : Z) (w : World) :
  scheduleRateLimitReset_body config chk resetTime w =
    if resetTime <=? clock w (reads w) then
      resetRateLimit_body config chk (tick w)
    else
      (Normal tt, after_schedule (resetTime - clock w (reads w)) (tick w)).
Proof.
  unfold scheduleRateLimitReset_body.
  unfold bind at 1. unfold Date_now.
  destruct (Z.leb_spec resetTime (clock w (reads w))) as [Hle | Hlt].
  - replace (Z.max 0 (resetTime - clock w (reads w)) <=? 0) with true
      by (symmetry; apply Z.leb_le; lia).
    reflexivity.
  - replace (Z.max 0 (resetTime - clock w (reads w)) <=? 0) with false
      by (symmetry; apply Z.leb_gt; lia).
    replace (Z.max 0 (resetTime - clock w (reads w))) with (resetTime - clock w (reads w))
      by lia.
    unfold after_schedule, cancel. run_monad. cbn.
    destruct (resetTimeout w); reflexivity.
Qed.

Lemma scheduleRateLimitReset_eq (d : nat) (resetTime : Z) (w : World) :
  scheduleRateLimitReset JSON_parse config (S d) resetTime w =
    if resetTime <=? clock w (reads w) then
      resetRateLimit JSON_parse config (S d) (tick w)
    else
      (Normal tt, after_schedule (resetTime - clock w (reads w)) (tick w)).
Proof. apply scheduleRateLimitReset_body_eq. Qed.

(** The display check in one equation, given what the read returned. *)
Lemma check_eq (rl : RateLimit) (d : nat) (w w1 : World) (l : list Z) :
  rate_limit config = Some rl ->
  getSubmissionAttempts w = (Normal (LStamps l), w1) ->
  check (S (S d)) w =
    let recentAttempts := recent rl (clock w (reads w)) l in
    let remaining :=
      Z.max 0 (MAX_ATTEMPTS_PER_HOUR rl - Z.of_nat (List.length recentAttempts)) in
    let w2 := log_ui (RateLimitDisplay remaining (MAX_ATTEMPTS_PER_HOUR rl)) (tick w1) in
    match recentAttempts with
    | x :: xs =>
        if remaining =? 0 then
          scheduleRateLimitReset JSON_parse config (S d)
            (Math_min x xs + ATTEMPT_WINDOW_HOURS rl * 60 * 60 * 1000) w2
        else (Normal tt, w2)
    | [] => (Normal tt, w2)
    end.
Proof.
  intros Hrl Hget.
  destruct (getSubmissionAttempts_frame _ _ _ Hget) as (_ & Hclock & Hreads & _).
  cbn [checkAndUpdateRateLimitDisplay]. unfold checkAndUpdateRateLimitDisplay_body at 1.
  rewrite Hrl. unfold bind at 1. rewrite Hget.
  unfold bind at 1. unfold Date_now at 1. rewrite Hclock, Hreads.
  unfold bind at 1. unfold array_filter, ret at 1.
  unfold bind at 1. unfold updateRateLimitDisplay, modify.
  unfold recent. cbv zeta.
  destruct (filter _ l) as [|x xs]; [reflexivity|].
  destruct (Z.max 0 _ =? 0); reflexivity.
Qed.

(** *** At most one reset pending *)

Lemma one_reset_pending_same (w w' : World) :
  timers w' = timers w -> resetTimeout w' = resetTimeout w ->
  one_reset_pending w -> one_reset_pending w'.
Proof.
  unfold one_reset_pending, reset_timers. intros -> ->. exact (fun H => H).
Qed.

(** What the display check, the scheduling and the reset preserve: any
    property that only looks at the store, the timers and [this.resetTimeout],
    and that survives the removal of a key and the queueing of a reset. *)
Section Frame.

Variable P : World -> Prop.

Hypothesis P_frame : forall w w',
  storage w' = storage w -> timers w' = timers w -> resetTimeout w' = resetTimeout w ->
  P w -> P w'.
Hypothesis P_removeItem : forall k, preserves P (localStorage_removeItem k).
Hypothesis P_schedule : forall d w, P w -> P (after_schedule d w).

Lemma frame_Date_now : preserves P Date_now.
Proof. intros w Hw. apply (P_frame w); [reflexivity..|exact Hw]. Qed.

Lemma frame_console (msg : string) : preserves P (console_error msg).
Proof. intros w Hw. apply (P_frame w); [reflexivity..|exact Hw]. Qed.

Lemma frame_ui (e : ui_event) : preserves P (modify (log_ui e)).
Proof. intros w Hw. apply (P_frame w); [reflexivity..|exact Hw]. Qed.

Lemma frame_array_filter (p : Z -> bool) (v : logval) : preserves P (array_filter p v).
Proof. destruct v; intros w Hw; exact Hw. Qed.

Lemma frame_getSubmissionAttempts : preserves P getSubmissionAttempts.
Proof.
  intros w Hw.
  destruct (getSubmissionAttempts_returns w) as (v & w' & -> & [-> | ->]);
    [exact Hw | apply (P_frame w); [reflexivity..|exact Hw]].
Qed.

Lemma frame_canSubmit : preserves P canSubmit.
Proof.
  unfold FormHandler.canSubmit.
  destruct (rate_limit config); [|apply preserves_ret].
  apply preserves_bind; [apply frame_getSubmissionAttempts | intros v].
  apply preserves_bind; [apply frame_Date_now | intros now].
  apply preserves_bind; [apply frame_array_filter | intros l].
  apply preserves_ret.
Qed.

Lemma frame_resetRateLimit_body (chk : M World unit) :
  preserves P chk -> preserves P (resetRateLimit_body config chk).
Proof.
  intros Hchk. unfold resetRateLimit_body.
  destruct (rate_limit config); [|apply preserves_ret].
  apply preserves_bind; [apply P_removeItem | intros _].
  apply preserves_bind; [exact Hchk | intros _].
  apply preserves_bind; [apply frame_ui | intros _].
  apply frame_console.
Qed.

Lemma frame_scheduleRateLimitReset_body (chk : M World unit) (resetTime : Z) :
  preserves P chk -> preserves P (scheduleRateLimitReset_body config chk resetTime).
Proof.
  intros Hchk w Hw. rewrite scheduleRateLimitReset_body_eq.
  destruct (resetTime <=? clock w (reads w)).
  - apply frame_resetRateLimit_body; [exact Hchk | apply frame_Date_now; exact Hw].
  - apply P_schedule. apply (frame_Date_now w Hw).
Qed.

Lemma frame_check (d : nat) : preserves P (check d).
Proof.
  induction d as [|d IH]; [apply preserves_exhausted|].
  cbn [checkAndUpdateRateLimitDisplay]. unfold checkAndUpdateRateLimitDisplay_body.
  destruct (rate_limit config); [|apply preserves_ret].
  apply preserves_bind; [apply frame_getSubmissionAttempts | intros v].
  apply preserves_bind; [apply frame_Date_now | intros now].
  apply preserves_bind; [apply frame_array_filter | intros l].
  apply preserves_bind; [apply frame_ui | intros _].
  destruct l as [|x xs]; [apply preserves_ret|].
  destruct (_ =? 0); [|apply preserves_ret].
  apply frame_scheduleRateLimitReset_body, IH.
Qed.

End Frame.

Lemma keeps_removeItem (k : string) : preserves one_reset_pending (localStorage_removeItem k).
Proof.
  intros w Hw. unfold localStorage_removeItem.
  destruct (removeItem k (storage w)); exact Hw.
Qed.

Lemma keeps_setItem (k v : string) : preserves one_reset_pending (localStorage_setItem k v).
Proof.
  intros w Hw. unfold localStorage_setItem.
  destruct (setItem k v (storage w)); exact Hw.
Qed.

(** Cancelling the recorded handle leaves no reset behind. *)
Lemma cancel_clears_resets (w : World) :
  one_reset_pending w ->
  filter (fun t => match action t with ResetRateLimit => true | HideInlineError => false end)
         (cancel (resetTimeout w) (timers w)) = [].
Proof.
  unfold one_reset_pending, reset_timers, cancel.
  set (is_reset := fun t : timer => match action t with
                                    | ResetRateLimit => true
                                    | HideInlineError => false
                                    end).
  assert (Hcomm : forall (q : timer -> bool) (ts : list timer),
             filter is_reset (filter q ts) = filter q (filter is_reset ts)).
  { intros q. induction ts as [|a ts IH]; [reflexivity|]. cbn.
    destruct (q a) eqn:E1, (is_reset a) eqn:E2; cbn; rewrite ?E1, ?E2, IH; reflexivity. }
  intros [Hnil | (t & Hone & Hid)].
  - destruct (resetTimeout w) as [i|]; [|exact Hnil].
    rewrite Hcomm, Hnil. reflexivity.
  - rewrite Hid, Hcomm, Hone. cbn. rewrite Pos.eqb_refl. reflexivity.
Qed.

(** After a reset has been queued it is the only one pending. *)
Lemma after_schedule_pending (d : Z) (w : World) :
  one_reset_pending w ->
  reset_timers (after_schedule d w)
  = [{| timer_id := next_timer w; delay := d; action := ResetRateLimit |}]
  /\ resetTimeout (after_schedule d w) = Some (next_timer w).
Proof.
  intros Hw. split; [|reflexivity].
  unfold reset_timers, after_schedule. cbn [timers set_resetTimeout set_next_timer set_timers].
  rewrite filter_app, (cancel_clears_resets w Hw). reflexivity.
Qed.

Lemma keeps_after_schedule (d : Z) (w : World) :
  one_reset_pending w -> one_reset_pending (after_schedule d w).
Proof.
  intros Hw. destruct (after_schedule_pending d w Hw) as [Hts Hid].
  right. eexists. split; [exact Hts | exact Hid].
Qed.

Lemma one_reset_pending_frame (w w' : World) :
  storage w' = storage w -> timers w' = timers w -> resetTimeout w' = resetTimeout w ->
  one_reset_pending w -> one_reset_pending w'.
Proof. intros _. apply one_reset_pending_same. Qed.

Lemma keeps_check (d : nat) : preserves one_reset_pending (check d).
Proof.
  apply frame_check;
    [exact one_reset_pending_frame | exact keeps_removeItem | exact keeps_after_schedule].
Qed.

Lemma keeps_resetRateLimit_body (chk : M World unit) :
  preserves one_reset_pending chk ->
  preserves one_reset_pending (resetRateLimit_body config chk).
Proof.
  apply frame_resetRateLimit_body;
    [exact one_reset_pending_frame | exact keeps_removeItem].
Qed.

Lemma keeps_saveSubmissionAttempts (l : list Z) :
  preserves one_reset_pending (saveSubmissionAttempts l).
Proof.
  unfold FormHandler.saveSubmissionAttempts.
  destruct (rate_limit config); [|apply preserves_ret].
  apply preserves_try_catch; [apply keeps_setItem | intros; intros w Hw; exact Hw].
Qed.

Lemma keeps_canSubmit : preserves one_reset_pending canSubmit.
Proof. apply frame_canSubmit. exact one_reset_pending_frame. Qed.

Lemma keeps_recordSubmission (d : nat) : preserves one_reset_pending (recordSubmission d).
Proof.
  unfold FormHandler.recordSubmission.
  destruct (rate_limit config); [|apply preserves_ret].
  apply preserves_bind;
    [apply frame_getSubmissionAttempts; exact one_reset_pending_frame | intros v].
  apply preserves_bind.
  { destruct v; unfold push_now.
    - apply preserves_throw.
    - apply preserves_bind; [intros w Hw; exact Hw | intros; apply preserves_throw].
    - apply preserves_bind; [intros w Hw; exact Hw | intros; apply preserves_ret]. }
  intros l.
  apply preserves_bind; [intros w Hw; exact Hw | intros now].
  apply preserves_bind; [apply keeps_saveSubmissionAttempts | intros _].
  apply keeps_check.
Qed.

Lemma keeps_clearTimeout (id : positive) : preserves one_reset_pending (clearTimeout id).
Proof.
  intros w Hw. unfold clearTimeout, modify. cbn [snd].
  unfold one_reset_pending, reset_timers in *. cbn [timers resetTimeout set_timers].
  set (is_reset := fun t : timer => match action t with
                                    | ResetRateLimit => true
                                    | HideInlineError => false
                                    end) in *.
  set (q := fun t : timer => negb (Pos.eqb (timer_id t) id)).
  assert (Hcomm : forall ts : list timer,
             filter is_reset (filter q ts) = filter q (filter is_reset ts)).
  { induction ts as [|a ts IH]; [reflexivity|]. cbn.
    destruct (q a) eqn:E1, (is_reset a) eqn:E2; cbn; rewrite ?E1, ?E2, IH; reflexivity. }
  rewrite Hcomm.
  destruct Hw as [-> | (t & -> & Hid)]; [left; reflexivity|].
  cbn. destruct (q t); [right; exists t; split; [reflexivity | exact Hid] | left; reflexivity].
Qed.

Lemma keeps_fire (d : nat) (id : positive) :
  preserves one_reset_pending (fire JSON_parse config d id).
Proof.
  unfold fire. apply preserves_bind; [apply preserves_get | intros w0].
  destruct (find _ (timers w0)) as [t|]; [|apply preserves_ret].
  apply preserves_bind; [apply keeps_clearTimeout | intros _].
  destruct (action t); [|apply preserves_ret].
  apply keeps_resetRateLimit_body, keeps_check.
Qed.

Lemma keeps_createInlineError : preserves one_reset_pending createInlineError.
Proof.
  intros w Hw. unfold createInlineError, bind, setTimeout, ret. cbn [snd].
  unfold one_reset_pending, reset_timers in *.
  cbn [timers resetTimeout set_timers set_next_timer].
  rewrite filter_app. cbn [filter action]. rewrite app_nil_r. exact Hw.
Qed.

Lemma keeps_run (d : nat) (e : event) :
  preserves one_reset_pending (run JSON_parse JSON_stringify config d e).
Proof.
  destruct e; cbn [run].
  - apply preserves_bind; [apply keeps_canSubmit | intros; apply preserves_ret].
  - apply keeps_recordSubmission.
  - apply keeps_check.
  - apply keeps_createInlineError.
  - apply keeps_fire.
Qed.

(** In every world a handler can be in, at most one reset is pending. *)
Lemma reachable_one_reset_pending (d : nat) (w : World) :
  reachable JSON_parse JSON_stringify config d w -> one_reset_pending w.
Proof.
  induction 1 as [w [_ Hnone] | w e _ IH].
  - left. exact Hnone.
  - apply keeps_run. exact IH.
Qed.

(** [Math.min] of a non-empty array is its least element. *)
Lemma Math_min_least (x : Z) (xs : list Z) :
  In (Math_min x xs) (x :: xs) /\ Forall (fun t => Math_min x xs <= t) (x :: xs).
Proof.
  unfold Math_min. revert x. induction xs as [|y ys IH]; intros x; cbn [fold_left].
  - split; [left; reflexivity | constructor; [lia | constructor]].
  - destruct (IH (Z.min x y)) as [Hin Hall]. split.
    + destruct Hin as [Heq | Hin]; [|right; right; exact Hin].
      rewrite <- Heq. destruct (Z.min_spec x y) as [[_ ->] | [_ ->]];
        [left | right; left]; reflexivity.
    + inversion Hall as [|? ? Hhd Htl]; subst.
      constructor; [lia | constructor; [lia | exact Htl]].
Qed.

(** *** The claims about the gate *)

Lemma recent_filter (rl : RateLimit) (now : Z) (l : list Z) :
  recent rl now l = filter (fun timestamp => now - window_ms rl <? timestamp) l.
Proof.
  unfold recent, window_ms. apply filter_ext. intros t. apply Z.gtb_ltb.
Qed.

(** The read depends on the store alone. *)
Lemma getSubmissionAttempts_same_store (w w' w1 : World) (v : logval) :
  storage w' = storage w ->
  getSubmissionAttempts w = (Normal v, w1) ->
  exists w1', getSubmissionAttempts w' = (Normal v, w1').
Proof.
  intros Hst. destruct (rate_limit config) as [rl|] eqn:Hrl.
  - rewrite (getSubmissionAttempts_read rl w Hrl), (getSubmissionAttempts_read rl w' Hrl), Hst.
    destruct (denied (storage w)); [intros [= <- _]; eauto|].
    destruct (assoc (STORAGE_KEY rl) (items (storage w))) as [[|c text]|];
      try (intros [= <- _]; eauto).
    destruct (JSON_parse (String c text)); intros [= <- _]; eauto.
  - unfold FormHandler.getSubmissionAttempts. rewrite Hrl. unfold ret.
    intros [= <- _]. eauto.
Qed.

(** With a log of timestamps the display check returns: two unrollings are
    always enough. *)
Lemma check_returns (rl : RateLimit) (d : nat) (w w1 : World) (l : list Z) :
  rate_limit config = Some rl ->
  getSubmissionAttempts w = (Normal (LStamps l), w1) ->
  fst (check (S (S d)) w) = Normal tt.
Proof.
  intros Hrl Hget. rewrite (check_eq rl d w w1 l Hrl Hget). cbv zeta.
  destruct (recent rl (clock w (reads w)) l) as [|x xs] eqn:Hrec; [reflexivity|].
  destruct (_ =? 0); [|reflexivity].
  rewrite scheduleRateLimitReset_eq. destruct (_ <=? _); [|reflexivity].
  rewrite (resetRateLimit_eq rl d _ Hrl).
  destruct (getSubmissionAttempts_frame _ _ _ Hget) as (Hst & _).
  cbn [storage tick log_ui]. rewrite Hst.
  destruct (denied (storage w)) eqn:Hden; [|reflexivity].
  rewrite (getSubmissionAttempts_read rl w Hrl), Hden in Hget.
  injection Hget as <- _. discriminate Hrec.
Qed.

(** C1 (as amended).  With a policy configured and a log of timestamps in the
    store, [canSubmit] returns normally, and it returns [true] exactly when
    fewer than [MAX_ATTEMPTS_PER_HOUR] logged timestamps are strictly later
    than [now - windowDuration]; no upper bound at [now] is applied. *)
Theorem canSubmit_counts_attempts_after_window_start
  (rl : RateLimit) (w w1 : World) (log : list Z) :
  rate_limit config = Some rl ->
  getSubmissionAttempts w = (Normal (LStamps log), w1) ->
  exists allowed : bool,
    canSubmit w = (Normal allowed, tick w1) /\
    (allowed = true <->
     Z.of_nat (List.length
                 (filter (fun timestamp => clock w (reads w) - window_ms rl <? timestamp) log))
     < MAX_ATTEMPTS_PER_HOUR rl) /\
    (allowed = false <->
     MAX_ATTEMPTS_PER_HOUR rl
     <= Z.of_nat (List.length
                    (filter (fun timestamp => clock w (reads w) - window_ms rl <? timestamp)
                            log))).
Proof.
  intros Hrl Hget. eexists. split; [apply (canSubmit_eq rl w w1 log Hrl Hget)|].
  rewrite recent_filter. split.
  - apply Z.ltb_lt.
  - rewrite Z.ltb_ge. reflexivity.
Qed.

(** What [recordSubmission] comes to once the store has taken the write. *)
Lemma recordSubmission_eq (rl : RateLimit) (d : nat) (w w1 : World) (l : list Z) :
  rate_limit config = Some rl ->
  getSubmissionAttempts w = (Normal (LStamps l), w1) ->
  denied (storage w) = false ->
  quota_full (storage w) = false ->
  recordSubmission d w =
    check d
      (set_storage
         {| denied := false; quota_full := false;
            items :=
              (STORAGE_KEY rl,
               JSON_stringify
                 (recent rl (clock w (S (reads w))) (l ++ [clock w (reads w)])))
              :: remove_key (STORAGE_KEY rl) (items (storage w)) |}
         (tick (tick w1))).
Proof.
  intros Hrl Hget Hden Hquota.
  destruct (getSubmissionAttempts_frame _ _ _ Hget) as (Hst & Hclock & Hreads & _).
  unfold FormHandler.recordSubmission. rewrite Hrl.
  unfold bind at 1. rewrite Hget.
  unfold bind at 1. unfold push_now. unfold bind at 1. unfold Date_now at 1, ret at 1.
  unfold bind at 1. unfold Date_now at 1.
  unfold bind at 1. unfold FormHandler.saveSubmissionAttempts. rewrite Hrl.
  unfold try_catch, localStorage_setItem, setItem.
  cbn [storage tick reads clock]. rewrite Hst, Hden, Hquota, Hclock, Hreads.
  reflexivity.
Qed.

(** What the display check leaves in an accessible store: the log as it
    was, or no log when the reset is due at once. *)
Lemma check_store (rl : RateLimit) (d : nat) (w w1 : World) (l : list Z) :
  rate_limit config = Some rl ->
  getSubmissionAttempts w = (Normal (LStamps l), w1) ->
  denied (storage w) = false ->
  fst (check (S (S d)) w) = Normal tt /\
  items (storage (snd (check (S (S d)) w)))
  = if reset_due rl (clock w (reads w)) (clock w (S (reads w))) l
    then remove_key (STORAGE_KEY rl) (items (storage w))
    else items (storage w).
Proof.
  intros Hrl Hget Hden. split; [apply (check_returns rl d w w1 l Hrl Hget)|].
  destruct (getSubmissionAttempts_frame _ _ _ Hget) as (Hst & Hck & Hrd & _).
  rewrite (check_eq rl d w w1 l Hrl Hget). cbv zeta. unfold reset_due.
  destruct (recent rl (clock w (reads w)) l) as [|x xs]; [cbn; now rewrite Hst|].
  destruct (_ =? 0); [|cbn; now rewrite Hst].
  rewrite scheduleRateLimitReset_eq. cbn [clock reads log_ui tick andb].
  rewrite Hck, Hrd. unfold window_ms.
  destruct (_ <=? _); [|cbn; now rewrite Hst].
  rewrite (resetRateLimit_eq rl d _ Hrl). cbn [storage log_ui tick].
  rewrite Hst, Hden. cbn. rewrite ?Hst. reflexivity.
Qed.

(** C2 (as amended).  [canSubmit] filters in memory only and never touches
    the store.  [recordSubmission], when the store takes the write, is the
    display check run on a store that holds, under the policy's key, exactly
    the old entries and the new one that are strictly later than
    [now - windowDuration]: older entries are gone from the stored log
    itself.  When the host gives the written log back, the method returns
    and that text is what the store holds afterwards -- unless the display
    check finds the allowance used up and the oldest kept attempt already a
    full window old, in which case it clears the log altogether. *)
Theorem recordSubmission_prunes_the_store
  (rl : RateLimit) (d : nat) (w w1 : World) (log : list Z) :
  rate_limit config = Some rl ->
  getSubmissionAttempts w = (Normal (LStamps log), w1) ->
  denied (storage w) = false ->
  quota_full (storage w) = false ->
  let pushed := clock w (reads w) in
  let now := clock w (S (reads w)) in
  let kept := filter (fun timestamp => now - window_ms rl <? timestamp) (log ++ [pushed]) in
  let saved :=
    set_storage
      {| denied := false; quota_full := false;
         items := (STORAGE_KEY rl, JSON_stringify kept)
                  :: remove_key (STORAGE_KEY rl) (items (storage w)) |}
      (tick (tick w1)) in
  storage (snd (canSubmit w)) = storage w /\
  (forall timestamp,
     In timestamp kept <->
     In timestamp (log ++ [pushed]) /\ now - window_ms rl < timestamp) /\
  recordSubmission d w = check d saved /\
  (JSON_stringify kept <> EmptyString ->
   JSON_parse (JSON_stringify kept) = Some (LStamps kept) ->
   fst (recordSubmission (S (S d)) w) = Normal tt /\
   assoc (STORAGE_KEY rl) (items (storage (snd (recordSubmission (S (S d)) w))))
   = if reset_due rl (clock w (S (S (reads w)))) (clock w (S (S (S (reads w))))) kept
     then None
     else Some (JSON_stringify kept)).
Proof.
  intros Hrl Hget Hden Hquota pushed now kept saved.
  destruct (getSubmissionAttempts_frame _ _ _ Hget) as (Hst & Hck & Hrd & _).
  assert (Hrecord : forall d0, recordSubmission d0 w = check d0 saved).
  { intros d0. rewrite (recordSubmission_eq rl d0 w w1 log Hrl Hget Hden Hquota).
    rewrite recent_filter. reflexivity. }
  split; [|split; [|split]].
  - rewrite (canSubmit_eq rl w w1 log Hrl Hget). exact Hst.
  - intros timestamp. unfold kept. rewrite filter_In, Z.ltb_lt. reflexivity.
  - apply Hrecord.
  - intros Hne Hparse. rewrite Hrecord.
    assert (Hread : getSubmissionAttempts saved = (Normal (LStamps kept), saved)).
    { rewrite (getSubmissionAttempts_read rl saved Hrl).
      cbn [saved storage set_storage denied items assoc]. rewrite String.eqb_refl.
      destruct (JSON_stringify kept) as [|c text] eqn:Htext;
        [contradiction Hne; reflexivity|].
      rewrite Hparse. reflexivity. }
    destruct (check_store rl d saved saved kept Hrl Hread eq_refl) as [Hdone Hitems].
    split; [exact Hdone|]. rewrite Hitems.
    cbn [saved clock reads set_storage tick storage items]. rewrite Hck, Hrd.
    match goal with |- context [if ?c then _ else _] => destruct c end.
    + apply assoc_remove_key_eq.
    + cbn [assoc]. rewrite String.eqb_refl. reflexivity.
Qed.



(** C5.  With a policy configured: when the store refuses access or the
    stored text does not parse, the read returns the empty log without
    throwing, and [canSubmit] answers as for no attempts (it allows whenever
    the maximum is at least 1); when the store refuses the write,
    [saveSubmissionAttempts] returns normally with the store unchanged, and
    [recordSubmission] returns normally too.  The only trace is a console
    line. *)
Theorem storage_failures_never_surface
  (rl : RateLimit) (d : nat) (w : World) (attempts : list Z) :
  rate_limit config = Some rl ->
  (denied (storage w) = true \/
   (exists c text, assoc (STORAGE_KEY rl) (items (storage w)) = Some (String c text) /\
                   JSON_parse (String c text) = None) ->
   getSubmissionAttempts w
   = (Normal (LStamps []), log_console "Error reading submission attempts:" w) /\
   canSubmit w
   = (Normal (0 <? MAX_ATTEMPTS_PER_HOUR rl),
      tick (log_console "Error reading submission attempts:" w))) /\
  (denied (storage w) = true \/ quota_full (storage w) = true ->
   saveSubmissionAttempts attempts w
   = (Normal tt, log_console "Error saving submission attempts:" w) /\
   forall log w1,
     getSubmissionAttempts w = (Normal (LStamps log), w1) ->
     fst (recordSubmission (S (S d)) w) = Normal tt).
Proof.
  intros Hrl. split.
  - intros Hfail.
    assert (Hget : getSubmissionAttempts w
                   = (Normal (LStamps []),
                      log_console "Error reading submission attempts:" w)).
    { rewrite (getSubmissionAttempts_read rl w Hrl).
      destruct Hfail as [-> | (c & text & Hstored & Hparse)]; [reflexivity|].
      destruct (denied (storage w)); [reflexivity|].
      rewrite Hstored, Hparse. reflexivity. }
    split; [exact Hget|].
    rewrite (canSubmit_eq rl w _ [] Hrl Hget). reflexivity.
  - intros Hfail.
    assert (Hsave : forall l w0,
               storage w0 = storage w ->
               FormHandler.saveSubmissionAttempts JSON_stringify config l w0
               = (Normal tt, log_console "Error saving submission attempts:" w0)).
    { intros l w0 Hst. unfold FormHandler.saveSubmissionAttempts. rewrite Hrl.
      unfold try_catch, localStorage_setItem, setItem. rewrite Hst.
      destruct Hfail as [-> | Hq]; [reflexivity|].
      destruct (denied (storage w)); [reflexivity|]. rewrite Hq. reflexivity. }
    split; [apply Hsave; reflexivity|].
    intros log w1 Hget.
    destruct (getSubmissionAttempts_frame _ _ _ Hget) as (Hst & _).
    unfold FormHandler.recordSubmission. rewrite Hrl.
    unfold bind at 1. rewrite Hget.
    unfold bind at 1. unfold push_now. unfold bind at 1. unfold Date_now at 1, ret at 1.
    unfold bind at 1. unfold Date_now at 1.
    unfold bind at 1. rewrite Hsave by (cbn [storage tick]; exact Hst).
    match goal with |- fst (check _ ?w3) = _ =>
      destruct (getSubmissionAttempts_same_store w w3 w1 (LStamps log)) as [w3' Hget3];
        [cbn [storage tick log_console]; exact Hst | exact Hget |]
    end.
    apply (check_returns rl d _ _ log Hrl Hget3).
Qed.

End Gate.

(** *** Worked examples *)

(** C1, counterexample.  One hour after three attempts made at time 0 the
    closed window [[now - 1h, now]] still holds all three, so the gate as
    specified refuses; [canSubmit] compares strictly and allows. *)
Lemma canSubmit_admits_attempts_on_the_window_edge :
  parse_stamps "[0,0,0]" = Some (LStamps [0; 0; 0]) /\
  fst (canSubmit parse_stamps (app_config policy) (browser 3600000 "[0,0,0]"))
  = Normal true /\
  isAllowed_spec policy 3600000 [0; 0; 0] = false.
Proof. repeat split; reflexivity. Qed.

(** C1, an instance: a millisecond before the hour is over the three attempts
    still count and the gate is closed. *)
Lemma canSubmit_counts_attempts_after_window_start_witness :
  rate_limit (app_config policy) = Some policy /\
  getSubmissionAttempts parse_stamps (app_config policy) (browser 3599999 "[0,0,0]")
  = (Normal (LStamps [0; 0; 0]), browser 3599999 "[0,0,0]") /\
  exists allowed : bool,
    canSubmit parse_stamps (app_config policy) (browser 3599999 "[0,0,0]")
    = (Normal allowed, tick (browser 3599999 "[0,0,0]")) /\
    (allowed = true <->
     Z.of_nat (List.length
                 (filter (fun timestamp => 3599999 + 0 - window_ms policy <? timestamp)
                         [0; 0; 0])) < 3) /\
    (allowed = false <->
     3 <= Z.of_nat (List.length
                      (filter (fun timestamp => 3599999 + 0 - window_ms policy <? timestamp)
                              [0; 0; 0]))).
Proof.
  split; [reflexivity|]. split; [reflexivity|].
  apply (canSubmit_counts_attempts_after_window_start
           parse_stamps (app_config policy) policy
           (browser 3599999 "[0,0,0]") (browser 3599999 "[0,0,0]") [0; 0; 0]);
    reflexivity.
Defined.

(** C2, counterexample.  Two hours after an attempt made at time 0,
    [canSubmit] has run and the stored log still holds that attempt, which
    lies outside [[now - 1h, now]]. *)
Lemma canSubmit_leaves_expired_attempts_stored :
  option_map parse_stamps
    (assoc "tawazn_submissions"
       (items (storage (snd (canSubmit parse_stamps (app_config policy)
                                       (browser 7200000 "[0]"))))))
  = Some (Some (LStamps [0])) /\
  in_window policy 7200000 0 = false.
Proof. split; reflexivity. Qed.

(** C2, an instance: recording two hours after a lone attempt made at time 0
    stores the new attempt only. *)
Lemma recordSubmission_prunes_the_store_witness :
  rate_limit (app_config policy) = Some policy /\
  getSubmissionAttempts parse_stamps (app_config policy) (browser 7200000 "[0]")
  = (Normal (LStamps [0]), browser 7200000 "[0]") /\
  denied (storage (browser 7200000 "[0]")) = false /\
  quota_full (storage (browser 7200000 "[0]")) = false /\
  stringify_stamps [7200000] = "[7200000]"%string /\
  parse_stamps "[7200000]" = Some (LStamps [7200000]) /\
  assoc "tawazn_submissions"
    (items (storage (snd (recordSubmission parse_stamps stringify_stamps
                            (app_config policy) 2 (browser 7200000 "[0]")))))
  = Some "[7200000]"%string.
Proof.
  repeat (split; [reflexivity|]).
  destruct (recordSubmission_prunes_the_store
              parse_stamps stringify_stamps (app_config policy) policy 0
              (browser 7200000 "[0]") (browser 7200000 "[0]") [0]
              eq_refl eq_refl eq_refl eq_refl) as (_ & _ & _ & Hstored).
  destruct Hstored as [_ Hstored]; [vm_compute; discriminate | reflexivity |].
  exact Hstored.
Defined.


(** C5, an instance: a browser that refuses storage access. *)
Lemma storage_failures_never_surface_witness :
  rate_limit (app_config policy) = Some policy /\
  denied (storage (locked_browser 1000 "[0,1,5]")) = true /\
  canSubmit parse_stamps (app_config policy) (locked_browser 1000 "[0,1,5]")
  = (Normal true,
     tick (log_console "Error reading submission attempts:"
             (locked_browser 1000 "[0,1,5]"))) /\
  saveSubmissionAttempts stringify_stamps (app_config policy) [1000]
    (locked_browser 1000 "[0,1,5]")
  = (Normal tt,
     log_console "Error saving submission attempts:" (locked_browser 1000 "[0,1,5]")).
Proof.
  split; [reflexivity|]. split; [reflexivity|].
  destruct (storage_failures_never_surface
              parse_stamps stringify_stamps (app_config policy) policy 0
              (locked_browser 1000 "[0,1,5]") [1000] eq_refl) as [Hread Hwrite].
  split.
  - exact (proj2 (Hread (or_introl eq_refl))).
  - exact (proj1 (Hwrite (or_introl eq_refl))).
Defined.

(** The example of the specification: three attempts an hour, three
    submissions recorded at time 0; the gate is closed at once and open again
    sixty-one minutes later. *)
Example three_submissions_then_blocked_then_free :
  let cfg := app_config policy in
  let record := recordSubmission parse_stamps stringify_stamps cfg 2 in
  let w0 := set_storage {| denied := false; quota_full := false; items := [] |}
              (browser 0 "") in
  let w3 := snd (record (snd (record (snd (record w0))))) in
  let at_once := set_clock (fun _ => 0) w3 in
  let later := set_clock (fun _ => 61 * 60 * 1000) w3 in
  assoc "tawazn_submissions" (items (storage w3)) <> None /\
  fst (canSubmit parse_stamps cfg w0) = Normal true /\
  fst (canSubmit parse_stamps cfg at_once) = Normal false /\
  fst (canSubmit parse_stamps cfg later) = Normal true.
Proof. vm_compute. repeat split; discriminate. Qed.

(** With no policy configured the gate is always open and records nothing. *)
Lemma canSubmit_without_policy (JSON_parse : string -> option logval)
  (config : option Config) (w : World) :
  rate_limit config = None -> canSubmit JSON_parse config w = (Normal true, w).
Proof. intros H. unfold canSubmit. rewrite H. reflexivity. Qed.

End FormHandlerFacts.

(** ** The translation resolver *)

Module I18nFacts.

Import Js I18n Str StrFacts JsFacts.
Local Open Scope string_scope.

(** *** The placeholder scan *)

Lemma replace_all_unfold (f : string -> string -> string) (s : string) :
  replace_all f s =
    match match_at s with
    | Some (name, rest) => f ("{{" ++ name ++ "}}") name ++ replace_all f rest
    | None =>
        match s with
        | EmptyString => EmptyString
        | String c r => String c (replace_all f r)
        end
    end.
Proof.
  funelim (replace_all f s).
  - rewrite Hm. reflexivity.
  - reflexivity.
  - match goal with H : match_at (String _ _) = None |- _ => rewrite H end.
    reflexivity.
Qed.

Lemma span_word_app (s : string) : s = fst (span_word s) ++ snd (span_word s).
Proof.
  induction s as [|c s IH]; cbn [span_word]; [reflexivity|].
  destruct (is_word c); [|reflexivity].
  destruct (span_word s) as [w r]. cbn [fst snd] in *. cbn. congruence.
Qed.

Lemma span_word_words (s : string) : all_chars is_word (fst (span_word s)) = true.
Proof.
  induction s as [|c s IH]; cbn [span_word]; [reflexivity|].
  destruct (is_word c) eqn:E; [|reflexivity].
  destruct (span_word s) as [w r]. cbn [fst] in *. cbn. rewrite E. exact IH.
Qed.

(** After a run of word characters followed by a non-word character the
    greedy scan stops exactly there. *)
Lemma span_word_stop (w : string) (c : ascii) (r : string) :
  all_chars is_word w = true -> is_word c = false ->
  span_word (w ++ String c r) = (w, String c r).
Proof.
  intros Hw Hc. induction w as [|a w IH]; cbn [append span_word].
  - rewrite Hc. reflexivity.
  - cbn in Hw. apply andb_true_iff in Hw as [Ha Hw]. rewrite Ha, (IH Hw). reflexivity.
Qed.

Lemma span_word_all (w : string) :
  all_chars is_word w = true -> span_word w = (w, "").
Proof.
  intros Hw. induction w as [|a w IH]; cbn [span_word]; [reflexivity|].
  cbn in Hw. apply andb_true_iff in Hw as [Ha Hw]. rewrite Ha, (IH Hw). reflexivity.
Qed.

(** The pattern matches at the start of [s] exactly when [s] opens with a
    placeholder whose name is a non-empty word. *)
Lemma match_at_Some (s name rest : string) :
  match_at s = Some (name, rest) <->
  s = "{{" ++ name ++ "}}" ++ rest /\ word_name name = true.
Proof.
  unfold match_at, word_name. split.
  - destruct (strip_prefix "{{" s) as [r|] eqn:E1; [|discriminate].
    apply strip_prefix_Some in E1. subst s.
    pose proof (span_word_app r) as Happ. pose proof (span_word_words r) as Hwords.
    destruct (span_word r) as [w r']. cbn [fst snd] in *.
    destruct w as [|a w]; [discriminate|].
    destruct (strip_prefix "}}" r') as [rest'|] eqn:E2; [|discriminate].
    apply strip_prefix_Some in E2. intros [= <- <-]. subst r' r.
    split; [reflexivity | exact Hwords].
  - intros [-> Hname]. apply andb_true_iff in Hname as [Hne Hwords].
    rewrite strip_prefix_app.
    change ("}}" ++ rest) with (String "}" (String "}" rest)).
    rewrite (span_word_stop name "}" (String "}" rest) Hwords eq_refl).
    destruct name as [|a name]; [discriminate Hne|].
    cbn [strip_prefix]. rewrite !Ascii.eqb_refl. reflexivity.
Qed.

Lemma span_word_spec (s : string) :
  s = fst (span_word s) ++ snd (span_word s) /\
  all_chars is_word (fst (span_word s)) = true /\
  match snd (span_word s) with
  | EmptyString => True
  | String c _ => is_word c = false
  end.
Proof.
  split; [apply span_word_app|]. split; [apply span_word_words|].
  induction s as [|c s IH]; cbn [span_word]; [exact I|].
  destruct (is_word c) eqn:E; [|exact E].
  destruct (span_word s) as [w r]. exact IH.
Qed.

Lemma match_at_not_open (c : ascii) (r : string) :
  Ascii.eqb c "{" = false -> match_at (String c r) = None.
Proof.
  intros Hc. unfold match_at. cbn [strip_prefix].
  rewrite Ascii.eqb_sym, Hc. reflexivity.
Qed.

(** Text without an opening brace is copied. *)
Lemma replace_all_literal (f : string -> string -> string) (text rest : string) :
  no_open text = true ->
  replace_all f (text ++ rest) = text ++ replace_all f rest.
Proof.
  induction text as [|c text IH]; intros Hfree; [reflexivity|].
  cbn in Hfree. apply andb_true_iff in Hfree as [Hc Hfree].
  apply negb_true_iff in Hc.
  cbn [append]. rewrite replace_all_unfold, (match_at_not_open c _ Hc), (IH Hfree).
  reflexivity.
Qed.

(** A placeholder with a word for a name is replaced, and the scan resumes
    after it. *)
Lemma replace_all_hole (f : string -> string -> string) (name rest : string) :
  word_name name = true ->
  replace_all f ("{{" ++ name ++ "}}" ++ rest)
  = f ("{{" ++ name ++ "}}") name ++ replace_all f rest.
Proof.
  intros Hname. rewrite replace_all_unfold.
  rewrite (proj2 (match_at_Some _ name rest) (conj eq_refl Hname)). reflexivity.
Qed.

(** A match found in [pre] is the same match in [pre ++ more]. *)
Lemma match_at_app_Some (pre more name rest : string) :
  match_at pre = Some (name, rest) ->
  match_at (pre ++ more) = Some (name, rest ++ more).
Proof.
  intros H. apply match_at_Some in H as [-> Hname]. apply match_at_Some.
  split; [|exact Hname].
  now rewrite (append_assoc "{{"), (append_assoc name), (append_assoc "}}").
Qed.

(** No match straddles the end of [pre] when what follows opens a
    placeholder (or nothing follows): a match holds [{] in its first two
    characters only. *)
Lemma match_at_app_None (pre more : string) :
  pre <> "" ->
  match_at pre = None ->
  more = "" \/ (exists more', more = "{{" ++ more') ->
  match_at (pre ++ more) = None.
Proof.
  intros Hne Hnone [-> | [more' ->]]; [now rewrite append_nil_r|].
  destruct pre as [|a pre]; [congruence|]. clear Hne.
  unfold match_at in *. cbn [append strip_prefix] in *.
  destruct (Ascii.eqb "{" a); [|reflexivity].
  destruct pre as [|b pre].
  { cbn [append strip_prefix Ascii.eqb]. cbn. reflexivity. }
  cbn [append strip_prefix] in *.
  destruct (Ascii.eqb "{" b); [|reflexivity].
  destruct (span_word_spec pre) as (Happ & Hwords & Hstop).
  destruct (span_word pre) as [w r] eqn:Hspan. cbn [fst snd] in *.
  destruct r as [|c r].
  - rewrite append_nil_r in Happ. subst w.
    change ("{{" ++ more') with (String "{" (String "{" more')).
    rewrite (span_word_stop pre "{" (String "{" more') Hwords eq_refl).
    destruct pre; reflexivity.
  - rewrite Happ, append_assoc. cbn [append].
    rewrite (span_word_stop w c _ Hwords Hstop).
    destruct w as [|x w]; [reflexivity|].
    destruct (Ascii.eqb "}" c); [|reflexivity].
    destruct r as [|c2 r]; [reflexivity|].
    cbn [append]. destruct (Ascii.eqb "}" c2); [discriminate Hnone | reflexivity].
Qed.

(** The scan of [pre ++ more] is the scan of [pre] followed by the scan of
    [more], when [more] opens a placeholder or is empty. *)
Lemma replace_all_split (f : string -> string -> string) (pre more : string) :
  more = "" \/ (exists more', more = "{{" ++ more') ->
  replace_all f (pre ++ more) = replace_all f pre ++ replace_all f more.
Proof.
  intros Hmore. funelim (replace_all f pre).
  - rewrite (replace_all_unfold f (s ++ more)).
    rewrite (match_at_app_Some s more name rest Hm).
    rewrite append_assoc. f_equal. apply H. exact Hmore.
  - reflexivity.
  - rewrite (replace_all_unfold f (String c r ++ more)).
    match goal with
    | Hnone : match_at (String c r) = None |- _ =>
        rewrite (match_at_app_None (String c r) more ltac:(discriminate) Hnone Hmore)
    end.
    cbn [append]. f_equal. apply H. exact Hmore.
Qed.

(** A text that is not all word characters splits at its first non-word
    character. *)
Lemma first_non_word (s : string) :
  all_chars is_word s = false ->
  exists w c r, s = w ++ String c r /\ all_chars is_word w = true /\ is_word c = false.
Proof.
  induction s as [|a s IH]; [discriminate|]. cbn [all_chars].
  destruct (is_word a) eqn:Ha.
  - cbn [andb]. intros H. destruct (IH H) as (w & c & r & -> & Hw & Hc).
    exists (String a w), c, r. cbn. rewrite Ha. auto.
  - intros _. exists "", a, s. auto.
Qed.

Lemma brace_free_no_open (s : string) : brace_free s = true -> no_open s = true.
Proof.
  unfold brace_free, no_open. induction s as [|c s IH]; [reflexivity|].
  cbn [all_chars]. intros H. apply andb_true_iff in H as [Hc Hs].
  rewrite (IH Hs), andb_true_r. unfold is_brace in Hc.
  apply negb_true_iff, orb_false_iff in Hc as [Hc _]. now rewrite Hc.
Qed.

Lemma brace_free_app (a b : string) :
  brace_free (a ++ b) = brace_free a && brace_free b.
Proof.
  unfold brace_free. induction a as [|c a IH]; [reflexivity|].
  cbn [append all_chars]. now rewrite IH, andb_assoc.
Qed.

(** A brace-delimited occurrence whose inner text holds no brace and some
    non-word character is copied as it stands. *)
Lemma replace_all_occurrence (f : string -> string -> string) (inner post : string) :
  brace_free inner = true ->
  all_chars is_word inner = false ->
  replace_all f ("{{" ++ inner ++ "}}" ++ post)
  = "{{" ++ inner ++ "}}" ++ replace_all f post.
Proof.
  intros Hfree Hnonword.
  assert (Hhead : match_at ("{{" ++ inner ++ "}}" ++ post) = None).
  { destruct (first_non_word inner Hnonword) as (w & c & r & -> & Hw & Hc).
    unfold match_at. rewrite strip_prefix_app, append_assoc. cbn [append].
    rewrite (span_word_stop w c _ Hw Hc).
    destruct w as [|x w]; [reflexivity|].
    rewrite brace_free_app in Hfree. apply andb_true_iff in Hfree as [_ Hfree].
    unfold brace_free in Hfree. cbn [all_chars] in Hfree.
    apply andb_true_iff in Hfree as [Hbrace _].
    unfold is_brace in Hbrace. apply negb_true_iff, orb_false_iff in Hbrace as [_ Hclose].
    cbn [strip_prefix]. rewrite Ascii.eqb_sym, Hclose. reflexivity. }
  assert (Hsecond : match_at ("{" ++ inner ++ "}}" ++ post) = None).
  { destruct inner as [|c inner]; [discriminate Hnonword|].
    unfold brace_free in Hfree. cbn [all_chars] in Hfree.
    apply andb_true_iff in Hfree as [Hbrace _].
    unfold is_brace in Hbrace. apply negb_true_iff, orb_false_iff in Hbrace as [Hopen _].
    rewrite Ascii.eqb_sym in Hopen.
    unfold match_at. cbn [append strip_prefix]. rewrite Ascii.eqb_refl, Hopen.
    reflexivity. }
  rewrite replace_all_unfold, Hhead.
  change ("{{" ++ inner ++ "}}" ++ post) with (String "{" ("{" ++ inner ++ "}}" ++ post)).
  cbv iota. rewrite replace_all_unfold, Hsecond.
  change ("{" ++ inner ++ "}}" ++ post) with (String "{" (inner ++ "}}" ++ post)).
  cbv iota. rewrite (replace_all_literal f inner _ (brace_free_no_open inner Hfree)).
  rewrite (replace_all_literal f "}}" post eq_refl). reflexivity.
Qed.

(** Where the pattern matches nowhere the text is copied. *)
Lemma replace_all_match_free (f : string -> string -> string) (s : string) :
  match_free s = true -> replace_all f s = s.
Proof.
  induction s as [|c s IH]; intros Hfree; rewrite replace_all_unfold;
    cbn [match_free] in Hfree.
  - reflexivity.
  - destruct (match_at (String c s)); [discriminate|]. now rewrite (IH Hfree).
Qed.

Lemma no_open_match_free (s : string) : no_open s = true -> match_free s = true.
Proof.
  unfold no_open. induction s as [|c s IH]; [reflexivity|]. cbn [all_chars match_free].
  intros H. apply andb_true_iff in H as [Hc Hs]. apply negb_true_iff in Hc.
  rewrite (match_at_not_open c s Hc). exact (IH Hs).
Qed.

(** A canonical template that does not begin with a literal prints to a text
    that is empty or opens a placeholder. *)
Lemma print_template_opens (tpl : list piece) :
  match tpl with Lit _ :: _ => False | _ => True end ->
  print_template tpl = "" \/ exists more, print_template tpl = "{{" ++ more.
Proof.
  destruct tpl as [|[text | name] rest]; intros H; [left; reflexivity | destruct H |].
  right. cbn [print_template fold_right print_piece]. eexists.
  rewrite (append_assoc "{{"). reflexivity.
Qed.

(** On the text of a canonical template the scan fills every placeholder and
    copies everything else. *)
Lemma replace_all_canonical (f : string -> string -> string) (tpl : list piece) :
  canonical tpl = true ->
  replace_all f (print_template tpl)
  = render (fun name => f ("{{" ++ name ++ "}}") name) tpl.
Proof.
  induction tpl as [|p tpl IH]; intros Hcan; [reflexivity|].
  cbn [print_template render fold_right].
  fold (print_template tpl). fold (render (fun name => f ("{{" ++ name ++ "}}") name) tpl).
  destruct p as [text | name]; cbn [print_piece canonical] in *;
    apply andb_true_iff in Hcan as [Hp Hcan].
  - assert (Hnext : match tpl with Lit _ :: _ => False | _ => True end)
      by (destruct tpl as [|[|] ?]; [exact I | discriminate Hcan | exact I]).
    assert (Hrest : canonical tpl = true)
      by (destruct tpl as [|[|] ?]; [reflexivity | discriminate Hcan | exact Hcan]).
    rewrite (replace_all_split f text _ (print_template_opens tpl Hnext)).
    rewrite (replace_all_match_free f text Hp), (IH Hrest). reflexivity.
  - rewrite (append_assoc "{{" (name ++ "}}")), (append_assoc name "}}").
    rewrite (replace_all_hole f name _ Hp), (IH Hcan). reflexivity.
Qed.

(** Every text is the text of a canonical template. *)
Lemma canonical_template_exists (s : string) :
  exists tpl, s = print_template tpl /\ canonical tpl = true.
Proof.
  remember (String.length s) as n eqn:Hn. revert s Hn.
  induction n as [n IH] using lt_wf_ind. intros s ->.
  destruct (match_at s) as [[name rest]|] eqn:Hm.
  - apply match_at_Some in Hm as [-> Hname].
    destruct (IH (String.length rest)) with (s := rest) as (tpl & -> & Hcan);
      [rewrite !length_append; cbn; lia | reflexivity |].
    exists (Hole name :: tpl). split.
    + cbn [print_template fold_right print_piece].
      now rewrite (append_assoc "{{" (name ++ "}}")), (append_assoc name "}}").
    + cbn [canonical]. now rewrite Hname, Hcan.
  - destruct s as [|c r]; [exists []; split; reflexivity|].
    destruct (IH (String.length r)) with (s := r) as (tpl & -> & Hcan);
      [cbn; lia | reflexivity |].
    assert (Hshort : forall text more,
               match_at (String c (text ++ more)) = None ->
               match_at (String c text) = None).
    { intros text more Hnone. destruct (match_at (String c text)) as [[nm rs]|] eqn:E;
        [|reflexivity].
      apply (match_at_app_Some _ more) in E. cbn [append] in E. congruence. }
    destruct tpl as [|[text | name] rest].
    + exists [Lit (String c "")]. split; [reflexivity|].
      cbn [print_template fold_right] in Hm.
      cbn [canonical match_free]. now rewrite Hm.
    + exists (Lit (String c text) :: rest). split; [reflexivity|].
      cbn [canonical] in Hcan |- *. apply andb_true_iff in Hcan as [Htext Hrest].
      rewrite Hrest, andb_true_r. cbn [match_free].
      cbn [print_template fold_right print_piece] in Hm.
      now rewrite (Hshort _ _ Hm).
    + exists (Lit (String c "") :: Hole name :: rest). split; [reflexivity|].
      cbn [canonical match_free] in Hcan |- *.
      replace (match_at (String c "")) with (@None (string * string)).
      * exact Hcan.
      * symmetry. apply (Hshort "" (print_template (Hole name :: rest))). exact Hm.
Qed.

(** *** Lookup *)

Section Resolver.

Variable builtin : value -> string -> value.
Variable ToString : value -> string.

Local Abbreviation get_member := (get_member builtin).
Local Abbreviation walk := (walk builtin).
Local Abbreviation t := (t builtin ToString).
Local Abbreviation replacer := (replacer builtin ToString).

Lemma fold_get_member_undefined (segments : list string) :
  fold_left get_member segments VUndefined = VUndefined.
Proof. induction segments as [|k rest IH]; [reflexivity | exact IH]. Qed.

(** A key of a mapping is found there before the host is asked. *)
Lemma lookup_path_fold (table : value) (segments : list string) (v : value) :
  lookup_path table segments = Some v ->
  fold_left get_member segments table = v.
Proof.
  revert table. induction segments as [|k rest IH]; intros table; cbn [lookup_path fold_left].
  - now intros [= ->].
  - destruct table as [| | | | | |fields|]; try discriminate.
    destruct (assoc k fields) as [x|] eqn:Hk; [|discriminate].
    intros H. unfold I18n.get_member. cbn [own_member]. rewrite Hk. apply IH, H.
Qed.

Lemma misses_fold (table : value) (segments : list string) :
  misses builtin table segments ->
  fold_left get_member segments table = VUndefined.
Proof.
  revert table. induction segments as [|k rest IH]; intros table; cbn [misses fold_left].
  - intros [].
  - destruct (own_member table k) as [x|] eqn:Hown.
    + replace (get_member table k) with x
        by (unfold I18n.get_member; now rewrite Hown).
      apply IH.
    + intros ->. apply fold_get_member_undefined.
Qed.

(** What the replacer returns for a placeholder. *)
Lemma replacer_fill (params : list (string * value)) (name : string) :
  (assoc name params = None -> truthy (builtin (VObj params) name) = false) ->
  replacer params ("{{" ++ name ++ "}}") name = fill ToString params name.
Proof.
  intros Hhost. unfold I18n.replacer, fill, I18n.get_member, or_else. cbn [own_member].
  destruct (assoc name params) as [v|].
  - destruct (truthy v); reflexivity.
  - rewrite (Hhost eq_refl). reflexivity.
Qed.

Lemma render_ext (g h : string -> string) (tpl : list piece) :
  (forall name, In (Hole name) tpl -> g name = h name) ->
  render g tpl = render h tpl.
Proof.
  induction tpl as [|p tpl IH]; intros H; [reflexivity|].
  cbn [render fold_right]. fold (render g tpl). fold (render h tpl).
  rewrite IH by (intros name Hin; apply H; right; exact Hin).
  destruct p as [text | name]; [reflexivity|].
  rewrite (H name) by (left; reflexivity). reflexivity.
Qed.

(** C3 (as amended).  [t] splits the key on [.] and walks the table.  When
    the path is present and ends at a string, seen as its literal stretches
    and its placeholders [{{name}}] with word names (every text is one such
    template), [t] returns that text with each placeholder replaced by
    [params[name]] when [params] holds a truthy value under [name] (a
    non-empty string, for one), and left intact otherwise (no entry, or an
    empty string or another falsy value) -- the host adding no truthy
    built-in under a placeholder name missing from [params].  When a segment
    misses (no such own property and none built in), [t] returns the key
    itself. *)
Theorem t_resolves_and_interpolates
  (w : World) (key : string) (params : list (string * value)) :
  (forall tpl,
     lookup_path (translations w) (split "." key) = Some (VStr (print_template tpl)) ->
     canonical tpl = true ->
     (forall name, In (Hole name) tpl -> assoc name params = None ->
                   truthy (builtin (VObj params) name) = false) ->
     t w key params = VStr (render (fill ToString params) tpl)) /\
  (forall s, exists tpl, s = print_template tpl /\ canonical tpl = true) /\
  (misses builtin (translations w) (split "." key) ->
   t w key params = VStr key).
Proof.
  split; [|split].
  - intros tpl Hpath Hcan Hhost. unfold I18n.t, I18n.walk.
    rewrite (lookup_path_fold _ _ _ Hpath). f_equal.
    rewrite (replace_all_canonical _ tpl Hcan). apply render_ext.
    intros name Hin. apply replacer_fill. intros Hnone. exact (Hhost name Hin Hnone).
  - exact canonical_template_exists.
  - intros Hmiss. unfold I18n.t, I18n.walk. rewrite (misses_fold _ _ Hmiss). reflexivity.
Qed.

(** What [t] does with a present value that is not a string, whatever the
    table is built from. *)
Lemma t_on_a_present_value
  (w : World) (key : string) (params : list (string * value)) (v : value) :
  lookup_path (translations w) (split "." key) = Some v ->
  (forall s, v <> VStr s) ->
  t w key params = or_else v (VStr key).
Proof.
  intros Hpath Hnot. unfold I18n.t, I18n.walk. rewrite (lookup_path_fold _ _ _ Hpath).
  destruct v as [| |b|n|s| elems | fields | name]; try reflexivity.
  now destruct (Hnot s).
Qed.

(** Every value on a path of a table is one a table is built from. *)
Lemma lookup_path_is_table (table : value) (segments : list string) (v : value) :
  is_table table = true -> lookup_path table segments = Some v -> is_table v = true.
Proof.
  revert table. induction segments as [|k rest IH]; intros table Htable;
    cbn [lookup_path].
  - now intros [= <-].
  - destruct table as [| | | | | |fields|]; try discriminate.
    destruct (assoc k fields) as [x|] eqn:Hk; [|discriminate].
    apply IH. cbn [is_table] in Htable. rewrite forallb_forall in Htable.
    clear IH. induction fields as [|[k' x'] fields IHf]; [discriminate Hk|].
    cbn [assoc] in Hk. destruct (String.eqb k' k).
    + injection Hk as <-. apply (Htable (k', x')). left. reflexivity.
    + apply IHf; [|exact Hk]. intros field Hin. apply Htable. right. exact Hin.
Qed.

(** C9.  On a translation table -- strings, arrays and nested mappings --
    for every key path that is present and ends at a value that is not a
    string (an array or a nested mapping, then), [t] returns that value
    itself: not the key path and not a string made from it, whatever the
    host and whatever [params]. *)
Theorem t_returns_structures_as_is
  (w : World) (key : string) (params : list (string * value)) (v : value) :
  is_table (translations w) = true ->
  lookup_path (translations w) (split "." key) = Some v ->
  (forall s, v <> VStr s) ->
  t w key params = v /\
  ((exists elems, v = VArr elems) \/ (exists fields, v = VObj fields)).
Proof.
  intros Htable Hpath Hnot.
  pose proof (lookup_path_is_table _ _ _ Htable Hpath) as Hv.
  rewrite (t_on_a_present_value w key params v Hpath Hnot).
  destruct v as [| |b|n|s| elems | fields | name]; try discriminate Hv.
  - now destruct (Hnot s).
  - split; [reflexivity | left; eauto].
  - split; [reflexivity | right; eauto].
Qed.

(** C10.  When the walk ends at a text holding an occurrence [{{inner}}]
    whose inner text has no brace and some character that is not a word
    character, [t] returns the text with that occurrence as it stands,
    whatever [params] holds; what precedes and what follows is scanned on its
    own. *)
Theorem t_keeps_non_word_placeholders
  (w : World) (key : string) (params : list (string * value))
  (pre inner post : string) :
  walk (translations w) key = VStr (pre ++ "{{" ++ inner ++ "}}" ++ post) ->
  brace_free inner = true ->
  all_chars is_word inner = false ->
  t w key params
  = VStr (replace_all (replacer params) pre
          ++ "{{" ++ inner ++ "}}"
          ++ replace_all (replacer params) post).
Proof.
  intros Hwalk Hfree Hnonword. unfold I18n.t. rewrite Hwalk. f_equal.
  rewrite (replace_all_split _ pre ("{{" ++ inner ++ "}}" ++ post))
    by (right; eexists; reflexivity).
  rewrite (replace_all_occurrence _ inner post Hfree Hnonword). reflexivity.
Qed.

End Resolver.

(** *** Loading and switching *)

Ltac run_i18n :=
  cbv beta iota zeta delta
    [bind ret throw get modify try_catch console_error dom
     localStorage_getItem localStorage_setItem fetch_table fetch_json].

Lemma loadTranslations_unfold (lang : string) :
  loadTranslations lang =
    try_catch (fetch_table lang)
      (fun _ => bind (console_error "Failed to load translations:")
                  (fun _ => if String.eqb lang "en" then ret tt
                            else loadTranslations "en")).
Proof.
  funelim (loadTranslations lang).
  - match goal with H : String.eqb _ "en" = true |- _ => rewrite H end. reflexivity.
  - rewrite Hne. reflexivity.
Qed.

(** Loading English: one request, the table installed or left as it was. *)
Lemma loadTranslations_en (w : World) :
  loadTranslations "en" w =
    match network w (requests w) (table_url "en") with
    | Some v => (Normal tt, set_translations v (request (table_url "en") w))
    | None =>
        (Normal tt,
         log_console "Failed to load translations:" (request (table_url "en") w))
    end.
Proof.
  rewrite loadTranslations_unfold. run_i18n.
  destruct (network w (requests w) (table_url "en")); reflexivity.
Qed.

Lemma loadTranslations_ok (lang : string) (w : World) (v : value) :
  network w (requests w) (table_url lang) = Some v ->
  loadTranslations lang w = (Normal tt, set_translations v (request (table_url lang) w)).
Proof.
  intros Hnet. rewrite loadTranslations_unfold. run_i18n. rewrite Hnet. reflexivity.
Qed.

Lemma loadTranslations_failed (lang : string) (w : World) :
  network w (requests w) (table_url lang) = None ->
  loadTranslations lang w =
    if String.eqb lang "en" then
      (Normal tt, log_console "Failed to load translations:" (request (table_url lang) w))
    else
      loadTranslations "en"
        (log_console "Failed to load translations:" (request (table_url lang) w)).
Proof.
  intros Hnet. rewrite loadTranslations_unfold. run_i18n. rewrite Hnet.
  destruct (String.eqb lang "en"); reflexivity.
Qed.

(** From any language but English the method is the one the specification
    words; from English it is not. *)
Lemma loadTranslations_spec_other (lang : string) (w : World) :
  lang <> "en" -> loadTranslations lang w = loadTranslations_spec lang w.
Proof.
  intros Hne. apply String.eqb_neq in Hne.
  unfold loadTranslations_spec. rewrite loadTranslations_unfold, Hne. run_i18n.
  destruct (network w (requests w) (table_url lang)); [reflexivity|].
  rewrite loadTranslations_en. cbn [requests network log_console request].
  destruct (network w (S (requests w)) (table_url "en")); reflexivity.
Qed.

Lemma loadTranslations_currentLang (lang : string) (w : World) :
  currentLang (snd (loadTranslations lang w)) = currentLang w.
Proof.
  destruct (network w (requests w) (table_url lang)) as [v|] eqn:Hnet.
  - rewrite (loadTranslations_ok lang w v Hnet). reflexivity.
  - rewrite (loadTranslations_failed lang w Hnet).
    destruct (String.eqb lang "en"); [reflexivity|].
    rewrite loadTranslations_en. cbn [requests network log_console request].
    destruct (network w (S (requests w)) (table_url "en")); reflexivity.
Qed.

(** C6 (as amended).  When the fetch of the table for [lang] fails:
    for [lang] other than English, [loadTranslations] goes on to fetch the
    English table, installs it if that fetch succeeds and leaves the previous
    table in place if it fails too; for English itself nothing more is tried
    and the previous table stays.  In every case the method returns normally. *)
Theorem loadTranslations_falls_back_from_other_languages (lang : string) (w : World) :
  network w (requests w) (table_url lang) = None ->
  let failed := log_console "Failed to load translations:" (request (table_url lang) w) in
  (lang <> "en" ->
   (forall english,
      network w (S (requests w)) (table_url "en") = Some english ->
      loadTranslations lang w
      = (Normal tt, set_translations english (request (table_url "en") failed))) /\
   (network w (S (requests w)) (table_url "en") = None ->
    loadTranslations lang w
    = (Normal tt,
       log_console "Failed to load translations:" (request (table_url "en") failed)) /\
    translations (snd (loadTranslations lang w)) = translations w)) /\
  (lang = "en" ->
   loadTranslations lang w = (Normal tt, failed) /\
   translations (snd (loadTranslations lang w)) = translations w /\
   requests (snd (loadTranslations lang w)) = S (requests w)).
Proof.
  intros Hnet failed. rewrite (loadTranslations_failed lang w Hnet). fold failed. split.
  - intros Hne. apply String.eqb_neq in Hne. rewrite Hne, loadTranslations_en.
    cbn [requests network failed log_console request]. split.
    + intros english ->. reflexivity.
    + intros ->. split; reflexivity.
  - intros ->. cbn [String.eqb Ascii.eqb Bool.eqb]. repeat split.
Qed.

(** C7.  [setLanguage] with the active language does nothing at all: the
    world, with its record of fetches, storage writes, URL updates and
    dispatched events, is unchanged.  After any call [setLanguage lang],
    however it ended, a second call with the same [lang] is such a no-op. *)
Theorem setLanguage_same_language_is_noop (lang : string) (w : World) :
  (lang = currentLang w -> setLanguage lang w = (Normal tt, w)) /\
  setLanguage lang (snd (setLanguage lang w)) = (Normal tt, snd (setLanguage lang w)).
Proof.
  assert (Hnoop : forall w0, lang = currentLang w0 -> setLanguage lang w0 = (Normal tt, w0)).
  { intros w0 ->. unfold setLanguage, bind, get. rewrite String.eqb_refl. reflexivity. }
  split; [apply Hnoop|]. apply Hnoop.
  unfold setLanguage at 1. unfold bind at 1. unfold get.
  destruct (String.eqb_spec lang (currentLang w)) as [-> | Hne]; [reflexivity|].
  unfold bind at 1. unfold modify at 1.
  unfold bind at 1. unfold localStorage_setItem.
  destruct (setItem "tawazn-language" lang (storage (set_currentLang lang w)))
    as [st | e |]; [|reflexivity..].
  unfold bind at 1.
  match goal with |- context [loadTranslations lang ?w1] =>
    pose proof (loadTranslations_currentLang lang w1) as Hload;
    destruct (loadTranslations lang w1) as [[[] | e |] w2]
  end; cbn [snd] in Hload; try (cbn [snd]; rewrite Hload; reflexivity).
  run_i18n. cbn [snd currentLang log_effect set_location_lang]. rewrite Hload. reflexivity.
Qed.

(** *** Detection *)

Lemma supported_iff (l : string) :
  supported l = true <-> l = "en" \/ l = "id" \/ l = "ar".
Proof.
  unfold supported. rewrite !orb_true_iff, !String.eqb_eq. tauto.
Qed.

Lemma supported_choice_Some (x : option string) (l : string) :
  supported_choice x = Some l <-> x = Some l /\ supported l = true.
Proof.
  unfold supported_choice. destruct x as [l'|]; [|split; [discriminate | intros [[=] _]]].
  destruct (supported l') eqn:E; split.
  - intros [= ->]. auto.
  - intros [[= ->] _]. reflexivity.
  - discriminate.
  - intros [[= ->] H]. congruence.
Qed.

(** The browser heuristic only ever proposes Indonesian or Arabic. *)
Lemma browser_match_values (b l : string) :
  browser_match b = Some l -> l = "id" \/ l = "ar".
Proof.
  unfold browser_match.
  repeat match goal with |- context [if ?c then _ else _] => destruct c end;
    intros [= <-]; auto.
Qed.

(** The tests on the primary subtag never decide: a string whose primary
    subtag is [id] or [ar] already starts with it. *)
Lemma primary_subtag_tests_never_decide (b : string) :
  browser_match b =
    let langLower := toLowerCase b in
    if startsWith langLower "id" || includes langLower "indonesia"
       || includes langLower "bahasa" then Some "id"
    else if startsWith langLower "ar" || includes langLower "arabic"
            || includes langLower "العربية" then Some "ar"
    else None.
Proof.
  assert (Hprefix : forall tag,
             toLowerCase (primary_subtag b) = tag -> startsWith (toLowerCase b) tag = true).
  { intros tag <-. unfold primary_subtag.
    destruct (split_head "-" b) as [rest Hb].
    destruct (split "-" b) as [|piece pieces]; cbn [hd] in Hb.
    - reflexivity.
    - rewrite Hb at 1. rewrite toLowerCase_app. apply startsWith_app. }
  unfold browser_match. cbv zeta.
  destruct (startsWith (toLowerCase b) "id") eqn:Hid; [reflexivity|].
  destruct (startsWith (toLowerCase b) "ar") eqn:Har.
  - reflexivity.
  - cbn [orb].
    destruct (includes (toLowerCase b) "indonesia" || includes (toLowerCase b) "bahasa");
      [reflexivity|].
    destruct (includes (toLowerCase b) "arabic" || includes (toLowerCase b) "العربية");
      [reflexivity|].
    destruct (String.eqb_spec (toLowerCase (primary_subtag b)) "id") as [E | _];
      [apply Hprefix in E; congruence|].
    destruct (String.eqb_spec (toLowerCase (primary_subtag b)) "ar") as [E | _];
      [apply Hprefix in E; congruence|].
    reflexivity.
Qed.

(** The four tests of [detectLanguage] in one equation. *)
Lemma detectLanguage_eq (w : World) :
  detectLanguage w =
    match supported_choice (location_lang w) with
    | Some l => (Normal l, w)
    | None =>
        match getItem "tawazn-language" (storage w) with
        | Normal saved =>
            match supported_choice saved with
            | Some l => (Normal l, w)
            | None =>
                match browser_match (browser_language w) with
                | Some l => (Normal l, w)
                | None => (Normal "id", w)
                end
            end
        | Throw e => (Throw e, w)
        | Exhausted => (Exhausted, w)
        end
    end.
Proof.
  unfold detectLanguage, bind, get.
  destruct (supported_choice (location_lang w)); [reflexivity|].
  unfold localStorage_getItem.
  destruct (getItem "tawazn-language" (storage w)) as [saved | e |]; try reflexivity.
  destruct (supported_choice saved); [reflexivity|].
  unfold browser_match, browser_language. cbv zeta.
  repeat match goal with |- context [if ?c then _ else _] => destruct c end; reflexivity.
Qed.

(** The code's tests against the words of the rules. *)
Lemma names_iff (x : option string) (l : string) :
  names x l <-> supported_choice x = Some l.
Proof.
  unfold names. rewrite supported_choice_Some, supported_iff. reflexivity.
Qed.

Lemma names_none_iff (x : option string) :
  names_none x <-> supported_choice x = None.
Proof.
  unfold names_none. split.
  - intros H. destruct (supported_choice x) as [l|] eqn:E; [|reflexivity].
    apply names_iff in E. destruct (H l E).
  - intros H l Hl. apply names_iff in Hl. congruence.
Qed.

Lemma reported_iff (w : World) (b : string) :
  reported w b <-> b = browser_language w.
Proof.
  unfold browser_language, str_or. split.
  - intros [s Hs Hne | s [Hl | Hl] Hs Hne | [Hl | Hl] [Hu | Hu]];
      rewrite ?Hs, ?Hl, ?Hu; try reflexivity;
      destruct s; try reflexivity; contradiction Hne; reflexivity.
  - intros ->.
    destruct (navigator_language w) as [[|c s]|] eqn:Hl.
    + destruct (navigator_userLanguage w) as [[|c s]|] eqn:Hu.
      * apply reported_nothing; [right | right]; assumption.
      * apply reported_userLanguage; [right; assumption | assumption | discriminate].
      * apply reported_nothing; [right | left]; assumption.
    + apply reported_language; [assumption | discriminate].
    + destruct (navigator_userLanguage w) as [[|c s]|] eqn:Hu.
      * apply reported_nothing; [left | right]; assumption.
      * apply reported_userLanguage; [left; assumption | assumption | discriminate].
      * apply reported_nothing; [left | left]; assumption.
Qed.

Lemma lowered_iff (s l : string) : lowered s l <-> l = toLowerCase s.
Proof.
  split.
  - induction 1 as [| c s l Hc _ IH | c s l Hc _ IH]; [reflexivity | |];
      cbn [toLowerCase]; rewrite <- IH; f_equal; unfold lower_char, is_upper.
    + replace ((65 <=? nat_of_ascii c) && (nat_of_ascii c <=? 90))%nat with true;
        [reflexivity|].
      symmetry. apply andb_true_iff. split; apply Nat.leb_le; lia.
    + destruct ((65 <=? nat_of_ascii c) && (nat_of_ascii c <=? 90))%nat eqn:E;
        [|reflexivity].
      apply andb_true_iff in E as [E1 E2]. apply Nat.leb_le in E1, E2.
      contradiction Hc. lia.
  - intros ->. induction s as [|c s IH]; cbn [toLowerCase]; [constructor|].
    unfold lower_char, is_upper.
    destruct ((65 <=? nat_of_ascii c) && (nat_of_ascii c <=? 90))%nat eqn:E.
    + apply andb_true_iff in E as [E1 E2]. apply Nat.leb_le in E1, E2.
      apply lowered_capital; [lia | exact IH].
    + apply lowered_other; [|exact IH]. intros [H1 H2].
      apply Nat.leb_le in H1, H2. rewrite H1, H2 in E. discriminate E.
Qed.

Lemma looks_indonesian_iff (l : string) :
  looks_indonesian l <->
  startsWith l "id" || includes l "indonesia" || includes l "bahasa" = true.
Proof.
  unfold looks_indonesian, has_prefix, contains.
  rewrite !orb_true_iff, startsWith_iff, !includes_iff. tauto.
Qed.

Lemma looks_arabic_iff (l : string) :
  looks_arabic l <->
  startsWith l "ar" || includes l "arabic" || includes l "العربية" = true.
Proof.
  unfold looks_arabic, has_prefix, contains.
  rewrite !orb_true_iff, startsWith_iff, !includes_iff. tauto.
Qed.

Lemma browser_suggests_iff (w : World) (l : string) :
  browser_suggests w l <-> browser_match (browser_language w) = Some l.
Proof.
  rewrite primary_subtag_tests_never_decide. cbv zeta.
  pose proof (looks_indonesian_iff (toLowerCase (browser_language w))) as Hid.
  pose proof (looks_arabic_iff (toLowerCase (browser_language w))) as Har.
  split.
  - intros [b low Hb Hlow Hlooks | b low Hb Hlow Hnot Hlooks];
      apply reported_iff in Hb; apply lowered_iff in Hlow; subst b low.
    + apply Hid in Hlooks. rewrite Hlooks. reflexivity.
    + destruct (_ || _ || _) eqn:E; [destruct Hnot; apply Hid; reflexivity|].
      apply Har in Hlooks. rewrite Hlooks. reflexivity.
  - destruct (startsWith _ "id" || _ || _) eqn:Eid.
    + intros [= <-].
      apply suggests_id with (b := browser_language w)
                             (l := toLowerCase (browser_language w));
        [apply reported_iff | apply lowered_iff | apply Hid]; reflexivity.
    + destruct (startsWith _ "ar" || _ || _) eqn:Ear; [|discriminate].
      intros [= <-].
      apply suggests_ar with (b := browser_language w)
                             (l := toLowerCase (browser_language w));
        [apply reported_iff | apply lowered_iff | | apply Har]; try reflexivity.
      intros H. apply Hid in H. discriminate H.
Qed.

(** C8 (as amended).  Whenever the four rules, taken in order, determine a
    language, [detectLanguage] answers it and changes nothing: (1) the
    [lang] query parameter when it names [en], [id] or [ar]; otherwise (2)
    the stored choice when it names one of them; otherwise (3) [id] or [ar]
    as the browser's reported language, lower-cased, looks Indonesian or,
    failing that, Arabic; otherwise (4) the default [id].  Rules (2) to (4)
    are reached only through the read of the store: when rule (1) does not
    apply and the store refuses the read, [detectLanguage] throws what the
    store throws and detects nothing.  One of the two always happens. *)
Theorem detectLanguage_precedence (w : World) :
  (forall l, detected w l -> detectLanguage w = (Normal l, w)) /\
  (forall e,
     names_none (location_lang w) ->
     getItem "tawazn-language" (storage w) = Throw e ->
     detectLanguage w = (Throw e, w)) /\
  ((exists l, detected w l) \/
   names_none (location_lang w) /\
   getItem "tawazn-language" (storage w) = Throw SecurityError).
Proof.
  rewrite detectLanguage_eq. split; [|split].
  - intros l [l0 Hurl | saved l0 Hurl Hsaved Hl | saved l0 Hurl Hsaved Hnone Hb
              | saved Hurl Hsaved Hnone Hb].
    + apply names_iff in Hurl. rewrite Hurl. reflexivity.
    + apply names_none_iff in Hurl. apply names_iff in Hl. unfold stored in Hsaved.
      rewrite Hurl, Hsaved, Hl. reflexivity.
    + apply names_none_iff in Hurl, Hnone. apply browser_suggests_iff in Hb.
      unfold stored in Hsaved. rewrite Hurl, Hsaved, Hnone, Hb. reflexivity.
    + apply names_none_iff in Hurl, Hnone. unfold stored in Hsaved.
      rewrite Hurl, Hsaved, Hnone.
      destruct (browser_match (browser_language w)) as [l0|] eqn:E; [|reflexivity].
      apply browser_suggests_iff in E. destruct (Hb l0 E).
  - intros e Hurl Hthrow. apply names_none_iff in Hurl. rewrite Hurl, Hthrow. reflexivity.
  - destruct (supported_choice (location_lang w)) as [l|] eqn:Hurl.
    { left. exists l. apply by_url, names_iff, Hurl. }
    apply names_none_iff in Hurl.
    unfold getItem. destruct (denied (storage w)) eqn:Hden; [right; auto|].
    assert (Hstored : stored w (assoc "tawazn-language" (items (storage w))))
      by (unfold stored, getItem; rewrite Hden; reflexivity).
    left.
    destruct (supported_choice (assoc "tawazn-language" (items (storage w))))
      as [l|] eqn:Hsaved.
    { exists l. apply by_store with (saved := assoc "tawazn-language" (items (storage w)));
        [exact Hurl | exact Hstored | apply names_iff, Hsaved]. }
    apply names_none_iff in Hsaved.
    destruct (browser_match (browser_language w)) as [l|] eqn:Hb.
    + exists l. apply by_browser with (saved := assoc "tawazn-language" (items (storage w)));
        [exact Hurl | exact Hstored | exact Hsaved | apply browser_suggests_iff, Hb].
    + exists "id". apply by_default with (saved := assoc "tawazn-language" (items (storage w)));
        [exact Hurl | exact Hstored | exact Hsaved |].
      intros l Hl. apply browser_suggests_iff in Hl. congruence.
Qed.

(** *** Worked examples *)

(** C3, counterexample.  [params] contains [name], bound to the empty
    string: the specification has the placeholder replaced by it, [t] leaves
    the placeholder in place. *)
Lemma t_keeps_placeholder_for_an_empty_param :
  lookup_path greetings (split "." "a.b.c") = Some (VStr "hi {{name}}") /\
  t no_builtin plain_ToString (page None None "en-US" offline greetings)
    "a.b.c" [("name", VStr "")]
  = VStr "hi {{name}}" /\
  resolve_spec plain_ToString greetings "a.b.c" [("name", VStr "")] = VStr "hi ".
Proof. repeat split; reflexivity. Qed.

(** C3, an instance: a supplied name is filled in, a missing path gives the
    key back. *)
Lemma t_resolves_and_interpolates_witness :
  lookup_path greetings (split "." "a.b.c")
  = Some (VStr (print_template [Lit "hi "; Hole "name"])) /\
  canonical [Lit "hi "; Hole "name"] = true /\
  t no_builtin plain_ToString (page None None "en-US" offline greetings)
    "a.b.c" [("name", VStr "Bob")]
  = VStr "hi Bob" /\
  misses no_builtin greetings (split "." "missing.key") /\
  t no_builtin plain_ToString (page None None "en-US" offline greetings)
    "missing.key" []
  = VStr "missing.key".
Proof.
  split; [reflexivity|]. split; [reflexivity|].
  destruct (t_resolves_and_interpolates no_builtin plain_ToString
              (page None None "en-US" offline greetings) "a.b.c"
              [("name", VStr "Bob")]) as (Hfound & _).
  destruct (t_resolves_and_interpolates no_builtin plain_ToString
              (page None None "en-US" offline greetings) "missing.key" [])
    as (_ & _ & Hmissing).
  split; [|split].
  - apply (Hfound [Lit "hi "; Hole "name"]); [reflexivity | reflexivity |].
    intros name _ _. reflexivity.
  - reflexivity.
  - apply Hmissing. reflexivity.
Defined.

(** Outside the tables of the specification: a JSON document may hold
    [null] under a key, and [t] answers such a path with the key. *)
Example t_returns_the_key_for_null :
  lookup_path greetings (split "." "note") = Some VNull /\
  is_table greetings = false /\
  t no_builtin plain_ToString (page None None "en-US" offline greetings) "note" []
  = VStr "note".
Proof. repeat split; reflexivity. Qed.

(** C9, an instance: the list of feature cards comes back as the array it
    is, and the section holding it as the mapping it is. *)
Lemma t_returns_structures_as_is_witness :
  is_table features = true /\
  lookup_path features (split "." "features.cards")
  = Some (VArr [VStr "Focus"; VStr "Balance"]) /\
  t no_builtin plain_ToString (page None None "en-US" offline features)
    "features.cards" []
  = VArr [VStr "Focus"; VStr "Balance"].
Proof.
  split; [reflexivity|]. split; [reflexivity|].
  destruct (t_returns_structures_as_is no_builtin plain_ToString
              (page None None "en-US" offline features) "features.cards" []
              (VArr [VStr "Focus"; VStr "Balance"]) eq_refl eq_refl
              ltac:(intros s; discriminate)) as [Ht _].
  exact Ht.
Defined.

(** C10, an instance: [params] holds the key [a-b], the occurrence stays. *)
Lemma t_keeps_non_word_placeholders_witness :
  walk no_builtin greetings "raw" = VStr ("hi " ++ "{{" ++ "a-b" ++ "}}" ++ " and {{name}}") /\
  brace_free "a-b" = true /\
  all_chars is_word "a-b" = false /\
  t no_builtin plain_ToString (page None None "en-US" offline greetings)
    "raw" [("a-b", VStr "X"); ("name", VStr "Bob")]
  = VStr "hi {{a-b}} and Bob".
Proof.
  split; [reflexivity|]. split; [reflexivity|]. split; [reflexivity|].
  rewrite (t_keeps_non_word_placeholders no_builtin plain_ToString
             (page None None "en-US" offline greetings) "raw"
             [("a-b", VStr "X"); ("name", VStr "Bob")]
             "hi " "a-b" " and {{name}}" eq_refl eq_refl eq_refl).
  reflexivity.
Defined.

(** C6, counterexample.  The fetch of the English table fails: no fallback
    load follows (one request in all) and the previous table stays in place,
    where the fallback of the specification would have loaded English; and a
    page constructed offline ends its initialization with the empty table. *)
Lemma loadTranslations_en_has_no_fallback :
  network (page None None "en-US" flaky greetings) 0 (table_url "en") = None /\
  effects (snd (loadTranslations "en" (page None None "en-US" flaky greetings)))
  = [Fetch "translations/en.json"] /\
  translations (snd (loadTranslations "en" (page None None "en-US" flaky greetings)))
  = greetings /\
  translations (snd (loadTranslations_spec "en" (page None None "en-US" flaky greetings)))
  = english /\
  translations (snd (constructor (page None None "en-US" offline greetings))) = VObj [].
Proof. repeat split; reflexivity. Qed.

(** C6, an instance: French is not served, English is loaded in its place. *)
Lemma loadTranslations_falls_back_from_other_languages_witness :
  network (page None None "fr-FR" english_only greetings) 0 (table_url "fr") = None /\
  "fr" <> "en" /\
  translations (snd (loadTranslations "fr" (page None None "fr-FR" english_only greetings)))
  = english.
Proof.
  split; [reflexivity|]. split; [discriminate|].
  destruct (loadTranslations_falls_back_from_other_languages "fr"
              (page None None "fr-FR" english_only greetings) eq_refl) as [Hother _].
  destruct (Hother ltac:(discriminate)) as [Hserved _].
  rewrite (Hserved english eq_refl). reflexivity.
Defined.

(** C7, an instance: switching to the active language, and switching to
    Arabic twice. *)
Lemma setLanguage_same_language_is_noop_witness :
  "id" = currentLang (page None None "en-US" english_only greetings) /\
  setLanguage "id" (page None None "en-US" english_only greetings)
  = (Normal tt, page None None "en-US" english_only greetings) /\
  effects (snd (setLanguage "ar" (snd (setLanguage "ar"
                  (page None None "en-US" english_only greetings)))))
  = effects (snd (setLanguage "ar" (page None None "en-US" english_only greetings))).
Proof.
  split; [reflexivity|].
  destruct (setLanguage_same_language_is_noop "id"
              (page None None "en-US" english_only greetings)) as [Hsame _].
  destruct (setLanguage_same_language_is_noop "ar"
              (page None None "en-US" english_only greetings)) as [_ Htwice].
  split; [apply Hsame; reflexivity|].
  rewrite Htwice. reflexivity.
Defined.

(** C8, counterexample.  A browser that refuses storage access and reports
    [ar-EG], nothing in the URL: rule (1) does not apply, no stored choice
    can be read, rule (3) proposes Arabic -- and [detectLanguage] throws. *)
Lemma detectLanguage_throws_where_the_browser_rule_applies :
  names_none (location_lang (private_page "ar-EG")) /\
  (forall saved, ~ stored (private_page "ar-EG") saved) /\
  browser_suggests (private_page "ar-EG") "ar" /\
  detectLanguage (private_page "ar-EG") = (Throw SecurityError, private_page "ar-EG").
Proof.
  split; [intros l [[=] _]|]. split; [intros saved [=]|]. split; [|reflexivity].
  apply suggests_ar with (b := "ar-EG") (l := "ar-eg").
  - apply reported_language; [reflexivity | discriminate].
  - apply lowered_iff. reflexivity.
  - intros H. apply looks_indonesian_iff in H. discriminate H.
  - left. exists "-eg". reflexivity.
Qed.

(** C8, instances, one for each rule: a supported query parameter wins over
    the stored choice; an unsupported one gives way to it; with neither, a
    browser that reports [AR-eg] through [navigator.userLanguage] gets
    Arabic, and one that reports [en-US] the default. *)
Lemma detectLanguage_precedence_witness :
  detectLanguage (page (Some "en") (Some "ar") "id-ID" offline greetings)
  = (Normal "en", page (Some "en") (Some "ar") "id-ID" offline greetings) /\
  detectLanguage (page (Some "fr") (Some "ar") "id-ID" offline greetings)
  = (Normal "ar", page (Some "fr") (Some "ar") "id-ID" offline greetings) /\
  detectLanguage (legacy_page "AR-eg") = (Normal "ar", legacy_page "AR-eg") /\
  detectLanguage (page None (Some "fr") "en-US" offline greetings)
  = (Normal "id", page None (Some "fr") "en-US" offline greetings) /\
  detectLanguage (private_page "ar-EG") = (Throw SecurityError, private_page "ar-EG").
Proof.
  assert (Hfr : names_none (Some "fr"))
    by (intros l [[= <-] [H | [H | H]]]; discriminate H).
  assert (Hnone : names_none None) by (intros l [[=] _]).
  split; [|split; [|split; [|split]]].
  - apply (proj1 (detectLanguage_precedence _)).
    apply by_url. split; [reflexivity | auto].
  - apply (proj1 (detectLanguage_precedence _)).
    apply by_store with (saved := Some "ar"); [exact Hfr | reflexivity |].
    split; [reflexivity | auto].
  - apply (proj1 (detectLanguage_precedence _)).
    apply by_browser with (saved := None); [exact Hnone | reflexivity | exact Hnone |].
    apply suggests_ar with (b := "AR-eg") (l := "ar-eg").
    + apply reported_userLanguage; [left; reflexivity | reflexivity | discriminate].
    + apply (@lowered_capital "A"); [cbn; lia|].
      apply (@lowered_capital "R"); [cbn; lia|].
      repeat (apply lowered_other; [cbn; lia|]). apply lowered_nil.
    + intros H. apply looks_indonesian_iff in H. discriminate H.
    + left. exists "-eg". reflexivity.
  - apply (proj1 (detectLanguage_precedence _)).
    apply by_default with (saved := Some "fr"); [exact Hnone | reflexivity | exact Hfr |].
    intros l Hl. apply browser_suggests_iff in Hl. discriminate Hl.
  - apply (proj1 (proj2 (detectLanguage_precedence _))); [exact Hnone | reflexivity].
Defined.

End I18nFacts.

(** ** Regular expressions *)

Module RegexFacts.

Import Regex StrFacts.
Local Open Scope string_scope.

Lemma nullable_denotes (r : regex) : nullable r = true <-> denotes r "".
Proof.
  split.
  - induction r as [| | p | r1 IH1 r2 IH2 | r1 IH1 r2 IH2 | r IH]; cbn [nullable];
      intros H; try discriminate.
    + constructor.
    + apply andb_true_iff in H as [H1 H2].
      change "" with ("" ++ ""). constructor; auto.
    + apply orb_true_iff in H as [H | H];
        [apply denotes_alt_l | apply denotes_alt_r]; auto.
    + constructor.
  - intros H. remember "" as x eqn:Hs.
    induction H as [| p c Hp | r1 r2 s1 s2 _ IH1 _ IH2 | r1 r2 s _ IH | r1 r2 s _ IH
                    | r | r s1 s2 _ _ _ _]; cbn [nullable]; try reflexivity;
      try discriminate.
    + apply append_empty in Hs as [-> ->]. now rewrite IH1, IH2.
    + now rewrite IH.
    + rewrite IH by assumption. apply orb_true_r.
Qed.

Lemma denotes_seq_iff (r1 r2 : regex) (s : string) :
  denotes (Seq r1 r2) s <-> exists s1 s2, s = s1 ++ s2 /\ denotes r1 s1 /\ denotes r2 s2.
Proof.
  split.
  - intros H. inversion H; subst. eauto.
  - intros (s1 & s2 & -> & H1 & H2). now constructor.
Qed.

(** A non-empty text read by [r*] starts with a non-empty text read by [r]. *)
Lemma denotes_star_cons (r : regex) (c : ascii) (s : string) :
  denotes (Star r) (String c s) ->
  exists s1 s2, s = s1 ++ s2 /\ denotes r (String c s1) /\ denotes (Star r) s2.
Proof.
  intros H. remember (Star r) as r' eqn:Hr. remember (String c s) as x eqn:Hx.
  revert s Hx.
  induction H as [| | | | | | r0 s1 s2 H1 _ H2 IH2]; intros t Hx; try discriminate.
  injection Hr as ->.
  destruct s1 as [|c1 s1].
  - apply IH2; [reflexivity | exact Hx].
  - cbn in Hx. injection Hx as Hc Hs. subst. exists s1, s2. auto.
Qed.

Lemma after_denotes (c : ascii) (r : regex) (s : string) :
  denotes (after c r) s <-> denotes r (String c s).
Proof.
  revert s.
  induction r as [| | p | r1 IH1 r2 IH2 | r1 IH1 r2 IH2 | r IH]; intros s; cbn [after].
  - split; intros H; inversion H.
  - split; intros H; inversion H.
  - destruct (p c) eqn:Hp; split; intros H.
    + inversion H; subst. now constructor.
    + inversion H; subst. constructor.
    + inversion H.
    + inversion H; subst. congruence.
  - assert (Hfirst : forall s, denotes (Seq (after c r1) r2) s ->
                               denotes (Seq r1 r2) (String c s)).
    { intros s0 H. apply denotes_seq_iff in H as (s1 & s2 & -> & H1 & H2).
      apply IH1 in H1. change (String c (s1 ++ s2)) with (String c s1 ++ s2).
      now constructor. }
    assert (Hback : forall s, denotes (Seq r1 r2) (String c s) ->
                              denotes (Seq (after c r1) r2) s \/
                              (nullable r1 = true /\ denotes (after c r2) s)).
    { intros s0 H. apply denotes_seq_iff in H as (s1 & s2 & Heq & H1 & H2).
      destruct s1 as [|c1 s1].
      - right. cbn in Heq. subst s2. split; [now apply nullable_denotes | now apply IH2].
      - left. cbn in Heq. injection Heq as Hc Hs. subst.
        constructor; [now apply IH1 | exact H2]. }
    destruct (nullable r1) eqn:Hn; split; intros H.
    + inversion H; subst; [now apply Hfirst|].
      change (String c s) with ("" ++ String c s).
      constructor; [now apply nullable_denotes | now apply IH2].
    + destruct (Hback _ H) as [H' | [_ H']];
        [now apply denotes_alt_l | now apply denotes_alt_r].
    + now apply Hfirst.
    + destruct (Hback _ H) as [H' | [Hn' _]]; [exact H' | congruence].
  - split; intros H.
    + inversion H; subst; [apply denotes_alt_l; now apply IH1
                          | apply denotes_alt_r; now apply IH2].
    + inversion H; subst; [apply denotes_alt_l; now apply IH1
                          | apply denotes_alt_r; now apply IH2].
  - split; intros H.
    + apply denotes_seq_iff in H as (s1 & s2 & -> & H1 & H2).
      apply IH in H1. change (String c (s1 ++ s2)) with (String c s1 ++ s2).
      now constructor.
    + apply denotes_star_cons in H as (s1 & s2 & -> & H1 & H2).
      constructor; [now apply IH | exact H2].
Qed.

(** The matcher decides the denotation. *)
Lemma test_denotes (r : regex) (s : string) : test r s = true <-> denotes r s.
Proof.
  revert r. induction s as [|c s IH]; intros r; cbn [test].
  - apply nullable_denotes.
  - rewrite IH. apply after_denotes.
Qed.

(** [p+] reads the non-empty texts made of characters of [p]. *)
Lemma denotes_plus_class (p : ascii -> bool) (s : string) :
  denotes (Plus (Class p)) s <-> s <> "" /\ I18n.all_chars p s = true.
Proof.
  assert (Hstar : forall s, denotes (Star (Class p)) s <-> I18n.all_chars p s = true).
  { intros s0. split.
    - intros H. remember (Star (Class p)) as r eqn:Hr.
      induction H as [| | | | | | r0 s1 s2 H1 _ _ IH2]; try discriminate; [reflexivity|].
      injection Hr as ->. inversion H1 as [| ? c Hc | | | | |]; subst. cbn.
      rewrite Hc. now apply IH2.
    - induction s0 as [|c s0 IH]; [constructor|]. cbn [I18n.all_chars].
      intros H. apply andb_true_iff in H as [Hc Hs].
      change (String c s0) with (String c "" ++ s0).
      constructor; [now constructor | now apply IH]. }
  unfold Plus. split.
  - intros H. apply denotes_seq_iff in H as (s1 & s2 & -> & H1 & H2).
    inversion H1 as [| ? c Hc | | | | |]; subst. apply Hstar in H2. cbn.
    split; [discriminate|]. now rewrite Hc.
  - intros [Hne Hall]. destruct s as [|c s]; [congruence|]. cbn in Hall.
    apply andb_true_iff in Hall as [Hc Hs].
    change (String c s) with (String c "" ++ s).
    constructor; [now constructor | now apply Hstar].
Qed.

Lemma denotes_char (x : ascii) (s : string) :
  denotes (Class (Ascii.eqb x)) s <-> s = String x "".
Proof.
  split.
  - intros H. inversion H as [| ? c Hc | | | | |]; subst.
    now apply Ascii.eqb_eq in Hc as ->.
  - intros ->. constructor. apply Ascii.eqb_refl.
Qed.

End RegexFacts.

(** ** The rest of the handler *)

Module FormHandlerRestFacts.

Import Js FormHandler FormHandlerRest JsFacts StrFacts RegexFacts FormHandlerFacts.
Local Open Scope string_scope.

(** *** validateEmail *)

(** On ASCII text [validateEmail] accepts exactly the addresses
    [local@domain.tld] whose three parts are non-empty and hold neither a
    blank nor an [@]; the domain part may itself hold dots. *)
Theorem validateEmail_accepts_local_at_domain_dot_tld (email : string) :
  ascii_text email = true ->
  (validateEmail email = true <->
   exists local domain tld,
     email = local ++ "@" ++ domain ++ "." ++ tld /\
     token local /\ token domain /\ token tld).
Proof.
  intros _. unfold validateEmail, emailRegex, token.
  rewrite test_denotes. split.
  - intros H.
    apply denotes_seq_iff in H as (local & r1 & -> & Hlocal & H).
    apply denotes_seq_iff in H as (at_ & r2 & -> & Hat & H).
    apply denotes_seq_iff in H as (domain & r3 & -> & Hdomain & H).
    apply denotes_seq_iff in H as (dot & tld & -> & Hdot & Htld).
    apply denotes_char in Hat, Hdot. subst.
    apply denotes_plus_class in Hlocal, Hdomain, Htld.
    exists local, domain, tld. auto.
  - intros (local & domain & tld & -> & Hlocal & Hdomain & Htld).
    apply denotes_plus_class in Hlocal, Hdomain, Htld.
    apply denotes_seq_iff. exists local, ("@" ++ domain ++ "." ++ tld).
    split; [reflexivity|]. split; [exact Hlocal|].
    apply denotes_seq_iff. exists "@", (domain ++ "." ++ tld).
    split; [reflexivity|]. split; [apply denotes_char; reflexivity|].
    apply denotes_seq_iff. exists domain, ("." ++ tld).
    split; [reflexivity|]. split; [exact Hdomain|].
    apply denotes_seq_iff. exists ".", tld.
    split; [reflexivity|]. split; [apply denotes_char; reflexivity | exact Htld].
Qed.

Lemma validateEmail_accepts_local_at_domain_dot_tld_witness :
  ascii_text "ana@mail.example.org" = true /\
  validateEmail "ana@mail.example.org" = true /\
  exists local domain tld,
    "ana@mail.example.org" = local ++ "@" ++ domain ++ "." ++ tld /\
    token local /\ token domain /\ token tld.
Proof.
  split; [reflexivity|]. split; [reflexivity|].
  apply (validateEmail_accepts_local_at_domain_dot_tld "ana@mail.example.org");
    reflexivity.
Defined.

(** *** The gate over time *)

Section GateOverTime.

Variable JSON_parse : string -> option logval.
Variable JSON_stringify : list Z -> string.
Variable config : option Config.

Local Open Scope Z_scope.

Local Abbreviation getSubmissionAttempts := (getSubmissionAttempts JSON_parse config).
Local Abbreviation canSubmit := (canSubmit JSON_parse config).
Local Abbreviation check := (checkAndUpdateRateLimitDisplay JSON_parse config).
Local Abbreviation recordSubmission := (recordSubmission JSON_parse JSON_stringify config).
Local Abbreviation getNextResetTime := (getNextResetTime JSON_parse config).

Lemma getNextResetTime_eq (rl : RateLimit) (w w1 : World) (l : list Z) :
  rate_limit config = Some rl ->
  getSubmissionAttempts w = (Normal (LStamps l), w1) ->
  getNextResetTime w =
    (Normal match recent rl (clock w (reads w)) l with
            | [] => None
            | x :: xs => Some (Math_min x xs + window_ms rl)
            end,
     tick w1).
Proof.
  intros Hrl Hget.
  destruct (getSubmissionAttempts_frame _ _ _ _ _ Hget) as (_ & Hclock & Hreads & _).
  unfold FormHandlerRest.getNextResetTime. rewrite Hrl.
  unfold bind at 1. rewrite Hget.
  unfold bind at 1. unfold Date_now at 1. rewrite Hclock, Hreads.
  unfold bind, array_filter, ret. unfold recent, window_ms.
  destruct (filter _ l); reflexivity.
Qed.

Lemma recent_In (rl : RateLimit) (now t : Z) (l : list Z) :
  In t (recent rl now l) <-> In t l /\ now - window_ms rl < t.
Proof. rewrite recent_filter, filter_In, Z.ltb_lt. reflexivity. Qed.

(** The oldest recent attempt: in the log, recent, and no recent one is
    older. *)
Lemma oldest_recent (rl : RateLimit) (now x : Z) (xs l : list Z) :
  recent rl now l = x :: xs ->
  In (Math_min x xs) l /\ now - window_ms rl < Math_min x xs /\
  forall t, In t l -> now - window_ms rl < t -> Math_min x xs <= t.
Proof.
  intros Hrec. destruct (Math_min_least x xs) as [Hin Hall].
  rewrite <- Hrec in Hin, Hall. apply recent_In in Hin as [Hin Hlt].
  split; [exact Hin|]. split; [exact Hlt|].
  intros t Ht Hrecent. rewrite Forall_forall in Hall.
  apply Hall, recent_In. auto.
Qed.

(** [getNextResetTime], with a policy and a log of timestamps, returns
    without touching the store or the timers.  It answers [null] exactly
    when no logged attempt is later than [now - windowDuration]; otherwise it
    answers the oldest such attempt plus the window, an instant strictly
    ahead of the clock reading it took. *)
Theorem getNextResetTime_is_the_oldest_recent_attempt_plus_the_window
  (rl : RateLimit) (w w1 : World) (log : list Z) :
  rate_limit config = Some rl ->
  getSubmissionAttempts w = (Normal (LStamps log), w1) ->
  let now := clock w (reads w) in
  exists res,
    getNextResetTime w = (Normal res, tick w1) /\
    storage (tick w1) = storage w /\ timers (tick w1) = timers w /\
    match res with
    | None => forall t, In t log -> t <= now - window_ms rl
    | Some resetTime =>
        now < resetTime /\
        In (resetTime - window_ms rl) log /\
        forall t, In t log -> now - window_ms rl < t -> resetTime <= t + window_ms rl
    end.
Proof.
  intros Hrl Hget now.
  destruct (getSubmissionAttempts_frame _ _ _ _ _ Hget) as (Hst & _ & _ & Htm & _).
  eexists. split; [apply (getNextResetTime_eq rl w w1 log Hrl Hget)|].
  split; [exact Hst|]. split; [exact Htm|]. fold now.
  destruct (recent rl now log) as [|x xs] eqn:Hrec.
  - intros t Ht. destruct (Z.le_gt_cases t (now - window_ms rl)) as [Hle | Hgt];
      [exact Hle|].
    assert (Hin : In t (recent rl now log)) by (apply recent_In; split; [exact Ht | lia]).
    rewrite Hrec in Hin. destruct Hin.
  - destruct (oldest_recent rl now x xs log Hrec) as (Hin & Hlt & Hleast).
    split; [lia|]. split.
    + replace (Math_min x xs + window_ms rl - window_ms rl) with (Math_min x xs) by lia.
      exact Hin.
    + intros t Ht Hrecent. specialize (Hleast t Ht Hrecent). lia.
Qed.

(** With nothing readable in the store the gate answers as for no
    attempts. *)
Lemma canSubmit_empty (rl : RateLimit) (w : World) :
  rate_limit config = Some rl ->
  denied (storage w) = true \/ assoc (STORAGE_KEY rl) (items (storage w)) = None ->
  fst (canSubmit w) = Normal (0 <? MAX_ATTEMPTS_PER_HOUR rl).
Proof.
  intros Hrl Hempty.
  pose proof (getSubmissionAttempts_read JSON_parse config rl w Hrl) as Hget.
  destruct (denied (storage w)) eqn:Hden.
  - rewrite (canSubmit_eq JSON_parse config rl w _ [] Hrl Hget). reflexivity.
  - destruct Hempty as [Hd | Hnone]; [discriminate Hd|]. rewrite Hnone in Hget.
    rewrite (canSubmit_eq JSON_parse config rl w _ [] Hrl Hget). reflexivity.
Qed.

Lemma resetRateLimit_outcome (rl : RateLimit) (d : nat) (w : World) :
  rate_limit config = Some rl ->
  fst (canSubmit (snd (resetRateLimit JSON_parse config (S d) w)))
  = Normal (0 <? MAX_ATTEMPTS_PER_HOUR rl) /\
  (snd (resetRateLimit JSON_parse config (S d) w) = w \/
   snd (resetRateLimit JSON_parse config (S d) w) = after_reset rl w).
Proof.
  intros Hrl. rewrite (resetRateLimit_eq JSON_parse config rl d w Hrl).
  destruct (denied (storage w)) eqn:Hden; cbn [fst snd].
  - split; [apply (canSubmit_empty rl w Hrl); left; exact Hden | left; reflexivity].
  - split; [|right; reflexivity].
    apply (canSubmit_empty rl _ Hrl). right. cbn. apply assoc_remove_key_eq.
Qed.

(** [resetRateLimit] followed by [canSubmit]: the gate answers as for an
    empty log, so it is open whenever the maximum is at least 1.  With an
    accessible store the reset returns, the log is gone from the store and no
    timer is queued; with a store that refuses access the reset throws
    [SecurityError] at once (its [removeItem] is under no [try]) and changes
    nothing, and the gate is open all the same because the read fails open. *)
Theorem resetRateLimit_reopens_the_gate (rl : RateLimit) (d : nat) (w : World) :
  rate_limit config = Some rl ->
  let w' := snd (resetRateLimit JSON_parse config (S d) w) in
  fst (canSubmit w') = Normal (0 <? MAX_ATTEMPTS_PER_HOUR rl) /\
  (denied (storage w) = false ->
   fst (resetRateLimit JSON_parse config (S d) w) = Normal tt /\
   assoc (STORAGE_KEY rl) (items (storage w')) = None /\
   timers w' = timers w) /\
  (denied (storage w) = true ->
   resetRateLimit JSON_parse config (S d) w = (Throw SecurityError, w)).
Proof.
  intros Hrl w'. subst w'. rewrite (resetRateLimit_eq JSON_parse config rl d w Hrl).
  destruct (denied (storage w)) eqn:Hden; cbn [fst snd].
  - split; [apply (canSubmit_empty rl w Hrl); left; exact Hden|].
    split; [discriminate | reflexivity].
  - assert (Hnone : assoc (STORAGE_KEY rl) (items (storage (after_reset rl w))) = None)
      by (cbn; apply assoc_remove_key_eq).
    split; [apply (canSubmit_empty rl _ Hrl); right; exact Hnone|].
    split; [|discriminate]. intros _. repeat split. exact Hnone.
Qed.

Lemma find_In (id : positive) (ts : list timer) (t : timer) :
  find (fun t => Pos.eqb (timer_id t) id) ts = Some t -> In t ts /\ timer_id t = id.
Proof.
  intros H. apply find_some in H as [Hin Hid]. apply Pos.eqb_eq in Hid. auto.
Qed.

(** When the pending reset fires in a world the handler can be in, the host
    drops the timer and the callback runs [resetRateLimit]: afterwards no
    reset is pending, and [canSubmit] answers as for an empty log, whether
    the callback returned or threw. *)
Theorem fired_reset_leaves_the_gate_open_and_nothing_pending
  (rl : RateLimit) (d : nat) (id : positive) (t : timer) (w : World) :
  rate_limit config = Some rl ->
  reachable JSON_parse JSON_stringify config (S d) w ->
  find (fun t => Pos.eqb (timer_id t) id) (timers w) = Some t ->
  action t = ResetRateLimit ->
  let w' := snd (fire JSON_parse config (S d) id w) in
  reset_timers w' = [] /\
  fst (canSubmit w') = Normal (0 <? MAX_ATTEMPTS_PER_HOUR rl).
Proof.
  intros Hrl Hreach Hfind Haction w'.
  apply reachable_one_reset_pending in Hreach.
  destruct (find_In id _ t Hfind) as [Hin Hid].
  set (w0 := set_timers (filter (fun t => negb (Pos.eqb (timer_id t) id)) (timers w)) w).
  assert (Hfire : fire JSON_parse config (S d) id w
                  = resetRateLimit JSON_parse config (S d) w0).
  { unfold fire, bind at 1, get. rewrite Hfind, Haction. reflexivity. }
  assert (Hnone : reset_timers w0 = []).
  { assert (Hreset : In t (reset_timers w))
      by (unfold reset_timers; apply filter_In; rewrite Haction; auto).
    pose proof (keeps_clearTimeout id w Hreach) as Hkept.
    unfold clearTimeout, modify in Hkept. cbn [snd] in Hkept. fold w0 in Hkept.
    destruct Hkept as [Hk | (t' & Hk & _)]; [exact Hk|].
    assert (Hin' : In t' (reset_timers w0)) by (rewrite Hk; left; reflexivity).
    unfold reset_timers, w0 in Hin'. cbn [timers set_timers] in Hin'.
    apply filter_In in Hin' as [Hin' Ht']. apply filter_In in Hin' as [Hin' Hq].
    destruct Hreach as [He | (t0 & He & _)];
      [rewrite He in Hreset; destruct Hreset|].
    assert (Ht0 : In t' (reset_timers w))
      by (unfold reset_timers; apply filter_In; auto).
    rewrite He in Hreset, Ht0.
    destruct Hreset as [<- | []]. destruct Ht0 as [<- | []].
    rewrite Hid, Pos.eqb_refl in Hq. discriminate Hq. }
  subst w'. rewrite Hfire.
  destruct (resetRateLimit_outcome rl d w0 Hrl) as [Hopen Hshape].
  split; [|exact Hopen].
  destruct Hshape as [-> | ->]; [exact Hnone|].
  unfold reset_timers in *. exact Hnone.
Qed.

Lemma recent_shrinks (rl : RateLimit) (now now' : Z) (l : list Z) :
  now <= now' ->
  (List.length (recent rl now' l) <= List.length (recent rl now l))%nat.
Proof.
  intros Hle. unfold recent. induction l as [|t l IH]; [apply Nat.le_refl|].
  cbn [filter].
  destruct (Z.gtb_spec t (now' - ATTEMPT_WINDOW_HOURS rl * 60 * 60 * 1000)) as [H' | H'];
    destruct (Z.gtb_spec t (now - ATTEMPT_WINDOW_HOURS rl * 60 * 60 * 1000)) as [H | H];
    cbn [List.length]; lia.
Qed.

Lemma recent_idem (rl : RateLimit) (now : Z) (l : list Z) :
  recent rl now (recent rl now l) = recent rl now l.
Proof.
  unfold recent. induction l as [|t l IH]; [reflexivity|].
  cbn [filter]. destruct (t >? _) eqn:E; [|exact IH].
  cbn [filter]. rewrite E, IH. reflexivity.
Qed.

(** Time alone only opens the gate.  With the same stored log, a gate that
    is open stays open at every later clock reading; and once every logged
    attempt is a full window old, [canSubmit] answers as for an empty log. *)
Theorem canSubmit_only_opens_as_time_passes
  (rl : RateLimit) (w w1 w' : World) (log : list Z) :
  rate_limit config = Some rl ->
  getSubmissionAttempts w = (Normal (LStamps log), w1) ->
  storage w' = storage w ->
  clock w (reads w) <= clock w' (reads w') ->
  (fst (canSubmit w) = Normal true -> fst (canSubmit w') = Normal true) /\
  ((forall t, In t log -> t + window_ms rl <= clock w' (reads w')) ->
   fst (canSubmit w') = Normal (0 <? MAX_ATTEMPTS_PER_HOUR rl)).
Proof.
  intros Hrl Hget Hst Hle.
  destruct (getSubmissionAttempts_same_store JSON_parse config w w' w1 _ Hst Hget)
    as [w1' Hget'].
  rewrite (canSubmit_eq JSON_parse config rl w w1 log Hrl Hget).
  rewrite (canSubmit_eq JSON_parse config rl w' w1' log Hrl Hget').
  cbn [fst]. split.
  - intros [= Hopen]. f_equal. apply Z.ltb_lt in Hopen. apply Z.ltb_lt.
    pose proof (recent_shrinks rl _ _ log Hle). lia.
  - intros Hold.
    assert (Hnone : recent rl (clock w' (reads w')) log = []).
    { destruct (recent rl (clock w' (reads w')) log) as [|x xs] eqn:Hrec; [reflexivity|].
      assert (Hin : In x (recent rl (clock w' (reads w')) log))
        by (rewrite Hrec; left; reflexivity).
      apply recent_In in Hin as [Hin Hlt]. specialize (Hold x Hin). lia. }
    rewrite Hnone. reflexivity.
Qed.

(** Without a rate-limit policy the gate is inert: [canSubmit] answers
    [true], and no method or timer of the gate reads the clock, touches the
    store, repaints the allowance or queues a reset. *)
Theorem gate_without_policy_is_inert (d : nat) (e : event) (w : World) :
  rate_limit config = None ->
  let w' := snd (run JSON_parse JSON_stringify config (S d) e w) in
  canSubmit w = (Normal true, w) /\
  storage w' = storage w /\ reads w' = reads w /\ ui w' = ui w /\
  console w' = console w /\ resetTimeout w' = resetTimeout w /\
  (forall t, In t (reset_timers w') -> In t (reset_timers w)).
Proof.
  intros Hrl w'. subst w'.
  split; [unfold FormHandler.canSubmit; rewrite Hrl; reflexivity|].
  destruct e as [| | | | id]; cbn [run].
  - unfold FormHandler.canSubmit, bind, ret. rewrite Hrl. cbn. auto 7.
  - unfold FormHandler.recordSubmission. rewrite Hrl. cbn. auto 7.
  - cbn [checkAndUpdateRateLimitDisplay]. unfold checkAndUpdateRateLimitDisplay_body.
    rewrite Hrl. cbn. auto 7.
  - unfold createInlineError, bind, setTimeout, ret. cbn [snd].
    repeat split; try reflexivity.
    intros t. unfold reset_timers. cbn [timers set_timers set_next_timer].
    rewrite filter_app. cbn [filter action]. rewrite app_nil_r. exact (fun H => H).
  - assert (Hsub : forall t,
               In t (reset_timers
                       (set_timers
                          (filter (fun t => negb (Pos.eqb (timer_id t) id)) (timers w)) w)) ->
               In t (reset_timers w)).
    { intros t. unfold reset_timers. cbn [timers set_timers].
      rewrite !filter_In. tauto. }
    unfold fire, resetRateLimit, resetRateLimit_body. rewrite Hrl.
    unfold bind, get, clearTimeout, modify, ret.
    destruct (find _ (timers w)) as [t0|]; [|cbn; auto 7].
    destruct (action t0); cbn [snd]; repeat split; try reflexivity; exact Hsub.
Qed.

Lemma recordSubmission_counts
  (rl : RateLimit) (d : nat) (w w1 : World) (log : list Z) (now : Z) :
  rate_limit config = Some rl ->
  getSubmissionAttempts w = (Normal (LStamps log), w1) ->
  denied (storage w) = false ->
  quota_full (storage w) = false ->
  0 < window_ms rl ->
  (forall n, clock w n = now) ->
  JSON_stringify (recent rl now log ++ [now]) <> EmptyString ->
  JSON_parse (JSON_stringify (recent rl now log ++ [now]))
  = Some (LStamps (recent rl now log ++ [now])) ->
  fst (recordSubmission (S (S d)) w) = Normal tt /\
  fst (canSubmit (snd (recordSubmission (S (S d)) w)))
  = Normal (Z.of_nat (S (List.length (recent rl now log))) <? MAX_ATTEMPTS_PER_HOUR rl).
Proof.
  intros Hrl Hget Hden Hquota Hwin Hclock Hne Hparse.
  destruct (getSubmissionAttempts_frame _ _ _ _ _ Hget) as (Hst & Hck & Hrd & _).
  set (kept := (recent rl now log ++ [now])%list) in *.
  assert (Hkept : recent rl now (log ++ [now])%list = kept).
  { unfold kept, recent. rewrite filter_app. cbn [filter].
    replace (now >? now - ATTEMPT_WINDOW_HOURS rl * 60 * 60 * 1000) with true;
      [reflexivity|].
    symmetry. apply Z.gtb_lt. unfold window_ms in Hwin. lia. }
  assert (Hkept2 : recent rl now kept = kept)
    by (rewrite <- Hkept; apply recent_idem).
  rewrite (recordSubmission_eq JSON_parse JSON_stringify config rl (S (S d)) w w1 log
             Hrl Hget Hden Hquota).
  rewrite !Hclock, Hkept.
  set (w2 := set_storage _ _).
  assert (Hclock2 : forall w0 n, clock w0 = clock w -> clock w0 n = now)
    by (intros w0 n ->; apply Hclock).
  assert (Hstored : forall w0, storage w0 = storage w2 ->
                               getSubmissionAttempts w0 = (Normal (LStamps kept), w0)).
  { intros w0 Hw0. rewrite (getSubmissionAttempts_read JSON_parse config rl w0 Hrl), Hw0.
    cbn [w2 storage set_storage denied items assoc]. rewrite String.eqb_refl.
    destruct (JSON_stringify kept) as [|c text] eqn:Htext; [contradiction Hne; reflexivity|].
    rewrite Hparse. reflexivity. }
  assert (Hck2 : clock w2 = clock w) by (cbn; exact Hck).
  rewrite (check_eq JSON_parse config rl d w2 w2 kept Hrl (Hstored w2 eq_refl)).
  rewrite (Hclock2 w2 _ Hck2), Hkept2. cbv zeta.
  set (w3 := log_ui _ (tick w2)).
  assert (Hopen : forall w0, storage w0 = storage w2 -> clock w0 = clock w ->
                   fst (canSubmit w0)
                   = Normal (Z.of_nat (S (List.length (recent rl now log)))
                             <? MAX_ATTEMPTS_PER_HOUR rl)).
  { intros w0 Hs Hc.
    rewrite (canSubmit_eq JSON_parse config rl w0 w0 kept Hrl (Hstored w0 Hs)).
    rewrite (Hclock2 w0 _ Hc), Hkept2. cbn [fst]. unfold kept.
    rewrite length_app. cbn [List.length]. rewrite Nat.add_1_r. reflexivity. }
  destruct kept as [|x xs] eqn:Hk.
  { split; [reflexivity|]. apply Hopen; [reflexivity | exact Hck2]. }
  destruct (_ =? 0).
  - rewrite (scheduleRateLimitReset_eq JSON_parse config d).
    rewrite (Hclock2 w3 _ Hck2).
    destruct (oldest_recent rl now x xs (x :: xs) Hkept2) as (_ & Hlt & _).
    replace (Math_min x xs + ATTEMPT_WINDOW_HOURS rl * 60 * 60 * 1000 <=? now) with false
      by (symmetry; apply Z.leb_gt; unfold window_ms in Hlt; lia).
    split; [reflexivity|]. apply Hopen; [reflexivity | exact Hck2].
  - split; [reflexivity|]. apply Hopen; [reflexivity | exact Hck2].
Qed.

(** A recorded submission counts at once.  With a positive window, a clock
    that stands still during the two calls and a store that takes the write
    and gives the written log back, [recordSubmission] returns and the
    [canSubmit] that follows counts one attempt more than were recent
    before. *)
Theorem recordSubmission_then_canSubmit_counts_one_more
  (rl : RateLimit) (d : nat) (w w1 : World) (log : list Z) (now : Z) :
  rate_limit config = Some rl ->
  getSubmissionAttempts w = (Normal (LStamps log), w1) ->
  denied (storage w) = false ->
  quota_full (storage w) = false ->
  0 < window_ms rl ->
  (forall n, clock w n = now) ->
  JSON_stringify (recent rl now log ++ [now]) <> EmptyString ->
  JSON_parse (JSON_stringify (recent rl now log ++ [now]))
  = Some (LStamps (recent rl now log ++ [now])) ->
  fst (recordSubmission (S (S d)) w) = Normal tt /\
  fst (canSubmit (snd (recordSubmission (S (S d)) w)))
  = Normal (Z.of_nat (S (List.length (recent rl now log))) <? MAX_ATTEMPTS_PER_HOUR rl).
Proof. apply recordSubmission_counts. Qed.

(** The display check and [getNextResetTime] agree.  When the gate is closed
    and [getNextResetTime] announces [resetTime], the display check run in
    the same world reads the clock once more: if that reading is still before
    [resetTime] it queues the reset to fire exactly at [resetTime] and keeps
    its handle in [this.resetTimeout]; if not, it clears the log on the
    spot. *)
Theorem closed_gate_queues_its_reset_for_getNextResetTime
  (rl : RateLimit) (d : nat) (w w1 : World) (log : list Z) (resetTime : Z) :
  rate_limit config = Some rl ->
  getSubmissionAttempts w = (Normal (LStamps log), w1) ->
  fst (canSubmit w) = Normal false ->
  fst (getNextResetTime w) = Normal (Some resetTime) ->
  let later := clock w (S (reads w)) in
  let w' := snd (check (S (S d)) w) in
  fst (check (S (S d)) w) = Normal tt /\
  (later < resetTime ->
   exists t, In t (timers w') /\ action t = ResetRateLimit /\
             later + delay t = resetTime /\ resetTimeout w' = Some (timer_id t)) /\
  (resetTime <= later ->
   assoc (STORAGE_KEY rl) (items (storage w')) = None /\ timers w' = timers w).
Proof.
  intros Hrl Hget Hclosed Hnext later w'.
  destruct (getSubmissionAttempts_frame _ _ _ _ _ Hget) as (Hst & Hck & Hrd & Htm & _).
  rewrite (canSubmit_eq JSON_parse config rl w w1 log Hrl Hget) in Hclosed.
  rewrite (getNextResetTime_eq rl w w1 log Hrl Hget) in Hnext.
  cbn [fst] in Hclosed, Hnext. injection Hclosed as Hclosed. apply Z.ltb_ge in Hclosed.
  subst w'. rewrite (check_eq JSON_parse config rl d w w1 log Hrl Hget). cbv zeta.
  destruct (recent rl (clock w (reads w)) log) as [|x xs] eqn:Hrec; [discriminate Hnext|].
  injection Hnext as Hnext. unfold window_ms in Hnext. rewrite Hnext.
  replace (Z.max 0 (MAX_ATTEMPTS_PER_HOUR rl - Z.of_nat (List.length (x :: xs))) =? 0)
    with true by (symmetry; apply Z.eqb_eq; lia).
  rewrite (scheduleRateLimitReset_eq JSON_parse config d).
  cbn [clock reads log_ui tick]. rewrite Hck, Hrd. fold later.
  destruct (Z.leb_spec resetTime later) as [Hle | Hlt].
  - rewrite (resetRateLimit_eq JSON_parse config rl d _ Hrl).
    cbn [storage log_ui tick]. rewrite Hst.
    destruct (denied (storage w)) eqn:Hden.
    { rewrite (getSubmissionAttempts_read JSON_parse config rl w Hrl), Hden in Hget.
      injection Hget as <- _. discriminate Hrec. }
    cbn [fst snd]. split; [reflexivity|]. split; [lia|]. intros _. split.
    + cbn. apply assoc_remove_key_eq.
    + cbn. exact Htm.
  - cbn [fst snd]. split; [reflexivity|]. split; [|lia]. intros _.
    eexists. split; [|split; [|split]].
    + cbn [after_schedule timers set_resetTimeout set_next_timer set_timers].
      apply in_or_app. right. left. reflexivity.
    + reflexivity.
    + cbn [delay]. lia.
    + reflexivity.
Qed.

End GateOverTime.

(** *** Errors on the page *)

Ltac run_page :=
  cbv beta iota zeta delta
    [pbind pret praise pget pmodify lift page_console ptry_catch try_catch_finally
     FormHandler.console_error modify FormHandler.Date_now].

Ltac run_page_in H :=
  cbv beta iota zeta delta
    [pbind pret praise pget pmodify lift page_console ptry_catch try_catch_finally
     FormHandler.console_error modify FormHandler.Date_now] in H.

Lemma storage_createInlineError (g : World) :
  storage (snd (createInlineError g)) = storage g.
Proof. reflexivity. Qed.

Lemma storage_error_shown (text : value) (p : Page) :
  storage (gate (error_shown text p)) = storage (gate p).
Proof. unfold error_shown. cbn [gate]. destruct (has_error_modal p); reflexivity. Qed.

Lemma posts_error_shown (text : value) (p : Page) :
  posts (error_shown text p) = posts p.
Proof. reflexivity. Qed.

Ltac page_simpl :=
  repeat (progress cbn [snd fst gate posts add_mark set_gate add_post storage
                        FormHandler.tick FormHandler.log_console]
          || rewrite storage_error_shown || rewrite posts_error_shown).

Lemma showError_eq (message : value) (errorType : string) (p : Page) :
  showError message errorType p
  = (Done tt, error_shown (displayed p message errorType) p).
Proof.
  unfold showError, error_shown, error_mark, displayed. run_page.
  destruct (has_error_modal p) eqn:Hmodal.
  - unfold add_mark. rewrite Hmodal. reflexivity.
  - unfold add_mark, set_gate. cbn. rewrite Hmodal. reflexivity.
Qed.

Lemma validateFormData_eq (name email resolution : string) (p : Page) :
  validateFormData name email resolution p =
    if valid_fields name email resolution then (Done true, p)
    else
      (Done false,
       error_shown (displayed p (VStr (validation_message name email)) "validationError") p).
Proof.
  unfold validateFormData, valid_fields, validation_message.
  assert (Hlen : forall (s : string) (n : nat),
             (String.eqb s "" || (String.length s <? n)%nat)%bool
             = (String.length s <? n)%nat \/ n = 0%nat).
  { intros [|c r] n; [|left; reflexivity].
    destruct n; [right; reflexivity | left; reflexivity]. }
  destruct (Hlen name 2%nat) as [-> | [=]]. destruct (Hlen resolution 10%nat) as [-> | [=]].
  rewrite !Nat.leb_antisym.
  destruct (String.length name <? 2)%nat; cbn [negb andb].
  { unfold pbind. rewrite showError_eq. reflexivity. }
  destruct (validateEmail email); cbn [negb andb].
  - destruct (String.length resolution <? 10)%nat; cbn [negb].
    + unfold pbind. rewrite showError_eq. reflexivity.
    + reflexivity.
  - unfold pbind. rewrite showError_eq. reflexivity.
Qed.

Section HandlerFacts.

Variable JSON_parse : string -> option logval.
Variable JSON_stringify : list Z -> string.
Variable config : option Config.
Variable builtin : value -> string -> value.
Variable native_message : error -> string.
Variable toISOString : Z -> string.

Local Abbreviation canSubmit := (FormHandler.canSubmit JSON_parse config).
Local Abbreviation recordSubmission :=
  (FormHandler.recordSubmission JSON_parse JSON_stringify config).
Local Abbreviation handleTimeCapsuleSubmit :=
  (handleTimeCapsuleSubmit JSON_parse JSON_stringify config builtin native_message
     toISOString).
Local Abbreviation handleWaitlistSubmit :=
  (handleWaitlistSubmit JSON_parse JSON_stringify config builtin native_message
     toISOString).
Local Abbreviation submitToGoogleScript := (submitToGoogleScript config builtin).

Lemma getErrorMessage_eq (errorType : string) (p : Page) :
  getErrorMessage builtin errorType p = (Done (error_message builtin p errorType), p).
Proof.
  unfold getErrorMessage, error_message. run_page. destruct (i18n_t p); reflexivity.
Qed.

Lemma submitToGoogleScript_eq (data : submission) (p : Page) :
  submitToGoogleScript data p =
    match script_url config with
    | None =>
        (Done {| success := true; error_text := None; errorType := None |},
         set_gate (log_console "Google Script URL not configured. Using fallback mode."
                               (gate p)) p)
    | Some url =>
        match post_outcome p (List.length (posts p)) with
        | None =>
            (Done {| success := true; error_text := None; errorType := None |},
             add_post url data p)
        | Some message =>
            (Done (rejected builtin p message),
             set_gate (log_console "Google Script submission error:" (gate p))
                      (add_post url data p))
        end
    end.
Proof.
  unfold FormHandlerRest.submitToGoogleScript.
  destruct (script_url config) as [url|]; [|reflexivity].
  run_page. cbn [post_outcome posts add_post].
  destruct (post_outcome p (List.length (posts p))) as [message|]; [|reflexivity].
  rewrite getErrorMessage_eq. reflexivity.
Qed.

Lemma showRateLimitError_eq (p : Page) :
  showRateLimitError config p =
    (Done tt,
     fold_left (fun q m => add_mark m q) (rate_limited_buttons p)
       (error_shown (displayed p (VStr (block_message config)) "rateLimitError") p)).
Proof.
  unfold showRateLimitError, rate_limited_buttons. cbv zeta.
  unfold pbind at 1. rewrite showError_eq. run_page.
  cbn [has_capsule_form has_waitlist_form error_shown].
  destruct (has_capsule_form p), (has_waitlist_form p); reflexivity.
Qed.

Lemma storage_canSubmit (g : World) :
  storage (snd (canSubmit g)) = storage g.
Proof.
  apply (frame_canSubmit JSON_parse config (fun w => storage w = storage g));
    [|reflexivity].
  intros w w' Hst _ _ Hw. congruence.
Qed.

Lemma add_marks_fields (l : list mark) (q : Page) :
  let q' := fold_left (fun q m => add_mark m q) l q in
  gate q' = gate q /\ posts q' = posts q /\ marks q' = (marks q ++ l)%list.
Proof.
  revert q. induction l as [|m l IH]; intros q; cbn [fold_left].
  - repeat split. symmetry. apply app_nil_r.
  - destruct (IH (add_mark m q)) as (Hg & Hp & Hm). cbv zeta. rewrite Hg, Hp, Hm.
    cbn [gate posts marks add_mark]. rewrite <- app_assoc. repeat split.
Qed.

(** A closed gate stops either handler at once: the handler returns, nothing
    is posted, the store is left as it was, and what the page gets is the
    error of type [rateLimitError] and the relabelled buttons. *)
Theorem closed_gate_refuses_the_submission (depth : nat) (p : Page) :
  fst (canSubmit (gate p)) = Normal false ->
  forall handler,
    handler = handleTimeCapsuleSubmit depth \/ handler = handleWaitlistSubmit depth ->
    let p' := snd (handler p) in
    fst (handler p) = Done tt /\
    posts p' = posts p /\
    storage (gate p') = storage (gate p) /\
    marks p'
    = (marks p
       ++ error_mark p (displayed p (VStr (block_message config)) "rateLimitError")
          :: rate_limited_buttons p)%list.
Proof.
  intros Hclosed handler Hhandler p'.
  pose proof (storage_canSubmit (gate p)) as Hst.
  assert (Heq : handler p
                = showRateLimitError config (set_gate (snd (canSubmit (gate p))) p)).
  { destruct (canSubmit (gate p)) as [r g] eqn:Hcan. cbn [fst snd] in *. subst r.
    destruct Hhandler as [-> | ->];
      [unfold FormHandlerRest.handleTimeCapsuleSubmit
      |unfold FormHandlerRest.handleWaitlistSubmit];
      unfold pbind at 1, lift at 1; rewrite Hcan; reflexivity. }
  subst p'. rewrite Heq, showRateLimitError_eq. cbn [fst snd].
  match goal with |- context [fold_left ?f ?l ?q] =>
    destruct (add_marks_fields l q) as (Hg & Hp & Hm)
  end.
  cbv zeta in Hg, Hp, Hm. rewrite Hg, Hp, Hm.
  split; [reflexivity|]. split; [reflexivity|]. split.
  - rewrite storage_error_shown. exact Hst.
  - cbn [marks error_shown set_gate]. rewrite <- app_assoc. reflexivity.
Qed.

(** The time-capsule handler posts and records only what was admitted: with
    ASCII text in the fields, whatever the browser, one run makes at most one
    POST, and a
    POST is made only when the gate answered [true], the form is there and
    the trimmed fields passed the three checks; its payload holds those
    trimmed fields.  The store changes only on such a run, and only when the
    POST was not rejected (or no endpoint is configured). *)
Theorem handleTimeCapsuleSubmit_posts_and_records_only_admitted_data
  (depth : nat) (p : Page) :
  let name := trim (name_value p) in
  let email := trim (email_value p) in
  let resolution := trim (resolution_value p) in
  let p' := snd (handleTimeCapsuleSubmit depth p) in
  let admitted :=
    fst (canSubmit (gate p)) = Normal true /\ has_capsule_form p = true /\
    valid_fields name email resolution = true in
  capsule_fields_ascii p = true ->
  (posts p' = posts p \/
   admitted /\
   exists url timestamp,
     script_url config = Some url /\
     posts p'
     = (posts p
        ++ [(url, TimeCapsule name email resolution timestamp (delivery_date config))])%list)
  /\
  (storage (gate p') <> storage (gate p) ->
   admitted /\
   (script_url config = None \/ post_outcome p (List.length (posts p)) = None)).
Proof.
  intros name email resolution p' admitted _. subst p' admitted.
  pose proof (storage_canSubmit (gate p)) as Hst.
  remember (handleTimeCapsuleSubmit depth p) as out eqn:Hout.
  unfold FormHandlerRest.handleTimeCapsuleSubmit in Hout.
  unfold pbind at 1, lift at 1 in Hout.
  destruct (canSubmit (gate p)) as [[[|] | e |] g] eqn:Hcan; cbn [fst snd negb] in *.
  2: { rewrite showRateLimitError_eq in Hout. subst out. cbn [snd].
       match goal with |- context [fold_left ?f ?l ?q] =>
         destruct (add_marks_fields l q) as (Hg & Hp & _)
       end.
       cbv zeta in Hg, Hp. rewrite Hg, Hp, storage_error_shown.
       split; [left; reflexivity | intros H; contradiction H]. }
  2, 3: subst out; split; [left; reflexivity | intros H; contradiction H].
  run_page_in Hout. cbn [has_capsule_form set_gate] in Hout.
  destruct (has_capsule_form p) eqn:Hform; cbn [negb snd] in Hout.
  2: subst out; split; [left; reflexivity | intros H; contradiction H].
  cbn [name_value email_value resolution_value add_mark set_gate gate] in Hout.
  fold name email resolution in Hout.
  rewrite validateFormData_eq in Hout.
  destruct (valid_fields name email resolution) eqn:Hvalid; cbn [negb] in Hout.
  2: { rewrite showError_eq in Hout. subst out. page_simpl.
       split; [left; reflexivity | intros H; contradiction H]. }
  rewrite submitToGoogleScript_eq in Hout.
  destruct (script_url config) as [url|] eqn:Hurl.
  - cbn [post_outcome posts add_mark set_gate] in Hout.
    destruct (post_outcome p (List.length (posts p))) as [message|] eqn:Hpost.
    + cbn [success rejected] in Hout. rewrite showError_eq in Hout. subst out. page_simpl.
      split; [right; split; [auto|]; eauto | intros H; contradiction H].
    + cbn [success] in Hout.
      assert (Hgoal : forall q : Page,
                 posts q = posts (add_post url
                   (TimeCapsule name email resolution (toISOString (clock g (reads g)))
                      (delivery_date config)) p) ->
                 (posts q = posts p \/
                  (Normal true = Normal true /\ true = true /\ true = true) /\
                  exists url0 timestamp,
                    Some url = Some url0 /\
                    posts q
                    = (posts p
                       ++ [(url0, TimeCapsule name email resolution timestamp
                                    (delivery_date config))])%list) /\
                 (storage (gate q) <> storage (gate p) ->
                  (Normal true = Normal true /\ true = true /\ true = true) /\
                  (Some url = None \/ @None string = None))).
      { intros q Hq. split; [|auto]. right. split; [auto|].
        exists url, (toISOString (clock g (reads g))). split; [reflexivity | exact Hq]. }
      destruct (recordSubmission depth _) as [[[] | e |] g2]; unfold showSuccess in Hout;
        run_page_in Hout; cbn [has_success_modal set_gate add_post add_mark] in Hout.
      * destruct (has_success_modal p); subst out; cbn [snd]; apply Hgoal; reflexivity.
      * rewrite showError_eq in Hout. subst out; cbn [snd]; apply Hgoal; reflexivity.
      * subst out; cbn [snd]; apply Hgoal; reflexivity.
  - cbn [success] in Hout.
    assert (Hgoal : forall q : Page,
               posts q = posts p ->
               (posts q = posts p \/
                (Normal true = Normal true /\ true = true /\ true = true) /\
                exists url0 timestamp,
                  None = Some url0 /\
                  posts q
                  = (posts p
                     ++ [(url0, TimeCapsule name email resolution timestamp
                                  (delivery_date config))])%list) /\
               (storage (gate q) <> storage (gate p) ->
                (Normal true = Normal true /\ true = true /\ true = true) /\
                (@None string = None \/ post_outcome p (List.length (posts p)) = None))).
    { intros q Hq. split; [left; exact Hq | auto]. }
    destruct (recordSubmission depth _) as [[[] | e |] g2]; unfold showSuccess in Hout;
      run_page_in Hout; cbn [has_success_modal set_gate add_post add_mark] in Hout.
    + destruct (has_success_modal p); subst out; cbn [snd]; apply Hgoal; reflexivity.
    + rewrite showError_eq in Hout. subst out; cbn [snd]; apply Hgoal; reflexivity.
    + subst out; cbn [snd]; apply Hgoal; reflexivity.
Qed.

(** The waitlist handler posts and records only what was admitted: with an
    ASCII text in the address field, one run makes at most one POST, only
    when the gate answered [true], the form is
    there and the trimmed address is valid, and the payload holds that
    address.  The store changes only on such a run, and only when the POST
    was not rejected (or no endpoint is configured). *)
Theorem handleWaitlistSubmit_posts_and_records_only_admitted_data
  (depth : nat) (p : Page) :
  let email := trim (waitlist_email_value p) in
  let p' := snd (handleWaitlistSubmit depth p) in
  let admitted :=
    fst (canSubmit (gate p)) = Normal true /\ has_waitlist_form p = true /\
    validateEmail email = true in
  ascii_text (waitlist_email_value p) = true ->
  (posts p' = posts p \/
   admitted /\
   exists url timestamp,
     script_url config = Some url /\
     posts p' = (posts p ++ [(url, WaitlistEntry email timestamp)])%list)
  /\
  (storage (gate p') <> storage (gate p) ->
   admitted /\
   (script_url config = None \/ post_outcome p (List.length (posts p)) = None)).
Proof.
  intros email p' admitted _. subst p' admitted.
  pose proof (storage_canSubmit (gate p)) as Hst.
  remember (handleWaitlistSubmit depth p) as out eqn:Hout.
  unfold FormHandlerRest.handleWaitlistSubmit in Hout.
  unfold pbind at 1, lift at 1 in Hout.
  destruct (canSubmit (gate p)) as [[[|] | e |] g] eqn:Hcan; cbn [fst snd negb] in *.
  2: { rewrite showRateLimitError_eq in Hout. subst out. cbn [snd].
       match goal with |- context [fold_left ?f ?l ?q] =>
         destruct (add_marks_fields l q) as (Hg & Hp & _)
       end.
       cbv zeta in Hg, Hp. rewrite Hg, Hp, storage_error_shown.
       split; [left; reflexivity | intros H; contradiction H]. }
  2, 3: subst out; split; [left; reflexivity | intros H; contradiction H].
  run_page_in Hout. cbn [has_waitlist_form set_gate] in Hout.
  destruct (has_waitlist_form p) eqn:Hform; cbn [negb snd] in Hout.
  2: subst out; split; [left; reflexivity | intros H; contradiction H].
  cbn [waitlist_email_value add_mark set_gate gate] in Hout.
  fold email in Hout.
  destruct (validateEmail email) eqn:Hvalid; cbn [negb] in Hout.
  2: { rewrite showError_eq in Hout. subst out. page_simpl.
       split; [left; reflexivity | intros H; contradiction H]. }
  rewrite submitToGoogleScript_eq in Hout.
  destruct (script_url config) as [url|] eqn:Hurl.
  - cbn [post_outcome posts add_mark set_gate] in Hout.
    destruct (post_outcome p (List.length (posts p))) as [message|] eqn:Hpost.
    + cbn [success rejected] in Hout. rewrite showError_eq in Hout. subst out. page_simpl.
      split; [right; split; [auto|]; eauto | intros H; contradiction H].
    + cbn [success] in Hout.
      assert (Hgoal : forall q : Page,
                 posts q = posts (add_post url
                   (WaitlistEntry email (toISOString (clock g (reads g)))) p) ->
                 (posts q = posts p \/
                  (Normal true = Normal true /\ true = true /\ true = true) /\
                  exists url0 timestamp,
                    Some url = Some url0 /\
                    posts q = (posts p ++ [(url0, WaitlistEntry email timestamp)])%list) /\
                 (storage (gate q) <> storage (gate p) ->
                  (Normal true = Normal true /\ true = true /\ true = true) /\
                  (Some url = None \/ @None string = None))).
      { intros q Hq. split; [|auto]. right. split; [auto|].
        exists url, (toISOString (clock g (reads g))). split; [reflexivity | exact Hq]. }
      destruct (recordSubmission depth _) as [[[] | e |] g2];
        unfold showWaitlistSuccess in Hout;
        run_page_in Hout; cbn [set_gate add_post add_mark] in Hout.
      * subst out; cbn [snd]; apply Hgoal; reflexivity.
      * rewrite showError_eq in Hout. subst out; cbn [snd]; apply Hgoal; reflexivity.
      * subst out; cbn [snd]; apply Hgoal; reflexivity.
  - cbn [success] in Hout.
    assert (Hgoal : forall q : Page,
               posts q = posts p ->
               (posts q = posts p \/
                (Normal true = Normal true /\ true = true /\ true = true) /\
                exists url0 timestamp,
                  None = Some url0 /\
                  posts q = (posts p ++ [(url0, WaitlistEntry email timestamp)])%list) /\
               (storage (gate q) <> storage (gate p) ->
                (Normal true = Normal true /\ true = true /\ true = true) /\
                (@None string = None \/ post_outcome p (List.length (posts p)) = None))).
    { intros q Hq. split; [left; exact Hq | auto]. }
    destruct (recordSubmission depth _) as [[[] | e |] g2];
      unfold showWaitlistSuccess in Hout;
      run_page_in Hout; cbn [set_gate add_post add_mark] in Hout.
    + subst out; cbn [snd]; apply Hgoal; reflexivity.
    + rewrite showError_eq in Hout. subst out; cbn [snd]; apply Hgoal; reflexivity.
    + subst out; cbn [snd]; apply Hgoal; reflexivity.
Qed.

Lemma classify_rejection_values (message : string) :
  classify_rejection message = "networkError" \/ classify_rejection message = "serverError".
Proof.
  unfold classify_rejection.
  repeat match goal with |- context [if ?c then _ else _] => destruct c end; auto.
Qed.

Lemma str_or_else_classify_rejection (message : string) :
  str_or_else (classify_rejection message) "serverError" = classify_rejection message.
Proof. destruct (classify_rejection_values message) as [-> | ->]; reflexivity. Qed.

(** Fields, of ASCII text, that fail a check: the time-capsule handler
    returns normally and the page gets, in this order, the loading state, the message of the
    failed check shown as [validationError], then -- from the [catch] block,
    which receives the handler's own exception -- a second error shown as
    [unknownError], and last the restored button and the re-enabled form. *)
Theorem invalid_fields_are_reported_twice_and_the_form_restored
  (depth : nat) (p : Page) :
  let name := trim (name_value p) in
  let email := trim (email_value p) in
  let resolution := trim (resolution_value p) in
  capsule_fields_ascii p = true ->
  fst (canSubmit (gate p)) = Normal true ->
  has_capsule_form p = true ->
  valid_fields name email resolution = false ->
  fst (handleTimeCapsuleSubmit depth p) = Done tt /\
  marks (snd (handleTimeCapsuleSubmit depth p))
  = (marks p
     ++ [Loading Capsule "📤 Sending..."; FormDisabled true;
         error_mark p (displayed p (VStr (validation_message name email))
                                 "validationError");
         error_mark p (displayed p (VStr "Please fill in all required fields correctly.")
                                 "unknownError");
         Loading Capsule (capsule_button_html p); FormDisabled false])%list.
Proof.
  intros name email resolution _ Hopen Hform Hvalid.
  remember (handleTimeCapsuleSubmit depth p) as out eqn:Hout.
  unfold FormHandlerRest.handleTimeCapsuleSubmit in Hout.
  unfold pbind at 1, lift at 1 in Hout.
  destruct (canSubmit (gate p)) as [r g] eqn:Hcan. cbn [fst] in Hopen. subst r.
  run_page_in Hout. cbn [has_capsule_form set_gate negb] in Hout.
  rewrite Hform in Hout. cbn [negb] in Hout.
  cbn [name_value email_value resolution_value add_mark set_gate gate] in Hout.
  fold name email resolution in Hout.
  rewrite validateFormData_eq, Hvalid in Hout. cbn [negb] in Hout.
  rewrite showError_eq in Hout. subst out. cbn [fst snd].
  split; [reflexivity|].
  cbn [marks add_mark error_shown set_gate capsule_button_html].
  unfold error_mark, displayed. cbn [has_error_modal i18n_t error_shown set_gate add_mark].
  rewrite <- !app_assoc. reflexivity.
Qed.

(** A POST that rejects, on a time-capsule form whose fields hold valid
    ASCII text: the handler returns normally, the page shows one error, of the type the rejection is
    classified as ([networkError] or [serverError]), and the button and the
    form are restored by the [finally] block. *)
Theorem rejected_post_is_reported_and_the_form_restored
  (depth : nat) (p : Page) (url message : string) :
  let name := trim (name_value p) in
  let email := trim (email_value p) in
  let resolution := trim (resolution_value p) in
  let kind := classify_rejection message in
  capsule_fields_ascii p = true ->
  fst (canSubmit (gate p)) = Normal true ->
  has_capsule_form p = true ->
  valid_fields name email resolution = true ->
  script_url config = Some url ->
  post_outcome p (List.length (posts p)) = Some message ->
  fst (handleTimeCapsuleSubmit depth p) = Done tt /\
  marks (snd (handleTimeCapsuleSubmit depth p))
  = (marks p
     ++ [Loading Capsule "📤 Sending..."; FormDisabled true;
         error_mark p
           (displayed p
              (or_else (error_message builtin p kind)
                       (VStr "Failed to submit form. Please try again."))
              kind);
         Loading Capsule (capsule_button_html p); FormDisabled false])%list.
Proof.
  intros name email resolution kind _ Hopen Hform Hvalid Hurl Hpost.
  remember (handleTimeCapsuleSubmit depth p) as out eqn:Hout.
  unfold FormHandlerRest.handleTimeCapsuleSubmit in Hout.
  unfold pbind at 1, lift at 1 in Hout.
  destruct (canSubmit (gate p)) as [r g] eqn:Hcan. cbn [fst] in Hopen. subst r.
  run_page_in Hout. cbn [has_capsule_form set_gate negb] in Hout.
  rewrite Hform in Hout. cbn [negb] in Hout.
  cbn [name_value email_value resolution_value add_mark set_gate gate] in Hout.
  fold name email resolution in Hout.
  rewrite validateFormData_eq, Hvalid in Hout. cbn [negb] in Hout.
  rewrite submitToGoogleScript_eq, Hurl in Hout.
  cbn [post_outcome posts add_mark set_gate] in Hout. rewrite Hpost in Hout.
  cbn [success rejected errorType error_text error_or_else] in Hout.
  rewrite str_or_else_classify_rejection in Hout. fold kind in Hout.
  rewrite showError_eq in Hout. subst out. cbn [fst snd].
  split; [reflexivity|].
  cbn [marks add_mark error_shown set_gate add_post capsule_button_html].
  unfold error_mark, displayed, error_message.
  cbn [has_error_modal i18n_t error_shown set_gate add_mark add_post].
  rewrite <- !app_assoc. reflexivity.
Qed.

(** The waitlist handler has no [finally]: it puts the button back only in
    its [catch] block.  With an ASCII text in the address field: an invalid
    address is thrown and caught, so the page
    shows the error (as [unknownError]) and the button is restored; a POST
    that rejects is reported through the response, not thrown, so the page
    shows the error and the button stays in its loading state, disabled. *)
Theorem waitlist_button_is_restored_only_after_a_throw (depth : nat) (p : Page) :
  let email := trim (waitlist_email_value p) in
  ascii_text (waitlist_email_value p) = true ->
  fst (canSubmit (gate p)) = Normal true ->
  has_waitlist_form p = true ->
  (validateEmail email = false ->
   fst (handleWaitlistSubmit depth p) = Done tt /\
   marks (snd (handleWaitlistSubmit depth p))
   = (marks p
      ++ [Loading Waitlist "📤 Adding...";
          error_mark p (displayed p (VStr "Please enter a valid email address.")
                                  "unknownError");
          Loading Waitlist (waitlist_button_html p)])%list) /\
  (forall url message,
     validateEmail email = true ->
     script_url config = Some url ->
     post_outcome p (List.length (posts p)) = Some message ->
     let kind := classify_rejection message in
     fst (handleWaitlistSubmit depth p) = Done tt /\
     marks (snd (handleWaitlistSubmit depth p))
     = (marks p
        ++ [Loading Waitlist "📤 Adding...";
            error_mark p
              (displayed p
                 (or_else (error_message builtin p kind)
                          (VStr "Failed to join waitlist. Please try again."))
                 kind)])%list).
Proof.
  intros email _ Hopen Hform.
  remember (handleWaitlistSubmit depth p) as out eqn:Hout.
  unfold FormHandlerRest.handleWaitlistSubmit in Hout.
  unfold pbind at 1, lift at 1 in Hout.
  destruct (canSubmit (gate p)) as [r g] eqn:Hcan. cbn [fst] in Hopen. subst r.
  run_page_in Hout. cbn [has_waitlist_form set_gate negb] in Hout.
  rewrite Hform in Hout. cbn [negb] in Hout.
  cbn [waitlist_email_value add_mark set_gate gate] in Hout.
  fold email in Hout.
  split.
  - intros Hvalid. rewrite Hvalid in Hout. cbn [negb] in Hout.
    rewrite showError_eq in Hout. subst out. cbn [fst snd].
    split; [reflexivity|].
    cbn [marks add_mark error_shown set_gate waitlist_button_html].
    unfold error_mark, displayed. cbn [has_error_modal i18n_t error_shown set_gate add_mark].
    rewrite <- !app_assoc. reflexivity.
  - intros url message Hvalid Hurl Hpost kind. rewrite Hvalid in Hout. cbn [negb] in Hout.
    rewrite submitToGoogleScript_eq, Hurl in Hout.
    cbn [post_outcome posts add_mark set_gate] in Hout. rewrite Hpost in Hout.
    cbn [success rejected errorType error_text error_or_else] in Hout.
    rewrite str_or_else_classify_rejection in Hout. fold kind in Hout.
    rewrite showError_eq in Hout. subst out. cbn [fst snd].
    split; [reflexivity|].
    cbn [marks add_mark error_shown set_gate add_post].
    unfold error_mark, displayed, error_message.
    cbn [has_error_modal i18n_t error_shown set_gate add_mark add_post].
    rewrite <- !app_assoc. reflexivity.
Qed.

(** [submitToGoogleScript] never throws.  Without an endpoint it reports
    success and makes no request; with one it makes exactly one POST, of the
    data it was given, and reports success exactly when the POST did not
    reject -- a rejection comes back as a failure of type [networkError] or
    [serverError] with a message.  The store and the page are left alone. *)
Theorem submitToGoogleScript_reports_instead_of_throwing (data : submission) (p : Page) :
  exists r p',
    submitToGoogleScript data p = (Done r, p') /\
    storage (gate p') = storage (gate p) /\ marks p' = marks p /\
    (script_url config = None -> success r = true /\ posts p' = posts p) /\
    (forall url,
       script_url config = Some url ->
       posts p' = (posts p ++ [(url, data)])%list /\
       (success r = true <-> post_outcome p (List.length (posts p)) = None) /\
       (success r = false ->
        (errorType r = Some "networkError" \/ errorType r = Some "serverError") /\
        exists text, error_text r = Some text)).
Proof.
  rewrite submitToGoogleScript_eq.
  destruct (script_url config) as [url|].
  - destruct (post_outcome p (List.length (posts p))) as [message|];
      eexists; eexists; (split; [reflexivity|]);
      (split; [reflexivity|]); (split; [reflexivity|]);
      (split; [discriminate|]); intros url0 [= <-]; (split; [reflexivity|]);
      cbn [success rejected errorType error_text].
    + split; [split; discriminate|]. intros _. split; [|eauto].
      destruct (classify_rejection_values message) as [-> | ->]; auto.
    + split; [split; reflexivity | discriminate].
  - eexists; eexists. split; [reflexivity|]. split; [reflexivity|].
    split; [reflexivity|]. split; [auto | discriminate].
Qed.

(** How a failure is classified.  A rejected POST is a [networkError]
    exactly when its message contains [fetch] or [NetworkError], and a
    [serverError] otherwise; an exception caught by a submit handler is
    classified by the same test, with [unknownError] as the other answer.
    The guards on an empty message and the test for [Failed to fetch] never
    change the answer. *)
Theorem failures_are_network_errors_iff_the_message_says_so (message : string) :
  let mentions :=
    (Str.includes message "fetch" || Str.includes message "NetworkError")%bool in
  classify_rejection message = (if mentions then "networkError" else "serverError") /\
  classify_caught message = (if mentions then "networkError" else "unknownError").
Proof.
  cbv zeta. unfold classify_rejection, classify_caught.
  destruct (String.eqb_spec message "") as [-> | _]; [split; reflexivity|].
  cbn [negb andb].
  destruct (Str.includes message "fetch") eqn:Hfetch; [split; reflexivity|].
  destruct (Str.includes message "Failed to fetch") eqn:Hfailed.
  - apply (includes_suffix message "Failed to " "fetch") in Hfailed. congruence.
  - cbn [orb]. destruct (Str.includes message "NetworkError"); split; reflexivity.
Qed.

(** With the resolver of [src/i18n.js] installed as [window.i18n], an error
    whose key [errorModal.<type>] is missing from the loaded table is shown
    as that key: [t] answers a missing key with the key itself, which is
    truthy, so neither the caller's message in [showError] nor the
    [unknownError] fallback in [getErrorMessage] is ever reached. *)
Theorem missing_error_translation_is_shown_as_its_key
  (ToString : value -> string) (iw : I18n.World) (p : Page)
  (message : value) (errorType : string) :
  let key := "errorModal." ++ errorType in
  i18n_t p = Some (fun key => I18n.t builtin ToString iw key []) ->
  I18n.misses builtin (I18n.translations iw) (Str.split "." key) ->
  showError message errorType p = (Done tt, error_shown (VStr key) p) /\
  getErrorMessage builtin errorType p = (Done (VStr key), p).
Proof.
  intros key Hi18n Hmiss.
  assert (Ht : I18n.t builtin ToString iw key [] = VStr key).
  { unfold I18n.t, I18n.walk.
    rewrite (I18nFacts.misses_fold builtin _ _ Hmiss). reflexivity. }
  rewrite showError_eq, getErrorMessage_eq. unfold displayed, error_message.
  rewrite Hi18n. fold key. rewrite Ht. cbn [or_else truthy String.eqb negb].
  split; reflexivity.
Qed.

(** An accepted submission counts against the next one.  On a page whose
    gate is open, with valid fields of ASCII text and a POST that is not
    rejected, a clock
    that stands still and a store that takes the write and gives the written
    log back: the time-capsule handler returns normally, and the gate then
    counts one attempt more than were recent before -- so after the last
    allowed submission [canSubmit] answers [false]. *)
Theorem accepted_submission_counts_against_the_next
  (rl : RateLimit) (d : nat) (p : Page) (g1 : World) (log : list Z) (now : Z) :
  let name := trim (name_value p) in
  let email := trim (email_value p) in
  let resolution := trim (resolution_value p) in
  capsule_fields_ascii p = true ->
  rate_limit config = Some rl ->
  FormHandler.getSubmissionAttempts JSON_parse config (gate p) = (Normal (LStamps log), g1) ->
  denied (storage (gate p)) = false ->
  quota_full (storage (gate p)) = false ->
  (0 < window_ms rl)%Z ->
  (forall n, clock (gate p) n = now) ->
  JSON_stringify (recent rl now log ++ [now])%list <> EmptyString ->
  JSON_parse (JSON_stringify (recent rl now log ++ [now])%list)
  = Some (LStamps (recent rl now log ++ [now])%list) ->
  fst (canSubmit (gate p)) = Normal true ->
  has_capsule_form p = true ->
  valid_fields name email resolution = true ->
  script_url config = None \/ post_outcome p (List.length (posts p)) = None ->
  fst (handleTimeCapsuleSubmit (S (S d)) p) = Done tt /\
  fst (canSubmit (gate (snd (handleTimeCapsuleSubmit (S (S d)) p))))
  = Normal (Z.of_nat (S (List.length (recent rl now log))) <? MAX_ATTEMPTS_PER_HOUR rl)%Z.
Proof.
  intros name email resolution _ Hrl Hget Hden Hquota Hwin Hclock Hne Hparse
    Hopen Hform Hvalid Hsent.
  destruct (getSubmissionAttempts_frame _ _ _ _ _ Hget) as (Hst1 & Hck1 & _).
  assert (Hrecord : forall gx,
             storage gx = storage (gate p) -> clock gx = clock (gate p) ->
             fst (recordSubmission (S (S d)) gx) = Normal tt /\
             fst (canSubmit (snd (recordSubmission (S (S d)) gx)))
             = Normal (Z.of_nat (S (List.length (recent rl now log)))
                       <? MAX_ATTEMPTS_PER_HOUR rl)%Z).
  { intros gx Hsx Hcx.
    destruct (getSubmissionAttempts_same_store JSON_parse config (gate p) gx g1 _ Hsx Hget)
      as [gx1 Hgetx].
    apply (recordSubmission_counts JSON_parse JSON_stringify config rl d gx gx1 log now
             Hrl Hgetx); try assumption.
    - rewrite Hsx. exact Hden.
    - rewrite Hsx. exact Hquota.
    - intros n. rewrite Hcx. apply Hclock. }
  remember (handleTimeCapsuleSubmit (S (S d)) p) as out eqn:Hout.
  unfold FormHandlerRest.handleTimeCapsuleSubmit in Hout.
  unfold pbind at 1, lift at 1 in Hout.
  rewrite (canSubmit_eq JSON_parse config rl (gate p) g1 log Hrl Hget) in Hout, Hopen.
  cbn [fst] in Hopen. injection Hopen as Hopen. rewrite Hopen in Hout.
  run_page_in Hout. cbn [has_capsule_form set_gate negb] in Hout.
  rewrite Hform in Hout. cbn [negb] in Hout.
  cbn [name_value email_value resolution_value add_mark set_gate gate] in Hout.
  fold name email resolution in Hout.
  rewrite validateFormData_eq, Hvalid in Hout. cbn [negb] in Hout.
  rewrite submitToGoogleScript_eq in Hout.
  destruct (script_url config) as [url|] eqn:Hurl.
  - destruct Hsent as [[=] | Hsent].
    cbn [post_outcome posts add_mark set_gate] in Hout. rewrite Hsent in Hout.
    cbn [success] in Hout.
    match type of Hout with context [recordSubmission _ ?gx] =>
      destruct (Hrecord gx) as [Hr _];
        [cbn; exact Hst1 | cbn; exact Hck1 |];
      destruct (recordSubmission (S (S d)) gx) as [r g2] eqn:Hrec
    end.
    cbn [fst] in Hr. subst r. unfold showSuccess in Hout. run_page_in Hout.
    cbn [has_success_modal set_gate add_post add_mark] in Hout.
    match type of Hrec with recordSubmission _ ?gx = _ =>
      pose proof (Hrecord gx) as Hfinal; rewrite Hrec in Hfinal;
        destruct Hfinal as [_ Hfinal]; [cbn; exact Hst1 | cbn; exact Hck1 |]
    end.
    cbn [snd] in Hfinal.
    destruct (has_success_modal p); subst out; cbn [fst snd gate add_mark set_gate];
      (split; [reflexivity | exact Hfinal]).
  - cbn [success] in Hout.
    match type of Hout with context [recordSubmission _ ?gx] =>
      destruct (Hrecord gx) as [Hr _];
        [cbn; exact Hst1 | cbn; exact Hck1 |];
      destruct (recordSubmission (S (S d)) gx) as [r g2] eqn:Hrec
    end.
    cbn [fst] in Hr. subst r. unfold showSuccess in Hout. run_page_in Hout.
    cbn [has_success_modal set_gate add_post add_mark] in Hout.
    match type of Hrec with recordSubmission _ ?gx = _ =>
      pose proof (Hrecord gx) as Hfinal; rewrite Hrec in Hfinal;
        destruct Hfinal as [_ Hfinal]; [cbn; exact Hst1 | cbn; exact Hck1 |]
    end.
    cbn [snd] in Hfinal.
    destruct (has_success_modal p); subst out; cbn [fst snd gate add_mark set_gate];
      (split; [reflexivity | exact Hfinal]).
Qed.

End HandlerFacts.

(** *** Worked examples: the gate over time *)

Local Open Scope Z_scope.

(** Three attempts a second ago at the latest: the next reset is one hour
    after the oldest. *)
Lemma getNextResetTime_is_the_oldest_recent_attempt_plus_the_window_witness :
  rate_limit (app_config policy) = Some policy /\
  getSubmissionAttempts parse_stamps (app_config policy) (browser 1000 "[0,1,5]")
  = (Normal (LStamps [0; 1; 5]), browser 1000 "[0,1,5]") /\
  exists res,
    getNextResetTime parse_stamps (app_config policy) (browser 1000 "[0,1,5]")
    = (Normal res, tick (browser 1000 "[0,1,5]")) /\
    res = Some 3600000.
Proof.
  split; [reflexivity|]. split; [reflexivity|].
  destruct (getNextResetTime_is_the_oldest_recent_attempt_plus_the_window
              parse_stamps (app_config policy) policy
              (browser 1000 "[0,1,5]") (browser 1000 "[0,1,5]") [0; 1; 5]
              eq_refl eq_refl) as (res & Heq & _).
  exists res. split; [exact Heq|].
  vm_compute in Heq. injection Heq as <-. reflexivity.
Defined.

Lemma resetRateLimit_reopens_the_gate_witness :
  rate_limit (app_config policy) = Some policy /\
  fst (canSubmit parse_stamps (app_config policy)
         (snd (resetRateLimit parse_stamps (app_config policy) 1
                 (browser 1000 "[0,1,5]"))))
  = Normal true.
Proof.
  split; [reflexivity|].
  exact (proj1 (resetRateLimit_reopens_the_gate
                  parse_stamps (app_config policy) policy 0
                  (browser 1000 "[0,1,5]") eq_refl)).
Defined.

(** The closed gate of the example has queued its reset as timer 1; the
    timer fires. *)
Lemma fired_reset_leaves_the_gate_open_and_nothing_pending_witness :
  let w := snd (checkAndUpdateRateLimitDisplay parse_stamps (app_config policy) 2
                  (browser 1000 "[0,1,5]")) in
  rate_limit (app_config policy) = Some policy /\
  reachable parse_stamps stringify_stamps (app_config policy) 2 w /\
  find (fun t => Pos.eqb (timer_id t) 1) (timers w)
  = Some {| timer_id := 1; delay := 3598999; action := ResetRateLimit |} /\
  reset_timers (snd (fire parse_stamps (app_config policy) 2 1 w)) = [] /\
  fst (canSubmit parse_stamps (app_config policy)
         (snd (fire parse_stamps (app_config policy) 2 1 w)))
  = Normal true.
Proof.
  intros w.
  assert (Hreach : reachable parse_stamps stringify_stamps (app_config policy) 2 w).
  { change w with (snd (run parse_stamps stringify_stamps (app_config policy) 2
                          CallCheckAndUpdate (browser 1000 "[0,1,5]"))).
    apply reach_step, reach_fresh. split; reflexivity. }
  split; [reflexivity|]. split; [exact Hreach|]. split; [reflexivity|].
  exact (fired_reset_leaves_the_gate_open_and_nothing_pending
           parse_stamps stringify_stamps (app_config policy) policy 1 1%positive
           {| timer_id := 1; delay := 3598999; action := ResetRateLimit |} w
           eq_refl Hreach eq_refl eq_refl).
Defined.

(** Two attempts at time 0: open a second later, and open an hour later. *)
Lemma canSubmit_only_opens_as_time_passes_witness :
  rate_limit (app_config policy) = Some policy /\
  getSubmissionAttempts parse_stamps (app_config policy) (browser 1000 "[0,0]")
  = (Normal (LStamps [0; 0]), browser 1000 "[0,0]") /\
  fst (canSubmit parse_stamps (app_config policy) (browser 1000 "[0,0]")) = Normal true /\
  fst (canSubmit parse_stamps (app_config policy) (browser 3600000 "[0,0]")) = Normal true.
Proof.
  split; [reflexivity|]. split; [reflexivity|]. split; [reflexivity|].
  assert (Hlater : clock (browser 1000 "[0,0]") (reads (browser 1000 "[0,0]"))
                   <= clock (browser 3600000 "[0,0]") (reads (browser 3600000 "[0,0]")))
    by (vm_compute; discriminate).
  exact (proj1 (canSubmit_only_opens_as_time_passes
                  parse_stamps (app_config policy) policy
                  (browser 1000 "[0,0]") (browser 1000 "[0,0]") (browser 3600000 "[0,0]")
                  [0; 0] eq_refl eq_refl eq_refl Hlater) eq_refl).
Defined.

Lemma gate_without_policy_is_inert_witness :
  rate_limit None = None /\
  storage (snd (run parse_stamps stringify_stamps None 1 CallRecordSubmission
                  (browser 1000 "[0,0]")))
  = storage (browser 1000 "[0,0]").
Proof.
  split; [reflexivity|].
  exact (proj1 (proj2 (gate_without_policy_is_inert
                         parse_stamps stringify_stamps None 0 CallRecordSubmission
                         (browser 1000 "[0,0]") eq_refl))).
Defined.

(** Two attempts in the log, the clock standing at one second: after the
    third is recorded the gate of three attempts an hour is closed. *)
Lemma recordSubmission_then_canSubmit_counts_one_more_witness :
  let w := set_clock (fun _ => 1000) (browser 1000 "[0,1]") in
  rate_limit (app_config policy) = Some policy /\
  getSubmissionAttempts parse_stamps (app_config policy) w = (Normal (LStamps [0; 1]), w) /\
  parse_stamps (stringify_stamps [0; 1; 1000]) = Some (LStamps [0; 1; 1000]) /\
  fst (canSubmit parse_stamps (app_config policy) w) = Normal true /\
  fst (recordSubmission parse_stamps stringify_stamps (app_config policy) 2 w) = Normal tt /\
  fst (canSubmit parse_stamps (app_config policy)
         (snd (recordSubmission parse_stamps stringify_stamps (app_config policy) 2 w)))
  = Normal false.
Proof.
  intros w.
  split; [reflexivity|]. split; [reflexivity|]. split; [reflexivity|].
  split; [reflexivity|].
  apply (recordSubmission_then_canSubmit_counts_one_more
           parse_stamps stringify_stamps (app_config policy) policy 0 w w [0; 1] 1000
           eq_refl eq_refl eq_refl eq_refl);
    [reflexivity | reflexivity | vm_compute; discriminate | reflexivity].
Defined.

Lemma closed_gate_queues_its_reset_for_getNextResetTime_witness :
  rate_limit (app_config policy) = Some policy /\
  fst (canSubmit parse_stamps (app_config policy) (browser 1000 "[0,1,5]")) = Normal false /\
  fst (getNextResetTime parse_stamps (app_config policy) (browser 1000 "[0,1,5]"))
  = Normal (Some 3600000) /\
  fst (checkAndUpdateRateLimitDisplay parse_stamps (app_config policy) 2
         (browser 1000 "[0,1,5]"))
  = Normal tt.
Proof.
  split; [reflexivity|]. split; [reflexivity|]. split; [reflexivity|].
  exact (proj1 (closed_gate_queues_its_reset_for_getNextResetTime
                  parse_stamps (app_config policy) policy 0
                  (browser 1000 "[0,1,5]") (browser 1000 "[0,1,5]") [0; 1; 5] 3600000
                  eq_refl eq_refl eq_refl eq_refl)).
Defined.

(** *** Worked examples: a submission *)

Local Abbreviation capsule_handler :=
  (handleTimeCapsuleSubmit parse_stamps stringify_stamps (script_config policy)
     I18n.no_builtin native_name stamp_text).
Local Abbreviation waitlist_handler :=
  (handleWaitlistSubmit parse_stamps stringify_stamps (script_config policy)
     I18n.no_builtin native_name stamp_text).

(** Three attempts in the last second: the gate is closed, the form is not
    sent. *)
Lemma closed_gate_refuses_the_submission_witness :
  let p := landing_page (browser 1000 "[0,1,5]") "Ana" "ana@example.org"
             "Read one book a month" None in
  fst (canSubmit parse_stamps (script_config policy) (gate p)) = Normal false /\
  fst (capsule_handler 2 p) = Done tt /\
  posts (snd (capsule_handler 2 p)) = [] /\
  marks (snd (capsule_handler 2 p))
  = [ErrorModal (VStr "Too many submission attempts. Please try again later.");
     RateLimitedButton Capsule; RateLimitedButton Waitlist].
Proof.
  intros p. split; [reflexivity|].
  destruct (closed_gate_refuses_the_submission
              parse_stamps stringify_stamps (script_config policy)
              I18n.no_builtin native_name stamp_text 2 p eq_refl
              (capsule_handler 2) (or_introl eq_refl)) as (Hdone & Hposts & _ & Hmarks).
  split; [exact Hdone|]. split; [exact Hposts | exact Hmarks].
Defined.

(** An address without a dot after the [@]. *)
Lemma invalid_fields_are_reported_twice_and_the_form_restored_witness :
  let p := landing_page (browser 1000 "[]") "Ana" "ana@example"
             "Read one book a month" None in
  capsule_fields_ascii p = true /\
  fst (canSubmit parse_stamps (script_config policy) (gate p)) = Normal true /\
  valid_fields "Ana" "ana@example" "Read one book a month" = false /\
  marks (snd (capsule_handler 2 p))
  = [Loading Capsule "📤 Sending..."; FormDisabled true;
     ErrorModal (VStr "Please enter a valid email address.");
     ErrorModal (VStr "Please fill in all required fields correctly.");
     Loading Capsule "Seal my resolution"; FormDisabled false].
Proof.
  intros p. split; [reflexivity|]. split; [reflexivity|]. split; [reflexivity|].
  exact (proj2 (invalid_fields_are_reported_twice_and_the_form_restored
                  parse_stamps stringify_stamps (script_config policy)
                  I18n.no_builtin native_name stamp_text 2 p
                  eq_refl eq_refl eq_refl eq_refl)).
Defined.

Lemma rejected_post_is_reported_and_the_form_restored_witness :
  let p := landing_page (browser 1000 "[]") "Ana" "ana@example.org"
             "Read one book a month" (Some "Failed to fetch") in
  capsule_fields_ascii p = true /\
  fst (canSubmit parse_stamps (script_config policy) (gate p)) = Normal true /\
  valid_fields "Ana" "ana@example.org" "Read one book a month" = true /\
  marks (snd (capsule_handler 2 p))
  = [Loading Capsule "📤 Sending..."; FormDisabled true;
     ErrorModal (VStr "Network error. Please check your connection and try again.");
     Loading Capsule "Seal my resolution"; FormDisabled false].
Proof.
  intros p. split; [reflexivity|]. split; [reflexivity|]. split; [reflexivity|].
  exact (proj2 (rejected_post_is_reported_and_the_form_restored
                  parse_stamps stringify_stamps (script_config policy)
                  I18n.no_builtin native_name stamp_text 2 p
                  "https://script.example/exec" "Failed to fetch"
                  eq_refl eq_refl eq_refl eq_refl eq_refl eq_refl)).
Defined.

(** The same rejection on the waitlist form: the button keeps its loading
    text. *)
Lemma waitlist_button_is_restored_only_after_a_throw_witness :
  let p := landing_page (browser 1000 "[]") "Ana" "ana@example.org"
             "Read one book a month" (Some "Failed to fetch") in
  ascii_text (waitlist_email_value p) = true /\
  fst (canSubmit parse_stamps (script_config policy) (gate p)) = Normal true /\
  marks (snd (waitlist_handler 2 p))
  = [Loading Waitlist "📤 Adding...";
     ErrorModal (VStr "Network error. Please check your connection and try again.")].
Proof.
  intros p. split; [reflexivity|]. split; [reflexivity|].
  destruct (waitlist_button_is_restored_only_after_a_throw
              parse_stamps stringify_stamps (script_config policy)
              I18n.no_builtin native_name stamp_text 2 p eq_refl eq_refl eq_refl)
    as [_ Hrejected].
  exact (proj2 (Hrejected "https://script.example/exec" "Failed to fetch"
                  eq_refl eq_refl eq_refl)).
Defined.

(** The resolver with the table of the examples, which has no [errorModal]
    entry. *)
Lemma missing_error_translation_is_shown_as_its_key_witness :
  let iw := I18n.page None None "en" I18n.offline I18n.english in
  let p := with_i18n (fun key => I18n.t I18n.no_builtin I18n.plain_ToString iw key [])
             (landing_page (browser 1000 "[]") "A" "" "" None) in
  marks (snd (showError (VStr "Please enter your name (at least 2 characters).")
                "validationError" p))
  = [ErrorModal (VStr "errorModal.validationError")].
Proof.
  intros iw p.
  destruct (missing_error_translation_is_shown_as_its_key
              I18n.no_builtin I18n.plain_ToString iw p
              (VStr "Please enter your name (at least 2 characters).") "validationError"
              eq_refl eq_refl) as [Hshown _].
  rewrite Hshown. reflexivity.
Defined.

(** The third submission within the hour goes through and closes the gate. *)
Lemma accepted_submission_counts_against_the_next_witness :
  let p := landing_page (set_clock (fun _ => 1000%Z) (browser 1000 "[0,1]"))
             "Ana" "ana@example.org" "Read one book a month" None in
  capsule_fields_ascii p = true /\
  fst (canSubmit parse_stamps (script_config policy) (gate p)) = Normal true /\
  valid_fields "Ana" "ana@example.org" "Read one book a month" = true /\
  fst (capsule_handler 2 p) = Done tt /\
  fst (canSubmit parse_stamps (script_config policy) (gate (snd (capsule_handler 2 p))))
  = Normal false.
Proof.
  intros p. split; [reflexivity|]. split; [reflexivity|]. split; [reflexivity|].
  apply (accepted_submission_counts_against_the_next
           parse_stamps stringify_stamps (script_config policy)
           I18n.no_builtin native_name stamp_text policy 0 p (gate p) [0; 1]%Z 1000%Z);
    try reflexivity.
  - vm_compute. discriminate.
  - right. reflexivity.
Defined.

(** A valid form on an open gate, the POST going through: one POST is made
    and the attempt is recorded. *)
Lemma handleTimeCapsuleSubmit_posts_and_records_only_admitted_data_witness :
  let p := landing_page (browser 1000 "[]") "  Ana " "ana@example.org"
             "Read one book a month" None in
  capsule_fields_ascii p = true /\
  storage (gate (snd (capsule_handler 2 p))) <> storage (gate p) /\
  valid_fields "Ana" "ana@example.org" "Read one book a month" = true /\
  post_outcome p (List.length (posts p)) = None.
Proof.
  intros p.
  assert (Hrecorded : storage (gate (snd (capsule_handler 2 p))) <> storage (gate p))
    by (vm_compute; discriminate).
  split; [reflexivity|]. split; [exact Hrecorded|].
  destruct (proj2 (handleTimeCapsuleSubmit_posts_and_records_only_admitted_data
                     parse_stamps stringify_stamps (script_config policy)
                     I18n.no_builtin native_name stamp_text 2 p eq_refl) Hrecorded)
    as [(_ & _ & Hvalid) [Hurl | Hsent]].
  - discriminate Hurl.
  - split; [exact Hvalid | exact Hsent].
Defined.

Lemma handleWaitlistSubmit_posts_and_records_only_admitted_data_witness :
  let p := landing_page (browser 1000 "[]") "" " ana@example.org" "" None in
  ascii_text (waitlist_email_value p) = true /\
  storage (gate (snd (waitlist_handler 2 p))) <> storage (gate p) /\
  validateEmail "ana@example.org" = true /\
  post_outcome p (List.length (posts p)) = None.
Proof.
  intros p.
  assert (Hrecorded : storage (gate (snd (waitlist_handler 2 p))) <> storage (gate p))
    by (vm_compute; discriminate).
  split; [reflexivity|]. split; [exact Hrecorded|].
  destruct (proj2 (handleWaitlistSubmit_posts_and_records_only_admitted_data
                     parse_stamps stringify_stamps (script_config policy)
                     I18n.no_builtin native_name stamp_text 2 p eq_refl) Hrecorded)
    as [(_ & _ & Hvalid) [Hurl | Hsent]].
  - discriminate Hurl.
  - split; [exact Hvalid | exact Hsent].
Defined.

Lemma submitToGoogleScript_reports_instead_of_throwing_witness :
  let p := landing_page (browser 1000 "[]") "Ana" "ana@example.org"
             "Read one book a month" (Some "Failed to fetch") in
  exists r p',
    submitToGoogleScript (script_config policy) I18n.no_builtin
      (WaitlistEntry "ana@example.org" "1000") p = (Done r, p') /\
    posts p' = [("https://script.example/exec", WaitlistEntry "ana@example.org" "1000")] /\
    errorType r = Some "networkError".
Proof.
  intros p.
  destruct (submitToGoogleScript_reports_instead_of_throwing
              (script_config policy) I18n.no_builtin
              (WaitlistEntry "ana@example.org" "1000") p)
    as (r & p' & Hrun & _ & _ & _ & Hurl).
  destruct (Hurl "https://script.example/exec" eq_refl) as (Hposts & _ & _).
  exists r, p'. split; [exact Hrun|]. split; [exact Hposts|].
  vm_compute in Hrun. injection Hrun as <- _. reflexivity.
Defined.

End FormHandlerRestFacts.

(** ** Detection, loading and switching, continued *)

Module I18nRestFacts.

Import Js I18n I18nRest StrFacts I18nFacts.
Local Open Scope string_scope.

(** What [loadTranslations] leaves alone, and what it can install. *)
Lemma loadTranslations_frame (lang : string) (w : World) :
  exists w',
    loadTranslations lang w = (Normal tt, w') /\
    storage w' = storage w /\ currentLang w' = currentLang w /\
    location_lang w' = location_lang w /\
    navigator_language w' = navigator_language w /\
    navigator_userLanguage w' = navigator_userLanguage w /\
    (requests w' = S (requests w) \/
     lang <> "en" /\ network w (requests w) (table_url lang) = None /\
     requests w' = S (S (requests w))) /\
    (translations w' = translations w \/
     network w (requests w) (table_url lang) = Some (translations w') \/
     network w (S (requests w)) (table_url "en") = Some (translations w')).
Proof.
  destruct (network w (requests w) (table_url lang)) as [v|] eqn:Hnet.
  - rewrite (loadTranslations_ok lang w v Hnet). eexists. split; [reflexivity|].
    cbn. repeat split; auto.
  - rewrite (loadTranslations_failed lang w Hnet).
    destruct (String.eqb_spec lang "en") as [-> | Hne].
    + eexists. split; [reflexivity|]. cbn. repeat split; auto.
    + rewrite loadTranslations_en. cbn [requests network log_console request].
      destruct (network w (S (requests w)) (table_url "en")) as [v|] eqn:Hen;
        (eexists; split; [reflexivity|]); cbn; repeat split; auto.
Qed.

(** [loadTranslations] always returns: a failed fetch is caught and logged.
    It makes one request, or two when the first, for a language other than
    English, failed; it leaves the store, the URL and the active language
    alone; and the table afterwards is the previous one or one the network
    served for the language or for English. *)
Theorem loadTranslations_always_returns (lang : string) (w : World) :
  exists w',
    loadTranslations lang w = (Normal tt, w') /\
    storage w' = storage w /\ currentLang w' = currentLang w /\
    location_lang w' = location_lang w /\
    (requests w' = S (requests w) \/
     lang <> "en" /\ network w (requests w) (table_url lang) = None /\
     requests w' = S (S (requests w))) /\
    (translations w' = translations w \/
     network w (requests w) (table_url lang) = Some (translations w') \/
     network w (S (requests w)) (table_url "en") = Some (translations w')).
Proof.
  destruct (loadTranslations_frame lang w) as (w' & H & Hs & Hc & Hl & _ & _ & Hr & Ht).
  exists w'. auto 10.
Qed.

Lemma browser_match_supported (b l : string) :
  browser_match b = Some l -> supported l = true /\ l <> "en".
Proof.
  intros H. apply browser_match_values in H as [-> | ->]; split; (reflexivity || discriminate).
Qed.

Lemma detectLanguage_supported_or_throws (w : World) :
  (exists l, detectLanguage w = (Normal l, w) /\ supported l = true) \/
  (detectLanguage w = (Throw SecurityError, w) /\
   supported_choice (location_lang w) = None /\ denied (storage w) = true).
Proof.
  rewrite detectLanguage_eq. unfold getItem.
  destruct (supported_choice (location_lang w)) as [l|] eqn:Hurl.
  { apply supported_choice_Some in Hurl as [_ Hsup]. left. eauto. }
  destruct (denied (storage w)) eqn:Hden; [right; auto|].
  destruct (supported_choice (assoc "tawazn-language" (items (storage w)))) as [l|] eqn:Hsaved.
  { apply supported_choice_Some in Hsaved as [_ Hsup]. left. eauto. }
  destruct (browser_match (browser_language w)) as [l|] eqn:Hbrowser.
  - apply browser_match_supported in Hbrowser as [Hsup _]. left. eauto.
  - left. exists "id". auto.
Qed.

(** [detectLanguage] throws exactly when the URL names no supported language
    and the store refuses access, the read of the store being under no
    [try]: then it throws [SecurityError] and changes nothing.  In every
    other case it returns, changes nothing, and answers one of [en], [id],
    [ar] -- [en] only when the URL or the store says so, never from the
    browser's language. *)
Theorem detectLanguage_answers_a_supported_language_or_throws (w : World) :
  (names_none (location_lang w) /\ denied (storage w) = true ->
   detectLanguage w = (Throw SecurityError, w)) /\
  (~ (names_none (location_lang w) /\ denied (storage w) = true) ->
   exists l,
     detectLanguage w = (Normal l, w) /\
     (l = "en" \/ l = "id" \/ l = "ar") /\
     (l = "en" ->
      location_lang w = Some "en" \/
      assoc "tawazn-language" (items (storage w)) = Some "en")).
Proof.
  rewrite detectLanguage_eq. unfold getItem. split.
  - intros [Hurl Hden]. apply names_none_iff in Hurl. rewrite Hurl, Hden. reflexivity.
  - intros Hnot.
    destruct (supported_choice (location_lang w)) as [l|] eqn:Hurl.
    { apply names_iff in Hurl as [Hurl Hsup].
      exists l. repeat split; [exact Hsup|]. intros ->. left. exact Hurl. }
    apply names_none_iff in Hurl.
    destruct (denied (storage w)) eqn:Hden; [destruct Hnot; auto|].
    destruct (supported_choice (assoc "tawazn-language" (items (storage w))))
      as [l|] eqn:Hsaved.
    { apply names_iff in Hsaved as [Hsaved Hsup].
      exists l. repeat split; [exact Hsup|]. intros ->. right. exact Hsaved. }
    destruct (browser_match (browser_language w)) as [l|] eqn:Hbrowser.
    + pose proof (browser_match_values _ _ Hbrowser) as Hl.
      exists l. repeat split; [tauto|]. intros ->. destruct Hl as [H | H]; discriminate H.
    + exists "id". repeat split; [auto | discriminate].
Qed.

(** A switch is remembered.  When [setLanguage lang] runs through from
    another active language, [lang] is the active language, the [lang] query
    parameter and the stored choice; a later [detectLanguage] answers [lang]
    when it is one of [en], [id], [ar].  [setLanguage] itself does not check
    that: an unsupported [lang] is made active and stored all the same, and
    [detectLanguage] then answers another language. *)
Theorem switched_language_is_detected_afterwards (lang : string) (w w' : World) :
  lang <> currentLang w ->
  setLanguage lang w = (Normal tt, w') ->
  currentLang w' = lang /\
  location_lang w' = Some lang /\
  assoc "tawazn-language" (items (storage w')) = Some lang /\
  (supported lang = true -> detectLanguage w' = (Normal lang, w')) /\
  (supported lang = false ->
   exists l, detectLanguage w' = (Normal l, w') /\ l <> lang /\ supported l = true).
Proof.
  intros Hne Hset. apply String.eqb_neq in Hne.
  unfold setLanguage in Hset. unfold bind at 1 in Hset. unfold get in Hset.
  rewrite Hne in Hset.
  unfold bind at 1 in Hset. unfold modify at 1 in Hset.
  unfold bind at 1 in Hset. unfold localStorage_setItem, setItem in Hset.
  cbn [storage set_currentLang] in Hset.
  destruct (denied (storage w)) eqn:Hden; [discriminate Hset|].
  destruct (quota_full (storage w)) eqn:Hquota; [discriminate Hset|].
  unfold bind at 1 in Hset.
  match type of Hset with context [loadTranslations lang ?w1] =>
    destruct (loadTranslations_frame lang w1) as (w2 & Hload & Hs & Hc & _);
      rewrite Hload in Hset
  end.
  unfold bind, dom, modify in Hset. injection Hset as <-.
  cbn [currentLang location_lang storage log_effect set_location_lang] in *.
  assert (Hsaved : assoc "tawazn-language" (items (storage w2)) = Some lang)
    by (rewrite Hs; reflexivity).
  assert (Hden2 : denied (storage w2) = false) by (rewrite Hs; reflexivity).
  split; [exact Hc|]. split; [reflexivity|]. split; [exact Hsaved|].
  rewrite detectLanguage_eq. unfold getItem.
  cbn [location_lang storage log_effect set_location_lang browser_language
       navigator_language navigator_userLanguage supported_choice].
  split.
  - intros ->. reflexivity.
  - intros Hno. rewrite Hno, Hden2, Hsaved. cbn [supported_choice]. rewrite Hno.
    destruct (browser_match _) as [l|] eqn:Hbrowser.
    + destruct (browser_match_supported _ _ Hbrowser) as [Hsup _].
      exists l. repeat split; [|exact Hsup]. intros ->. congruence.
    + exists "id". repeat split. intros <-. discriminate Hno.
Qed.

(** When the store refuses the write, [setLanguage] throws -- after it has
    made [lang] the active language and before it loads anything: no request
    is made, the table, the URL and the page are as before, and nothing is
    dispatched. *)
Theorem setLanguage_throws_after_switching_when_the_store_refuses
  (lang : string) (w : World) :
  lang <> currentLang w ->
  denied (storage w) = true \/ quota_full (storage w) = true ->
  exists e,
    setLanguage lang w = (Throw e, set_currentLang lang w) /\
    (e = SecurityError \/ e = QuotaExceededError).
Proof.
  intros Hne Hrefused. apply String.eqb_neq in Hne.
  unfold setLanguage. unfold bind at 1. unfold get. rewrite Hne.
  unfold bind at 1. unfold modify at 1.
  unfold bind at 1. unfold localStorage_setItem, setItem.
  cbn [storage set_currentLang].
  destruct (denied (storage w)) eqn:Hden; [eauto|].
  destruct Hrefused as [[=] | ->]. eauto.
Qed.

(** Construction.  When [detectLanguage] throws, so does the constructor and
    no instance comes to be.  Otherwise the constructor returns, whatever
    the network does: the active language is one of [en], [id], [ar], and
    the table is one the network served for it or for English, or, when
    every fetch failed, the empty table the constructor started from. *)
Theorem constructor_returns_whenever_detection_does (w : World) :
  (supported_choice (location_lang w) = None /\ denied (storage w) = true ->
   constructor w = (Throw SecurityError, w)) /\
  (supported_choice (location_lang w) <> None \/ denied (storage w) = false ->
   exists w',
     constructor w = (Normal tt, w') /\
     fst (detectLanguage w) = Normal (currentLang w') /\
     supported (currentLang w') = true /\
     (translations w' = VObj [] \/
      network w (requests w) (table_url (currentLang w')) = Some (translations w') \/
      network w (S (requests w)) (table_url "en") = Some (translations w'))).
Proof.
  assert (Hinit : forall l,
             exists w',
               init (set_translations (VObj []) (set_currentLang l w)) = (Normal tt, w') /\
               currentLang w' = l /\
               (translations w' = VObj [] \/
                network w (requests w) (table_url l) = Some (translations w') \/
                network w (S (requests w)) (table_url "en") = Some (translations w'))).
  { intros l. unfold init. unfold bind at 1. unfold get.
    cbn [currentLang set_translations set_currentLang].
    unfold bind at 1.
    match goal with |- context [loadTranslations l ?w1] =>
      destruct (loadTranslations_frame l w1) as (w2 & Hload & _ & Hc & _ & _ & _ & _ & Ht);
        rewrite Hload
    end.
    unfold bind, dom, modify. eexists. split; [reflexivity|].
    cbn [currentLang translations log_effect set_translations set_currentLang
         network requests] in *.
    split; [exact Hc | exact Ht]. }
  assert (Heq : constructor w =
                match detectLanguage w with
                | (Normal l, w0) => init (set_translations (VObj []) (set_currentLang l w0))
                | (Throw e, w0) => (Throw e, w0)
                | (Exhausted, w0) => (Exhausted, w0)
                end).
  { unfold constructor, bind, modify. destruct (detectLanguage w) as [[l | e |] w0]; reflexivity. }
  rewrite Heq.
  destruct (detectLanguage_supported_or_throws w)
    as [(l & Hdetect & Hsup) | (Hdetect & Hurl & Hden)]; rewrite Hdetect.
  - split; [intros [Hurl Hden]; rewrite detectLanguage_eq in Hdetect;
            unfold getItem in Hdetect; rewrite Hurl, Hden in Hdetect;
            discriminate Hdetect|].
    intros _. destruct (Hinit l) as (w' & Hrun & Hc & Ht).
    exists w'. rewrite Hc. cbn [fst]. auto.
  - split; [reflexivity|]. intros [Hno | Hno]; congruence.
Qed.

Section Names.

Variable builtin : value -> string -> value.
Variable ToString : value -> string.

(** The only falsy answer of [t] is the empty text. *)
Lemma t_falsy (w : World) (key : string) (params : list (string * value)) :
  key <> "" ->
  truthy (t builtin ToString w key params) = false ->
  t builtin ToString w key params = VStr "".
Proof.
  intros Hkey. unfold t, or_else.
  assert (Hk : negb (String.eqb key "") = true)
    by (destruct key; [contradiction Hkey; reflexivity | reflexivity]).
  destruct (walk builtin (translations w) key) as [| | b | n | s | l | l | n] eqn:Hwalk;
    cbn [truthy]; rewrite ?Hk; try discriminate.
  - destruct b; cbn [truthy]; rewrite ?Hk; discriminate.
  - destruct (negb (n =? 0)%Z) eqn:E; cbn [truthy]; rewrite ?E, ?Hk; discriminate.
  - intros H. apply negb_false_iff, String.eqb_eq in H. rewrite H. reflexivity.
Qed.

(** [getLanguageName] names a language by the upper-cased code only when the
    table holds an empty text for it.  A language with no entry at all is
    named by the key [languages.<lang>.short] itself, because that is what
    [t] answers and it is truthy. *)
Theorem language_without_an_entry_is_named_by_its_key (w : World) (lang : string) :
  let key := "languages." ++ lang ++ ".short" in
  (misses builtin (translations w) (Str.split "." key) ->
   getLanguageName builtin ToString w lang = VStr key) /\
  (getLanguageName builtin ToString w lang = t builtin ToString w key [] \/
   t builtin ToString w key [] = VStr "" /\
   getLanguageName builtin ToString w lang = VStr (toUpperCase lang)).
Proof.
  intros key. unfold getLanguageName. fold key. split.
  - intros Hmiss. unfold t, walk.
    rewrite (misses_fold builtin _ _ Hmiss). reflexivity.
  - unfold or_else.
    destruct (truthy (t builtin ToString w key [])) eqn:Htruthy; [left; reflexivity|].
    right. split; [|reflexivity]. apply t_falsy; [discriminate | exact Htruthy].
Qed.

End Names.

(** *** Worked examples: languages *)

Lemma language_without_an_entry_is_named_by_its_key_witness :
  getLanguageName no_builtin plain_ToString (page None None "fr" offline english) "fr"
  = VStr "languages.fr.short".
Proof.
  exact (proj1 (language_without_an_entry_is_named_by_its_key
                  no_builtin plain_ToString (page None None "fr" offline english) "fr")
               eq_refl).
Defined.

(** A visitor who saw Indonesian picks English; the choice is found again. *)
Lemma switched_language_is_detected_afterwards_witness :
  let w := page None None "fr-FR" english_only (VObj []) in
  let w' := snd (setLanguage "en" w) in
  "en" <> currentLang w /\
  setLanguage "en" w = (Normal tt, w') /\
  detectLanguage w' = (Normal "en", w').
Proof.
  intros w w'.
  assert (Hne : "en" <> currentLang w) by discriminate.
  assert (Hset : setLanguage "en" w = (Normal tt, w')) by (vm_compute; reflexivity).
  split; [exact Hne|]. split; [exact Hset|].
  destruct (switched_language_is_detected_afterwards "en" w w' Hne Hset)
    as (_ & _ & _ & Hdetect & _).
  exact (Hdetect eq_refl).
Defined.

(** A browser that refuses storage access. *)
Lemma setLanguage_throws_after_switching_when_the_store_refuses_witness :
  let w := set_storage {| denied := true; quota_full := false; items := [] |}
             (page None None "fr-FR" english_only (VObj [])) in
  "en" <> currentLang w /\
  denied (storage w) = true /\
  exists e, setLanguage "en" w = (Throw e, set_currentLang "en" w) /\
            (e = SecurityError \/ e = QuotaExceededError).
Proof.
  intros w. split; [discriminate|]. split; [reflexivity|].
  apply (setLanguage_throws_after_switching_when_the_store_refuses "en" w);
    [discriminate | left; reflexivity].
Defined.

(** The same browser: without a [lang] parameter the constructor throws;
    offline but with storage, it returns with the empty table. *)
Lemma constructor_returns_whenever_detection_does_witness :
  constructor (set_storage {| denied := true; quota_full := false; items := [] |}
                 (page None None "fr-FR" english_only (VObj [])))
  = (Throw SecurityError,
     set_storage {| denied := true; quota_full := false; items := [] |}
       (page None None "fr-FR" english_only (VObj []))) /\
  exists w', constructor (page None None "fr-FR" offline english) = (Normal tt, w') /\
             translations w' = VObj [].
Proof.
  split.
  - apply (proj1 (constructor_returns_whenever_detection_does _)). split; reflexivity.
  - destruct (proj2 (constructor_returns_whenever_detection_does
                       (page None None "fr-FR" offline english))
                    (or_intror eq_refl)) as (w' & Hrun & _ & _ & [Ht | [Ht | Ht]]).
    + exists w'. split; [exact Hrun | exact Ht].
    + discriminate Ht.
    + discriminate Ht.
Defined.

Lemma detectLanguage_answers_a_supported_language_or_throws_witness :
  detectLanguage (private_page "en-US") = (Throw SecurityError, private_page "en-US") /\
  exists l, detectLanguage (page None None "en-US" offline english)
            = (Normal l, page None None "en-US" offline english) /\ l <> "en".
Proof.
  split.
  - apply (proj1 (detectLanguage_answers_a_supported_language_or_throws _)).
    split; [intros l [[=] _] | reflexivity].
  - destruct (proj2 (detectLanguage_answers_a_supported_language_or_throws
                       (page None None "en-US" offline english)))
      as (l & Hdetect & _ & Hen).
    + intros [_ Hden]. discriminate Hden.
    + exists l. split; [exact Hdetect|]. intros Hl.
      destruct (Hen Hl) as [H | H]; discriminate H.
Defined.

End I18nRestFacts.
